(** * Force Dynamics blind-evaluation pipeline: model and verified properties

    A shallow embedding of the pipeline-relevant code of the repository
    (src/methodology.py, src/db.py, src/pipeline.py and
    scripts/generate_tables.py) together with the parts of the Python
    standard library these functions call (str methods, random.shuffle,
    json.loads / json.dumps, the sqlite tables created by init_db).

    The file has two parts: the definitions, then the theorems. *)

From Stdlib Require Import Ascii QArith.
From stdpp Require Import base list numbers strings pretty sorting.

Set Warnings "-register-all".

(* ===================================================================== *)
(** * Part I: definitions                                                 *)
(* ===================================================================== *)

(** ** Python values *)

(** A Python [str] is a sequence of Unicode code points. *)
Definition str := list N.

(** [lit "abc"] is the Python literal "abc" (the characters of an ASCII
    literal are their own code points). *)
Definition lit (s : string) : str :=
  Ascii.N_of_ascii <$> String.list_ascii_of_string s.

(** Exceptions the modelled code can raise. *)
Inductive exn :=
  | IndexError
  | KeyError
  | TypeError
  | AttributeError
  | ValueError
  | JSONDecodeError
  | FileNotFoundError
  | GatewayError
  | OutOfFuel. (* not a Python exception: a loop bound of the model ran out *)

(** The outcome of a call: a value, or a raised exception. *)
Inductive result (A : Type) :=
  | Ok (a : A)
  | Raise (e : exn).
Arguments Ok {A} a.
Arguments Raise {A} e.

#[export] Instance result_fmap : FMap result := λ A B f r,
  match r with
  | Ok a => Ok (f a)
  | Raise e => Raise e
  end.
#[export] Instance result_ret : MRet result := λ A a, Ok a.
#[export] Instance result_bind : MBind result := λ A B k r,
  match r with
  | Ok a => k a
  | Raise e => Raise e
  end.

(** [x[i]] for a non-negative index: IndexError out of range. *)
Definition getitem {A} (x : list A) (i : nat) : result A :=
  match x !! i with
  | Some a => Ok a
  | None => Raise IndexError
  end.

(** A Python dict is insertion-ordered, with one entry per key; [dict V]
    is a dict with str keys. *)
Definition dict (V : Type) := list (str * V).

Fixpoint dict_get {K V} `{EqDecision K} (d : list (K * V)) (k : K) : option V :=
  match d with
  | [] => None
  | (k', v) :: d' => if decide (k' = k) then Some v else dict_get d' k
  end.

(** [d[k] = v]: an existing key keeps its position, a new key goes last. *)
Fixpoint dict_set {K V} `{EqDecision K} (d : list (K * V)) (k : K) (v : V)
    : list (K * V) :=
  match d with
  | [] => [(k, v)]
  | (k', v') :: d' =>
      if decide (k' = k) then (k, v) :: d' else (k', v') :: dict_set d' k v
  end.

(** A dict display [{k1: v1, k2: v2, ...}], and [dict(pairs)]. *)
Definition dict_of_pairs {K V} `{EqDecision K} (l : list (K * V)) : list (K * V) :=
  foldl (λ d kv, dict_set d kv.1 kv.2) [] l.

Definition dict_keys {K V} (d : list (K * V)) : list K := d.*1.
Definition dict_values {K V} (d : list (K * V)) : list V := d.*2.

(** [d[k]] raises KeyError on a missing key. *)
Definition dict_getitem {V} (d : dict V) (k : str) : result V :=
  match dict_get d k with
  | Some v => Ok v
  | None => Raise KeyError
  end.

(** ** random.Random *)

(** The interface of [random.Random] the pipeline uses: the constructor
    from an integer seed, and [_randbelow(n)], which for [n > 0] returns an
    integer in [[0, n)] and advances the generator. *)
Class RandomSource (G : Type) := {
  Random : Z → G;
  randbelow : G → nat → nat * G;
  randbelow_lt : ∀ g n, 0 < n → (randbelow g n).1 < n
}.

(** [x[i], x[j] = x[j], x[i]] *)
Definition swap {A} (x : list A) (i j : nat) : result (list A) :=
  xj ← getitem x j;
  xi ← getitem x i;
  Ok (<[j := xi]> (<[i := xj]> x)).

Section shuffle.
Context {G : Type} `{RandomSource G} {A : Type}.

(** The loop [for i in reversed(range(1, len(x)))] of [Random.shuffle],
    entered with the counter at [i]. *)
Fixpoint shuffle_loop (i : nat) (rng : G) (x : list A) : result (list A * G) :=
  match i with
  | 0 => Ok (x, rng)
  | S i' =>
      let (j, rng') := randbelow rng (i + 1) in
      x' ← swap x i j;
      shuffle_loop i' rng' x'
  end.

(** [rng.shuffle(x)]; the list after the call and the generator state. *)
Definition shuffle (rng : G) (x : list A) : result (list A * G) :=
  shuffle_loop (length x - 1) rng x.
End shuffle.

(** ** methodology.prepare_blind_labels *)

Definition label_A : str := lit "A".
Definition label_B : str := lit "B".
Definition label_C : str := lit "C".
Definition GPT : str := lit "GPT".
Definition Google : str := lit "Google".
Definition Human : str := lit "Human".

Definition blind_labels : list str := [label_A; label_B; label_C].
Definition categories : list str := [GPT; Google; Human].

Definition prepare_blind_labels {G} `{RandomSource G}
    (rng : G) (gpt google human : str) : result (dict str * dict str * G) :=
  '(entries, rng') ← shuffle rng [(GPT, gpt); (Google, google); (Human, human)];
  e0 ← getitem entries 0;
  e1 ← getitem entries 1;
  e2 ← getitem entries 2;
  let labels := dict_of_pairs [(label_A, e0.2); (label_B, e1.2); (label_C, e2.2)] in
  let mapping := dict_of_pairs [(label_A, e0.1); (label_B, e1.1); (label_C, e2.1)] in
  Ok (labels, mapping, rng').

(** A provenance map is a bijection between the labels and the categories
    when its keys are the three labels and its values the three categories,
    each exactly once. *)
Definition is_bijection (mapping : dict str) : Prop :=
  dict_keys mapping ≡ₚ blind_labels ∧ dict_values mapping ≡ₚ categories.

(** The text that was passed in the argument slot of a category. *)
Definition text_of (gpt google human : str) (category : str) : str :=
  if decide (category = GPT) then gpt
  else if decide (category = Google) then google
  else human.

(** A linear congruential generator, a concrete randomness source used to
    run the model. *)
Definition lcg_next (g : N) : N := ((g * 1103515245 + 12345) mod 2147483648)%N.

#[export] Instance lcg_source : RandomSource N := {|
  Random z := Z.to_N (Z.abs z);
  randbelow g n := (N.to_nat (lcg_next g `mod` N.of_nat n)%N, lcg_next g);
  randbelow_lt := ltac:(intros g n Hn; simpl;
    pose proof (N.mod_upper_bound (lcg_next g) (N.of_nat n)); lia)
|}.

(** ** str methods *)

(** The code point of an ASCII character. *)
Definition ch (a : Ascii.ascii) : N := Ascii.N_of_ascii a.
Arguments ch a%_char.

Definition is_ch (c : N) (a : Ascii.ascii) : bool := (c =? ch a)%N.
Arguments is_ch c a%_char.

(** [c.isspace()]: the characters [str.strip()] removes (Unicode
    whitespace: bidirectional type WS, B or S, or category Zs). *)
Definition isspace (c : N) : bool :=
  ((9 <=? c) && (c <=? 13) || (28 <=? c) && (c <=? 32)
   || (c =? 133) || (c =? 160) || (c =? 5760)
   || (8192 <=? c) && (c <=? 8202)
   || (c =? 8232) || (c =? 8233) || (c =? 8239) || (c =? 8287)
   || (c =? 12288))%N.

Fixpoint lstrip (s : str) : str :=
  match s with
  | c :: s' => if isspace c then lstrip s' else s
  | [] => []
  end.

Definition rstrip (s : str) : str := reverse (lstrip (reverse s)).

(** [s.strip()] *)
Definition str_strip (s : str) : str := rstrip (lstrip s).

(** [s.startswith(p)] *)
Fixpoint startswith (s p : str) {struct p} : bool :=
  match p, s with
  | [], _ => true
  | a :: p', b :: s' => (a =? b)%N && startswith s' p'
  | _ :: _, [] => false
  end.

(** The left-to-right scan of [s.replace(old, new)] for a non-empty
    [old]; [skip] counts the characters of a match still to be passed
    over. *)
Fixpoint replace_scan (old new : str) (skip : nat) (s : str) : str :=
  match s with
  | [] => []
  | c :: s' =>
      match skip with
      | S k => replace_scan old new k s'
      | 0 =>
          if startswith s old
          then new ++ replace_scan old new (length old - 1) s'
          else c :: replace_scan old new 0 s'
      end
  end.

(** [s.replace(old, new)]: every non-overlapping occurrence, leftmost
    first; an empty [old] matches before every character and at the end. *)
Definition str_replace (s old new : str) : str :=
  match old with
  | [] => new ++ mjoin ((λ c, c :: new) <$> s)
  | _ :: _ => replace_scan old new 0 s
  end.

(** [s.find(sub)]: the lowest index at which [sub] occurs, or -1. *)
Fixpoint str_find (s sub : str) : Z :=
  if startswith s sub then 0
  else match s with
       | [] => -1
       | _ :: s' => let i := str_find s' sub in if (i =? -1)%Z then -1 else (i + 1)%Z
       end.

(** [s.rfind(sub)]: the highest index at which [sub] occurs, or -1. *)
Fixpoint str_rfind (s sub : str) : Z :=
  match s with
  | [] => if startswith s sub then 0 else -1
  | _ :: s' =>
      let i := str_rfind s' sub in
      if (i =? -1)%Z then (if startswith s sub then 0 else -1) else (i + 1)%Z
  end.

(** [s[start:stop]] for integer bounds (negative bounds count from the
    end, out-of-range bounds are clipped). *)
Definition slice_index (n i : Z) : Z :=
  if (i <? 0)%Z then Z.max 0 (n + i) else Z.min i n.

Definition str_slice (s : str) (start stop : Z) : str :=
  let n := Z.of_nat (length s) in
  let a := slice_index n start in
  let b := slice_index n stop in
  take (Z.to_nat (b - a)) (drop (Z.to_nat a) s).

(** ** JSON values *)

(** The Python values [json.loads] produces. A float is kept as the
    literal it is read from, [PFloat l] standing for [float(l)]. *)
Inductive pyval :=
  | PNone
  | PBool (b : bool)
  | PInt (z : Z)
  | PFloat (literal : str)
  | PStr (s : str)
  | PList (l : list pyval)
  | PDict (d : list (str * pyval)).

(** ** json.loads

    The decoder of the standard library (json/decoder.py, json/scanner.py
    and their C accelerator, which [json.loads] uses) over the remaining
    input. Every error the decoder reports is a JSONDecodeError. The
    interpreter's resource limits (recursion depth, integer digits) are
    not modelled. *)

(** The code points of the double quote and of the backslash. *)
Definition QUOTE : N := 34.
Definition REVERSE_SOLIDUS : N := 92.

Definition is_json_ws (c : N) : bool :=
  is_ch c " " || (c =? 9)%N || (c =? 10)%N || (c =? 13)%N.

(** [WHITESPACE.match(s, end).end()] *)
Fixpoint skip_ws (s : str) : str :=
  match s with
  | c :: s' => if is_json_ws c then skip_ws s' else s
  | [] => []
  end.

Definition is_digit (c : N) : bool := (48 <=? c)%N && (c <=? 57)%N.

Definition hex_digit (c : N) : option N :=
  if is_digit c then Some (c - 48)%N
  else if (97 <=? c)%N && (c <=? 102)%N then Some (c - 87)%N
  else if (65 <=? c)%N && (c <=? 70)%N then Some (c - 55)%N
  else None.

(** [_decode_uXXXX]: the value of four hexadecimal digits. *)
Definition decode_uXXXX (h1 h2 h3 h4 : N) : result N :=
  match hex_digit h1, hex_digit h2, hex_digit h3, hex_digit h4 with
  | Some a, Some b, Some c, Some d => Ok (((a * 16 + b) * 16 + c) * 16 + d)%N
  | _, _, _, _ => Raise JSONDecodeError
  end.

(** The table BACKSLASH of one-character escapes. *)
Definition BACKSLASH (esc : N) : option N :=
  if (esc =? QUOTE)%N then Some QUOTE
  else if (esc =? REVERSE_SOLIDUS)%N then Some REVERSE_SOLIDUS
  else if is_ch esc "/" then Some (ch "/")
  else if is_ch esc "b" then Some 8%N
  else if is_ch esc "f" then Some 12%N
  else if is_ch esc "n" then Some 10%N
  else if is_ch esc "r" then Some 13%N
  else if is_ch esc "t" then Some 9%N
  else None.

(** [scanstring(s, end)] in strict mode, entered after the opening
    quote: the decoded string and the input after the closing quote. *)
Fixpoint scanstring (s : str) : result (str * str) :=
  match s with
  | [] => Raise JSONDecodeError
  | c :: s1 =>
      if (c =? QUOTE)%N then Ok ([], s1)
      else if (c =? REVERSE_SOLIDUS)%N then
        match s1 with
        | [] => Raise JSONDecodeError
        | esc :: s2 =>
            if is_ch esc "u" then
              match s2 with
              | h1 :: h2 :: h3 :: h4 :: s3 =>
                  uni ← decode_uXXXX h1 h2 h3 h4;
                  let single := prod_map (cons uni) id <$> scanstring s3 in
                  if (55296 <=? uni)%N && (uni <=? 56319)%N then
                    match s3 with
                    | b :: u :: g1 :: g2 :: g3 :: g4 :: s4 =>
                        if (b =? REVERSE_SOLIDUS)%N && is_ch u "u" then
                          uni2 ← decode_uXXXX g1 g2 g3 g4;
                          if (56320 <=? uni2)%N && (uni2 <=? 57343)%N then
                            let joined :=
                              (65536 + N.lor (N.shiftl (uni - 55296) 10)
                                             (uni2 - 56320))%N in
                            prod_map (cons joined) id <$> scanstring s4
                          else single
                        else single
                    | _ => single
                    end
                  else single
              | _ => Raise JSONDecodeError
              end
            else
              match BACKSLASH esc with
              | Some c' => prod_map (cons c') id <$> scanstring s2
              | None => Raise JSONDecodeError
              end
        end
      else if (c <? 32)%N then Raise JSONDecodeError
      else prod_map (cons c) id <$> scanstring s1
  end.

(** The longest prefix of decimal digits, and the rest. *)
Fixpoint span_digits (s : str) : str * str :=
  match s with
  | c :: s' =>
      if is_digit c then prod_map (cons c) id (span_digits s') else ([], s)
  | [] => ([], [])
  end.

(** [int(digits)] for a string of decimal digits. *)
Definition int_of_digits (digits : str) : Z :=
  foldl (λ acc c, acc * 10 + Z.of_N (c - 48)%N)%Z 0%Z digits.

(** [int(integer)] for the integer part of a number: an optional minus
    sign and decimal digits. *)
Definition parse_int (integer : str) : Z :=
  match integer with
  | c :: digits => if is_ch c "-" then (- int_of_digits digits)%Z
                   else int_of_digits integer
  | [] => 0%Z
  end.

(** Group 1 of NUMBER_RE: an optional minus sign, then either a single
    0 or a digit from 1 to 9 followed by any number of digits. *)
Definition match_integer (s : str) : option (str * str) :=
  let '(sign, s1) :=
    match s with
    | c :: s' => if is_ch c "-" then ([c], s') else ([], s)
    | [] => ([], s)
    end in
  match s1 with
  | d :: s2 =>
      if is_ch d "0" then Some (sign ++ [d], s2)
      else if is_digit d then
        let '(ds, s3) := span_digits s2 in Some (sign ++ d :: ds, s3)
      else None
  | [] => None
  end.

(** Group 2 of NUMBER_RE, optional: a dot and at least one digit. *)
Definition match_frac (s : str) : str * str :=
  match s with
  | c :: s1 =>
      if is_ch c "." then
        match span_digits s1 with
        | ([], _) => ([], s)
        | (ds, s2) => (c :: ds, s2)
        end
      else ([], s)
  | [] => ([], s)
  end.

(** Group 3 of NUMBER_RE, optional: e or E, an optional sign, and at
    least one digit. *)
Definition match_exp (s : str) : str * str :=
  match s with
  | c :: s1 =>
      if is_ch c "e" || is_ch c "E" then
        let '(sign, s2) :=
          match s1 with
          | g :: s' => if is_ch g "-" || is_ch g "+" then ([g], s') else ([], s1)
          | [] => ([], s1)
          end in
        match span_digits s2 with
        | ([], _) => ([], s)
        | (ds, s3) => (c :: sign ++ ds, s3)
        end
      else ([], s)
  | [] => ([], s)
  end.

(** The number branch of [_scan_once]: [match_number] and the
    conversion of the match. *)
Definition match_number (s : str) : option (pyval * str) :=
  match match_integer s with
  | None => None
  | Some (integer, s1) =>
      let '(frac, s2) := match_frac s1 in
      let '(exp, s3) := match_exp s2 in
      match frac, exp with
      | [], [] => Some (PInt (parse_int integer), s3)
      | _, _ => Some (PFloat (integer ++ frac ++ exp), s3)
      end
  end.

Section decoder.
(** The [scan_once] argument of JSONObject and JSONArray. *)
Variable scan_once : str → result (pyval * str).

(** The [while True] loop of JSONArray, entered at the first character
    of a value. *)
Fixpoint array_loop (fuel : nat) (values : list pyval) (s : str)
    : result (pyval * str) :=
  match fuel with
  | 0 => Raise OutOfFuel
  | S fuel' =>
      '(value, s1) ← scan_once s;
      let values := values ++ [value] in
      match skip_ws s1 with
      | c :: s2 =>
          if is_ch c "]" then Ok (PList values, s2)
          else if is_ch c "," then array_loop fuel' values (skip_ws s2)
          else Raise JSONDecodeError
      | [] => Raise JSONDecodeError
      end
  end.

(** [JSONArray((s, end), scan_once)], entered after the bracket. *)
Definition JSONArray (s : str) : result (pyval * str) :=
  match skip_ws s with
  | c :: s1 =>
      if is_ch c "]" then Ok (PList [], s1)
      else array_loop (S (length s)) [] (skip_ws s)
  | [] => Raise JSONDecodeError
  end.

(** The [while True] loop of JSONObject, entered after the opening
    quote of a property name. *)
Fixpoint object_loop (fuel : nat) (pairs : list (str * pyval)) (s : str)
    : result (pyval * str) :=
  match fuel with
  | 0 => Raise OutOfFuel
  | S fuel' =>
      '(key, s1) ← scanstring s;
      match skip_ws s1 with
      | c :: s2 =>
          if is_ch c ":" then
            '(value, s3) ← scan_once (skip_ws s2);
            let pairs := pairs ++ [(key, value)] in
            match skip_ws s3 with
            | c' :: s4 =>
                if is_ch c' "}" then Ok (PDict (dict_of_pairs pairs), s4)
                else if is_ch c' "," then
                  match skip_ws s4 with
                  | q :: s5 =>
                      if (q =? QUOTE)%N then object_loop fuel' pairs s5
                      else Raise JSONDecodeError
                  | [] => Raise JSONDecodeError
                  end
                else Raise JSONDecodeError
            | [] => Raise JSONDecodeError
            end
          else Raise JSONDecodeError
      | [] => Raise JSONDecodeError
      end
  end.

(** [JSONObject((s, end), strict, scan_once, ...)], entered after the
    brace; the pairs become a dict ([dict(pairs)]). *)
Definition JSONObject (s : str) : result (pyval * str) :=
  match skip_ws s with
  | c :: s1 =>
      if is_ch c "}" then Ok (PDict [], s1)
      else if (c =? QUOTE)%N then object_loop (S (length s)) [] s1
      else Raise JSONDecodeError
  | [] => Raise JSONDecodeError
  end.
End decoder.

(** [_scan_once(string, idx)]; [depth] bounds the nesting of arrays and
    objects. *)
Fixpoint scan_once (depth : nat) (s : str) : result (pyval * str) :=
  match depth with
  | 0 => Raise OutOfFuel
  | S depth' =>
      match s with
      | [] => Raise JSONDecodeError
      | c :: s1 =>
          if (c =? QUOTE)%N then prod_map PStr id <$> scanstring s1
          else if is_ch c "{" then JSONObject (scan_once depth') s1
          else if is_ch c "[" then JSONArray (scan_once depth') s1
          else if startswith s (lit "null") then Ok (PNone, drop 4 s)
          else if startswith s (lit "true") then Ok (PBool true, drop 4 s)
          else if startswith s (lit "false") then Ok (PBool false, drop 5 s)
          else
            match match_number s with
            | Some r => Ok r
            | None =>
                if startswith s (lit "NaN") then Ok (PFloat (lit "NaN"), drop 3 s)
                else if startswith s (lit "Infinity")
                then Ok (PFloat (lit "Infinity"), drop 8 s)
                else if startswith s (lit "-Infinity")
                then Ok (PFloat (lit "-Infinity"), drop 9 s)
                else Raise JSONDecodeError
            end
      end
  end.

(** [json.loads(s)]: one value, surrounded by optional whitespace, and
    nothing else. *)
Definition json_loads (s : str) : result pyval :=
  '(obj, rest) ← scan_once (S (length s)) (skip_ws s);
  match skip_ws rest with
  | [] => Ok obj
  | _ :: _ => Raise JSONDecodeError
  end.

(** [f] consumes input on every text of at most [n] characters: a
    successful call returns a strictly shorter rest, and a failing call
    raises JSONDecodeError. *)
Definition consumes {A} (f : str → result (A * str)) (n : nat) : Prop :=
  ∀ s, length s ≤ n →
    (∀ v r, f s = Ok (v, r) → length r < length s) ∧
    (∀ e, f s = Raise e → e = JSONDecodeError).

(** ** methodology.parse_json_response *)

(** The text handed to the decoder: lines 37 and 38, the strip, the two
    replacements and the second strip. *)
Definition clean_response (text : str) : str :=
  let cleaned := str_strip text in
  str_strip (str_replace (str_replace cleaned (lit "```json") []) (lit "```") []).

Definition json_parse_failed (text : str) : pyval :=
  PDict (dict_of_pairs
    [(lit "error", PStr (lit "json_parse_failed")); (lit "raw", PStr text)]).

Definition parse_json_response (text : str) : result pyval :=
  let cleaned := clean_response text in
  match json_loads cleaned with
  | Raise JSONDecodeError =>
      (* Fallback: try to locate JSON object *)
      let start := str_find cleaned (lit "{") in
      let end_ := str_rfind cleaned (lit "}") in
      if negb (start =? -1)%Z && negb (end_ =? -1)%Z then
        json_loads (str_slice cleaned start (end_ + 1))
      else
        Ok (json_parse_failed text)
  | r => r
  end.

(** [jlit] writes a JSON text with apostrophes in place of the double
    quotes. *)
Definition jlit (s : string) : str :=
  (λ c, if is_ch c "'" then QUOTE else c) <$> lit s.

(** [sub in s]: [sub] occurs in [s] as a substring. *)
Definition occurs (sub s : str) : Prop := ∃ pre suf, s = pre ++ sub ++ suf.

(** ** db.py: the store *)

(** A table with an INTEGER PRIMARY KEY AUTOINCREMENT column: its rows,
    and its entry in sqlite_sequence (the largest rowid handed out). *)
Record table (R : Type) := Table { rows : list R; seq : Z }.
Arguments Table {R} rows seq.
Arguments rows {R} t.
Arguments seq {R} t.

Record run := Run {
  run_rowid : Z;
  run_created_at : str;
  run_provider : str;
  run_model : str;
  run_seed : Z;
  run_config_hash : str
}.

Record sentence := Sentence {
  sentence_rowid : Z;
  language : str;
  original_text : str;
  translation_human : str;
  translation_google : str
}.

Record translation := Translation {
  translation_rowid : Z;
  translation_run_id : Z;
  translation_sentence_id : Z;
  translation_gpt : str
}.

Record evaluation := Evaluation {
  evaluation_rowid : Z;
  evaluation_run_id : Z;
  evaluation_sentence_id : Z;
  evaluation_json : str;
  mapping_json : str
}.

(** The four tables of an initialised database. *)
Record connection := Connection {
  runs : table run;
  sentences : table sentence;
  translations : table translation;
  evaluations : table evaluation
}.

Definition empty_table {R} : table R := Table [] 0.

Definition empty_connection : connection :=
  Connection empty_table empty_table empty_table empty_table.

(** [connect] opens a database file that is either new (no tables) or
    holds the tables; [init_db] creates the tables that do not exist. *)
Definition init_db (database : option connection) : connection :=
  default empty_connection database.

(** The rowid AUTOINCREMENT gives to the next insertion: one more than
    the largest rowid ever used in the table. *)
Definition autoincrement {R} (rowid : R → Z) (t : table R) : Z :=
  (Z.max (seq t) (foldr Z.max 0 (rowid <$> rows t)) + 1)%Z.

(** The columns of the constraint UNIQUE(language, original_text). *)
Definition sentence_key (r : sentence) : str * str :=
  (language r, original_text r).

(** INSERT OR IGNORE INTO sentences: the row is dropped when its key is
    already present; the rowid is used up in either case. *)
Definition insert_or_ignore_sentence (t : table sentence)
    (language original human google : str) : table sentence :=
  let rowid := autoincrement sentence_rowid t in
  if decide ((language, original) ∈ sentence_key <$> rows t)
  then Table (rows t) rowid
  else Table (rows t ++ [Sentence rowid language original human google]) rowid.

(** SELECT id FROM sentences WHERE language = ? AND original_text = ? *)
Definition select_sentence_id (t : table sentence) (language original : str)
    : list Z :=
  sentence_rowid <$> filter (λ r, sentence_key r = (language, original)) (rows t).

(** [cur.fetchone()] *)
Definition fetchone {A} (l : list A) : option A := head l.

Definition insert_sentence (conn : connection)
    (language original human google : str) : result (Z * connection) :=
  let t := insert_or_ignore_sentence (sentences conn) language original human google in
  let conn := Connection (runs conn) t (translations conn) (evaluations conn) in
  match fetchone (select_sentence_id t language original) with
  | Some id => Ok (id, conn)
  | None => Raise TypeError (* row is None *)
  end.

Definition insert_run (conn : connection)
    (provider model : str) (seed : Z) (config_hash created_at : str)
    : Z * connection :=
  let t := runs conn in
  let rowid := autoincrement run_rowid t in
  let t := Table (rows t ++ [Run rowid created_at provider model seed config_hash]) rowid in
  (rowid, Connection t (sentences conn) (translations conn) (evaluations conn)).

Definition insert_translation (conn : connection)
    (run_id sentence_id : Z) (translation_gpt : str) : connection :=
  let t := translations conn in
  let rowid := autoincrement translation_rowid t in
  let t := Table (rows t ++ [Translation rowid run_id sentence_id translation_gpt]) rowid in
  Connection (runs conn) (sentences conn) t (evaluations conn).

Definition insert_evaluation (conn : connection)
    (run_id sentence_id : Z) (evaluation_json mapping_json : str) : connection :=
  let t := evaluations conn in
  let rowid := autoincrement evaluation_rowid t in
  let t := Table (rows t ++ [Evaluation rowid run_id sentence_id evaluation_json mapping_json]) rowid in
  Connection (runs conn) (sentences conn) (translations conn) t.

(** The constraint UNIQUE(language, original_text) of the sentences
    table, which the engine maintains. *)
Definition sentences_unique (conn : connection) : Prop :=
  NoDup (sentence_key <$> rows (sentences conn)).

(** The rows of the sentences table stored under a key. *)
Definition sentences_with (conn : connection) (language original : str)
    : list sentence :=
  filter (λ r, sentence_key r = (language, original)) (rows (sentences conn)).

(** ** scripts/generate_tables.py *)

(** A [for] loop over a list whose body may raise. *)
Fixpoint for_each {A S} (l : list A) (body : A → S → result S) (s : S) : result S :=
  match l with
  | [] => Ok s
  | a :: l' => s' ← body a s; for_each l' body s'
  end.

(** [v.get(k)]: only a dict has the method. *)
Definition py_get (v : pyval) (k : str) : result pyval :=
  match v with
  | PDict d => Ok (default PNone (dict_get d k))
  | _ => Raise AttributeError
  end.

(** [v.items()] *)
Definition py_items (v : pyval) : result (list (str * pyval)) :=
  match v with
  | PDict d => Ok d
  | _ => Raise AttributeError
  end.

(** [target in scores] for a dict with str keys: a list or a dict cannot
    be hashed, and no other value equals a str key. *)
Definition py_in_keys {V} (target : pyval) (d : dict V) : result bool :=
  match target with
  | PStr t => Ok (bool_decide (t ∈ dict_keys d))
  | PList _ | PDict _ => Raise TypeError
  | _ => Ok false
  end.

(** The body of the loop [for label, target in mapping.items()]. *)
Definition assign_score (score_map : dict pyval) (item : str * pyval)
    (scores : dict pyval) : result (dict pyval) :=
  let '(label, target) := item in
  found ← py_in_keys target scores;
  if found : bool then
    match target with
    | PStr target => Ok (dict_set scores target (default PNone (dict_get score_map label)))
    | _ => Ok scores
    end
  else Ok scores.

Definition parse_scores (evaluation_json mapping_json : str) : result (dict pyval) :=
  eval_data ← json_loads evaluation_json;
  mapping ← json_loads mapping_json;
  let scores := dict_of_pairs [(GPT, PNone); (Google, PNone); (Human, PNone)] in
  a ← py_get eval_data (lit "translation_A_score");
  b ← py_get eval_data (lit "translation_B_score");
  c ← py_get eval_data (lit "translation_C_score");
  let score_map := dict_of_pairs [(label_A, a); (label_B, b); (label_C, c)] in
  items ← py_items mapping;
  for_each items (assign_score score_map) scores.

(** The key under which the evaluation record holds the score of a label. *)
Definition score_key (label : str) : str :=
  lit "translation_" ++ label ++ lit "_score".

(** A provenance map as the JSON object it is stored as. *)
Definition py_of_mapping (mapping : dict str) : pyval :=
  PDict (prod_map id PStr <$> mapping).

(** The arithmetic of Python floats that the aggregation uses. *)
Class FloatOps (F : Type) := {
  float_of : pyval → result F;  (* float(v) *)
  fsum : list F → F;            (* sum(l), for a non-empty list of floats *)
  fdiv_len : F → nat → F;       (* x / len(l) *)
  fsub : F → F → F              (* x - y *)
}.

(** A row the query of [main] returns. *)
Record fetched := Fetched {
  fetched_run_id : Z;
  fetched_provider : str;
  fetched_model : str;
  fetched_language : str;
  fetched_evaluation_json : str;
  fetched_mapping_json : str
}.

Definition group_key : Type := Z * str * str * str.

Record table3_row (F : Type) := Table3Row {
  row_key : group_key;
  gpt_self_score : option F;
  google_score : option F;
  human_score : option F;
  bias_self_minus_human : option F
}.
Arguments Table3Row {F}.
Arguments row_key {F}.
Arguments gpt_self_score {F}.
Arguments google_score {F}.
Arguments human_score {F}.
Arguments bias_self_minus_human {F}.

Section aggregation.
Context {F : Type} `{FloatOps F}.

(** The value [defaultdict] creates for a new key. *)
Definition new_vals : dict (list F) :=
  dict_of_pairs [(GPT, []); (Google, []); (Human, [])].

(** [accum[key][k].append(x)] *)
Definition accum_append (accum : list (group_key * dict (list F)))
    (key : group_key) (k : str) (x : F)
    : result (list (group_key * dict (list F))) :=
  let '(accum, vals) :=
    match dict_get accum key with
    | Some vals => (accum, vals)
    | None => (dict_set accum key new_vals, new_vals)
    end in
  l ← dict_getitem vals k;
  Ok (dict_set accum key (dict_set vals k (l ++ [x]))).

(** The body of the loop [for k, v in scores.items()]. *)
Definition accumulate_score (key : group_key) (item : str * pyval)
    (accum : list (group_key * dict (list F)))
    : result (list (group_key * dict (list F))) :=
  let '(k, v) := item in
  match v with
  | PNone => Ok accum
  | _ => x ← float_of v; accum_append accum key k x
  end.

(** The first loop of [main]: one fetched row. *)
Definition accumulate_row (r : fetched) (accum : list (group_key * dict (list F)))
    : result (list (group_key * dict (list F))) :=
  scores ← parse_scores (fetched_evaluation_json r) (fetched_mapping_json r);
  let key := (fetched_run_id r, fetched_provider r, fetched_model r, fetched_language r) in
  for_each scores (accumulate_score key) accum.

(** [sum(l) / len(l) if l else None] *)
Definition mean (l : list F) : option F :=
  match l with
  | [] => None
  | _ :: _ => Some (fdiv_len (fsum l) (length l))
  end.

(** The second loop of [main]: the table row of one group. *)
Definition summary_row (key : group_key) (vals : dict (list F))
    : result (table3_row F) :=
  l_gpt ← dict_getitem vals GPT;
  let gpt := mean l_gpt in
  l_google ← dict_getitem vals Google;
  let google := mean l_google in
  l_human ← dict_getitem vals Human;
  let human := mean l_human in
  let bias :=
    match gpt, human with
    | Some gpt, Some human => Some (fsub gpt human)
    | _, _ => None
    end in
  Ok (Table3Row key gpt google human bias).

(** The rows of table3_scores.csv that [main] computes from the rows
    the query returns. *)
Definition table3 (rows : list fetched) : result (list (table3_row F)) :=
  accum ← for_each rows accumulate_row [];
  for_each accum (λ '(key, vals) rows,
    row ← summary_row key vals; Ok (rows ++ [row])) [].
End aggregation.

(** ** json.dumps *)

Definition hex_char (d : N) : N := if (d <? 10)%N then (48 + d)%N else (87 + d)%N.

(** [format(n, '04x')] for n < 0x10000 *)
Definition hex4 (n : N) : str :=
  [hex_char ((n / 4096) `mod` 16); hex_char ((n / 256) `mod` 16);
   hex_char ((n / 16) `mod` 16); hex_char (n `mod` 16)]%N.

(** The replacement of one character by [py_encode_basestring_ascii]. *)
Definition escape_ascii (c : N) : str :=
  if (c =? REVERSE_SOLIDUS)%N then [REVERSE_SOLIDUS; REVERSE_SOLIDUS]
  else if (c =? QUOTE)%N then [REVERSE_SOLIDUS; QUOTE]
  else if (c =? 8)%N then REVERSE_SOLIDUS :: lit "b"
  else if (c =? 12)%N then REVERSE_SOLIDUS :: lit "f"
  else if (c =? 10)%N then REVERSE_SOLIDUS :: lit "n"
  else if (c =? 13)%N then REVERSE_SOLIDUS :: lit "r"
  else if (c =? 9)%N then REVERSE_SOLIDUS :: lit "t"
  else if (32 <=? c)%N && (c <=? 126)%N then [c]
  else if (c <? 65536)%N then REVERSE_SOLIDUS :: ch "u" :: hex4 c
  else
    let n := (c - 65536)%N in
    let s1 := N.lor 55296 (N.land (N.shiftr n 10) 1023) in
    let s2 := N.lor 56320 (N.land n 1023) in
    REVERSE_SOLIDUS :: ch "u" :: hex4 s1 ++ REVERSE_SOLIDUS :: ch "u" :: hex4 s2.

Definition encode_basestring_ascii (s : str) : str :=
  QUOTE :: mjoin (escape_ascii <$> s) ++ [QUOTE].

(** [sep.join(l)] *)
Fixpoint str_join (sep : str) (l : list str) : str :=
  match l with
  | [] => []
  | [x] => x
  | x :: l' => x ++ sep ++ str_join sep l'
  end.

Section encoder.
(** The text [json.dumps] writes for the float [float(literal)]: its
    repr, or NaN, Infinity, -Infinity. *)
Variable float_repr : str → str.

(** [json.dumps(v)] with the default options. *)
Fixpoint json_dumps (v : pyval) : str :=
  match v with
  | PNone => lit "null"
  | PBool true => lit "true"
  | PBool false => lit "false"
  | PInt z => lit (pretty z)
  | PFloat literal => float_repr literal
  | PStr s => encode_basestring_ascii s
  | PList l =>
      lit "[" ++
      str_join (lit ", ")
        ((fix items (l : list pyval) : list str :=
            match l with
            | [] => []
            | x :: l' => json_dumps x :: items l'
            end) l) ++
      lit "]"
  | PDict d =>
      lit "{" ++
      str_join (lit ", ")
        ((fix items (d : list (str * pyval)) : list str :=
            match d with
            | [] => []
            | (k, x) :: d' =>
                (encode_basestring_ascii k ++ lit ": " ++ json_dumps x) :: items d'
            end) d) ++
      lit "}"
  end.
End encoder.

(** ** The collaborators of the pipeline *)

(** A row of a seed file, as [pd.read_csv] yields it. *)
Record seed_row := SeedRow {
  seed_language : str;
  seed_original_text : str;
  seed_translation_human : str;
  seed_translation_google : str
}.

(** What the pipeline reaches outside of its own code: the two model
    services (a call may fail, and changes the state [W] of the outer
    world), the clock, the seed files, and three functions of the
    standard library taken as they are. *)
Class Environment (W : Type) := {
  (* llm.openai_client.chat_complete(model, system_prompt, user_prompt) *)
  openai_chat : str → str → str → W → result (str * W);
  (* llm.gemini_client.chat_complete(model, system_prompt, user_prompt) *)
  gemini_chat : str → str → str → W → result (str * W);
  (* datetime.utcnow().isoformat() *)
  utcnow_isoformat : W → str * W;
  (* the rows of the file Path(seed_dir) / (lang + ".csv"), if it exists *)
  read_csv : str → str → option (list seed_row);
  (* s.capitalize() *)
  str_capitalize : str → str;
  (* the text json.dumps writes for float(literal) *)
  float_repr : str → str;
  (* hashlib.sha256(payload.encode('utf-8')).hexdigest() *)
  sha256_hexdigest : str → str
}.

(** ** methodology.py: model calls *)

(** The module constant FD_FRAMEWORK. *)
Definition FD_FRAMEWORK : str := lit "
Force Dynamics (Talmy, 2000) Framework:

CORE CONCEPTS:
- Agonist: The entity whose situation is being described (typically the subject)
- Antagonist: The opposing force entity (may be explicit or implicit)
- Force Relations: How Agonist and Antagonist interact

FORCE RELATION TYPES:
1. Causation: Antagonist causes Agonist to act/change state
2. Permission/Letting: Antagonist allows Agonist to act
3. Blocking/Prevention: Antagonist prevents Agonist from acting
4. Overcoming: Agonist overcomes opposing force
".

(** The user prompt of [blind_evaluate] (an f-string). *)
Definition evaluation_user_prompt
    (original_text translation_a translation_b translation_c : str) : str :=
  jlit "Evaluate three translations of the same English sentence, focusing EXCLUSIVELY on the verb phrase and its preservation of Force Dynamics relations.

"
  ++ FD_FRAMEWORK
  ++ jlit "

EVALUATION CRITERIA:

1. Lexis (verb phrase only):
   - Word choice appropriateness
   - Idiomaticity in target language
   - Register appropriateness

2. Syntax (verb phrase only):
   - Grammatical accuracy
   - Structural correctness
   - Word order appropriateness

3. Semantics (verb phrase only):
   - Meaning preservation
   - Force Dynamics relations:
     * Identify Agonist and Antagonist (if present)
     * Identify force relation type (causation, permission, blocking, etc.)
     * Assess preservation of FD structure from source

Original sentence (English): "
  ++ original_text
  ++ jlit "

Translation A: "
  ++ translation_a
  ++ jlit "
Translation B: "
  ++ translation_b
  ++ jlit "
Translation C: "
  ++ translation_c
  ++ jlit "

For each translation (A, B, C):
1. Describe the verb phrase in terms of lexis, syntax, semantics (including FD analysis)
2. Provide a numerical score (0.0 to 1.0) for verb phrase quality

Output format (JSON only, no other text):
{
  'translation_A_description': 'string',
  'translation_A_score': float,
  'translation_B_description': 'string',
  'translation_B_score': float,
  'translation_C_description': 'string',
  'translation_C_score': float,
  'comparison': 'string'
}
".

Section methodology.
Context {W : Type} `{Environment W}.

Definition _call_model (provider model system_prompt user_prompt : str) (w : W)
    : result (str * W) :=
  if decide (provider = lit "openai") then
    openai_chat model system_prompt user_prompt w
  else if decide (provider = lit "gemini") then
    gemini_chat model system_prompt user_prompt w
  else Raise ValueError.

Definition get_translation (provider model system_prompt user_prompt : str) (w : W)
    : result (str * W) :=
  _call_model provider model system_prompt user_prompt w.

Definition blind_evaluate
    (provider model system_prompt original_text
     translation_a translation_b translation_c : str) (w : W)
    : result (pyval * W) :=
  let user_prompt :=
    evaluation_user_prompt original_text translation_a translation_b translation_c in
  '(response, w) ← _call_model provider model system_prompt user_prompt w;
  evaluation ← parse_json_response response;
  Ok (evaluation, w).
End methodology.

(** ** config.py and pipeline.py *)

Record model_cfg := ModelCfg {
  cfg_provider : str; (* model_cfg["provider"] *)
  cfg_name : str      (* model_cfg["name"] *)
}.

(** The loaded configuration: the entries the pipeline reads, and the
    text [json.dumps(config, sort_keys=True)] of the whole of it. *)
Record config := Config {
  cfg_database : str;            (* config["database"] *)
  cfg_seed : option Z;           (* config.get("seed") *)
  cfg_languages : list str;      (* config["data"]["languages"] *)
  cfg_seed_dir : str;            (* config["data"]["seed_dir"] *)
  cfg_models : list model_cfg;   (* config["models"] *)
  cfg_translation_system : str;  (* config["prompts"]["translation_system"] *)
  cfg_evaluation_system : str;   (* config["prompts"]["evaluation_system"] *)
  cfg_json : str
}.

(** The order of ORDER BY id. *)
Definition by_id (r1 r2 : sentence) : Prop :=
  (sentence_rowid r1 ≤ sentence_rowid r2)%Z.

#[export] Instance by_id_dec : RelDecision by_id :=
  λ r1 r2, decide (sentence_rowid r1 ≤ sentence_rowid r2)%Z.

(** SELECT id, original_text, translation_human, translation_google
    FROM sentences WHERE language = ? ORDER BY id *)
Definition select_sentences (conn : connection) (language_ : str) : list sentence :=
  merge_sort by_id
    (filter (λ r, language r = language_) (rows (sentences conn))).

Section pipeline.
Context {W : Type} `{Environment W} {G : Type} `{RandomSource G}.

Definition config_hash (config : config) : str :=
  sha256_hexdigest (cfg_json config).

Definition load_seed_data (conn : connection) (seed_dir : str) (languages : list str)
    : result connection :=
  for_each languages (λ lang conn,
    match read_csv seed_dir lang with
    | None => Raise FileNotFoundError
    | Some df =>
        for_each df (λ row conn,
          '(_, conn) ← insert_sentence conn
                         (seed_language row) (seed_original_text row)
                         (seed_translation_human row) (seed_translation_google row);
          Ok conn) conn
    end) conn.

(** The body of the loop [for row in rows]. *)
Definition process_sentence
    (provider model translation_system evaluation_system : str)
    (run_id : Z) (lang : str) (row : sentence) (st : W * connection * G)
    : result (W * connection * G) :=
  let '(w, conn, rng) := st in
  let original := original_text row in
  let human := translation_human row in
  let google := translation_google row in
  let user_prompt :=
    lit "Translate the following sentence from English to " ++
    str_capitalize lang ++ lit ":

" ++ original in
  '(translation_gpt, w) ← get_translation provider model translation_system user_prompt w;
  '(labels, mapping, rng) ← prepare_blind_labels rng translation_gpt google human;
  translation_a ← dict_getitem labels label_A;
  translation_b ← dict_getitem labels label_B;
  translation_c ← dict_getitem labels label_C;
  '(evaluation, w) ← blind_evaluate provider model evaluation_system original
                        translation_a translation_b translation_c w;
  let conn := insert_translation conn run_id (sentence_rowid row) translation_gpt in
  let conn := insert_evaluation conn run_id (sentence_rowid row)
                (json_dumps float_repr evaluation)
                (json_dumps float_repr (py_of_mapping mapping)) in
  Ok (w, conn, rng).

(** The body of the loop [for lang in languages]. *)
Definition process_language
    (provider model translation_system evaluation_system : str)
    (run_id : Z) (lang : str) (st : W * connection * G)
    : result (W * connection * G) :=
  let rows := select_sentences st.1.2 (str_capitalize lang) in
  for_each rows
    (process_sentence provider model translation_system evaluation_system run_id lang)
    st.

(** The body of the loop [for model_cfg in config["models"]]. *)
Definition process_model (config : config) (seed : Z) (cfg_hash : str)
    (model_cfg : model_cfg) (st : W * connection) : result (W * connection) :=
  let '(w, conn) := st in
  let provider := cfg_provider model_cfg in
  let model := cfg_name model_cfg in
  let '(created_at, w) := utcnow_isoformat w in
  let '(run_id, conn) := insert_run conn provider model seed cfg_hash created_at in
  let rng : G := Random (seed + run_id) in
  '(w, conn, _) ←
    for_each (cfg_languages config)
      (process_language provider model
         (cfg_translation_system config) (cfg_evaluation_system config) run_id)
      (w, conn, rng);
  Ok (w, conn).

(** [run_pipeline(config)], on the database found at config["database"]
    ([None] for a new file) and in the outer world [w]. *)
Definition run_pipeline (config : config) (database : option connection) (w : W)
    : result (W * connection) :=
  let seed := default 42%Z (cfg_seed config) in
  let languages := cfg_languages config in
  let seed_dir := cfg_seed_dir config in
  let conn := init_db database in
  conn ← load_seed_data conn seed_dir languages;
  let cfg_hash := config_hash config in
  for_each (cfg_models config) (process_model config seed cfg_hash) (w, conn).
End pipeline.

(** The Translation and Evaluation rows of a run for a sentence. *)
Definition translations_of (conn : connection) (run_id sentence_id : Z)
    : list translation :=
  filter (λ t, translation_run_id t = run_id ∧ translation_sentence_id t = sentence_id)
    (rows (translations conn)).

Definition evaluations_of (conn : connection) (run_id sentence_id : Z)
    : list evaluation :=
  filter (λ e, evaluation_run_id e = run_id ∧ evaluation_sentence_id e = sentence_id)
    (rows (evaluations conn)).

(** ** A concrete environment, to run the model *)

Definition ascii_upper (c : N) : N :=
  if (97 <=? c)%N && (c <=? 122)%N then (c - 32)%N else c.
Definition ascii_lower (c : N) : N :=
  if (65 <=? c)%N && (c <=? 90)%N then (c + 32)%N else c.

(** [s.capitalize()] for an ASCII string. *)
Definition ascii_capitalize (s : str) : str :=
  match s with
  | [] => []
  | c :: s' => ascii_upper c :: (ascii_lower <$> s')
  end.

Definition stub_translation : str :=
  lit "Tallainen kaunis paiva teki hanet karsimattomaksi.".

Definition stub_evaluation : str :=
  jlit "```json
{'translation_A_description': 'a', 'translation_A_score': 0.9,
 'translation_B_description': 'b', 'translation_B_score': 0.8,
 'translation_C_description': 'c', 'translation_C_score': 0.7,
 'comparison': 'A is closest'}
```".

(** A model service that answers the calls of a run in turn, a
    translation and then a scoring; the state counts the calls. *)
Definition stub_chat (model system_prompt user_prompt : str) (w : nat)
    : result (str * nat) :=
  Ok (if Nat.even w then stub_translation else stub_evaluation, S w).

Definition stub_seed_row : seed_row :=
  SeedRow (lit "Finnish")
    (lit "A fine day like this made her impatient.")
    (lit "Tallainen upea paiva sai hanet karsimattomaksi.")
    (lit "Tallainen hieno paiva sai hanet karsimattomaksi.").

#[export] Instance stub_environment : Environment nat := {|
  openai_chat := stub_chat;
  gemini_chat := stub_chat;
  utcnow_isoformat w := (lit "2025-01-01T00:00:00", w);
  read_csv seed_dir lang :=
    if decide (ascii_capitalize lang = lit "Finnish") then Some [stub_seed_row] else None;
  str_capitalize := ascii_capitalize;
  float_repr := id;
  sha256_hexdigest := id
|}.

(** The same services over a seed file finnish.csv whose language
    column holds the name in lower case, as the file is named. *)
Definition lowercase_seed_row : seed_row :=
  SeedRow (lit "finnish")
    (lit "A fine day like this made her impatient.")
    (lit "Tallainen upea paiva sai hanet karsimattomaksi.")
    (lit "Tallainen hieno paiva sai hanet karsimattomaksi.").

Definition lowercase_environment : Environment nat := {|
  openai_chat := stub_chat;
  gemini_chat := stub_chat;
  utcnow_isoformat w := (lit "2025-01-01T00:00:00", w);
  read_csv seed_dir lang :=
    if decide (lang = lit "finnish") then Some [lowercase_seed_row] else None;
  str_capitalize := ascii_capitalize;
  float_repr := id;
  sha256_hexdigest := id
|}.

Definition stub_config (languages : list str) : config :=
  Config (lit "data/results.db") (Some 42%Z) languages (lit "data/seed")
    [ModelCfg (lit "openai") (lit "gpt-4o")]
    (lit "You are a translator.") (lit "You are an evaluator.") (lit "{}").

(** ** Vocabulary of the statements about a run *)

Definition translation_key (t : translation) : Z * Z :=
  (translation_run_id t, translation_sentence_id t).

Definition evaluation_key (e : evaluation) : Z * Z :=
  (evaluation_run_id e, evaluation_sentence_id e).

Section run_vocabulary.
Context {W : Type} `{Environment W} {G : Type} `{RandomSource G}.

(** The permutations of the category tags that [n] successive shuffles
    draw from a generator: the permutation sequence of a run. *)
Fixpoint permutation_sequence (n : nat) (rng : G) : result (list (list str) * G) :=
  match n with
  | 0 => Ok ([], rng)
  | S n' =>
      '(perm, rng) ← shuffle rng categories;
      '(perms, rng) ← permutation_sequence n' rng;
      Ok (perm :: perms, rng)
  end.

(** The stored text of the provenance map that gives the labels A, B,
    C the categories of [perm], in this order. *)
Definition mapping_text (perm : list str) : str :=
  json_dumps float_repr (py_of_mapping (zip blind_labels perm)).

(** [conn] is [conn0] with one Translation row and one Evaluation row
    appended for each key of [keys], in this order and nothing else; the
    Evaluation rows carry the provenance maps of [perms]. *)
Definition appended (conn0 conn : connection)
    (keys : list (Z * Z)) (perms : list (list str)) : Prop :=
  sentences conn = sentences conn0 ∧
  ∃ ts es,
    rows (translations conn) = rows (translations conn0) ++ ts ∧
    rows (evaluations conn) = rows (evaluations conn0) ++ es ∧
    translation_key <$> ts = keys ∧
    evaluation_key <$> es = keys ∧
    mapping_json <$> es = mapping_text <$> perms.

(** The keys of the rows that one run appends: for each configured
    language in turn, the sentences stored under its capitalized name,
    by id. *)
Definition run_keys (conn : connection) (languages : list str) (run_id : Z)
    : list (Z * Z) :=
  languages ≫= λ lang,
    (λ r, (run_id, sentence_rowid r)) <$> select_sentences conn (str_capitalize lang).
End run_vocabulary.


Section run_statements.
Context {W : Type} `{Environment W}.


End run_statements.

(** ** Concrete inputs of the examples *)

Definition example_evaluation_json : str :=
  jlit "{'translation_A_score': 0.9, 'translation_B_score': 0.8, 'translation_C_score': 0.7}".

Definition example_evaluation : dict pyval :=
  [(lit "translation_A_score", PFloat (lit "0.9"));
   (lit "translation_B_score", PFloat (lit "0.8"));
   (lit "translation_C_score", PFloat (lit "0.7"))].

Definition example_mapping_json : str :=
  jlit "{'A': 'Google', 'B': 'GPT', 'C': 'Human'}".

Definition example_mapping : dict str :=
  [(label_A, Google); (label_B, GPT); (label_C, Human)].

Definition example_sentence : sentence :=
  Sentence 1 (lit "Finnish")
    (lit "A fine day like this made her impatient.")
    (lit "Tallainen upea paiva sai hanet karsimattomaksi.")
    (lit "Tallainen hieno paiva sai hanet karsimattomaksi.").

Definition example_connection : connection :=
  Connection empty_table (Table [example_sentence] 1) empty_table empty_table.

Section aggregation_vocabulary.
Context {F : Type} `{FloatOps F}.

(** The group a fetched row belongs to. *)
Definition fetched_group (r : fetched) : group_key :=
  (fetched_run_id r, fetched_provider r, fetched_model r, fetched_language r).

(** The float a score contributes to its list: nothing for None. *)
Definition item_score (v : pyval) : option F :=
  match v with
  | PNone => None
  | _ => match float_of v with Ok x => Some x | Raise _ => None end
  end.

(** The score of a category in the evaluation of a fetched row. *)
Definition fetched_score (r : fetched) (category : str) : option F :=
  match parse_scores (fetched_evaluation_json r) (fetched_mapping_json r) with
  | Ok scores => dict_get scores category ≫= item_score
  | Raise _ => None
  end.

(** The scores of a category over the evaluations of a group, in the
    order of the rows. *)
Definition group_scores (rows : list fetched) (key : group_key) (category : str)
    : list F :=
  omap (λ r, fetched_score r category) (filter (λ r, fetched_group r = key) rows).

(** [accum] holds the lists [L]: each of its entries has the three
    category keys with the lists of its group, a group without entry has
    no score yet, and a group with an entry has at least one. *)
Definition holds (accum : list (group_key * dict (list F)))
    (L : group_key → str → list F) : Prop :=
  NoDup (dict_keys accum) ∧
  (∀ key vals, dict_get accum key = Some vals →
     dict_keys vals = categories ∧
     ∀ c, c ∈ categories → dict_get vals c = Some (L key c)) ∧
  (∀ key, dict_get accum key = None → ∀ c, c ∈ categories → L key c = []) ∧
  (∀ key, is_Some (dict_get accum key) → ∃ c, c ∈ categories ∧ L key c ≠ []).

End aggregation_vocabulary.

(** ** Exact arithmetic, to run the aggregation

    An instance of the float interface over the rationals: the scores
    are read as the decimal numbers they are written as, and summed and
    divided exactly. *)

(** The exact value of a decimal literal, if [literal] is one. *)
Definition decimal_value (literal : str) : option Q :=
  match match_integer literal with
  | None => None
  | Some (integer, s1) =>
      let '(frac, s2) := match_frac s1 in
      let '(exp, s3) := match_exp s2 in
      match s3 with
      | [] =>
          let mantissa := parse_int (integer ++ drop 1 frac) in
          let exponent :=
            match drop 1 exp with
            | c :: ds => if is_ch c "+" then int_of_digits ds else parse_int (c :: ds)
            | [] => 0%Z
            end in
          let scale := (exponent - Z.of_nat (length (drop 1 frac)))%Z in
          Some (Qred (if (0 <=? scale)%Z then inject_Z (mantissa * 10 ^ scale)
                      else Qmake mantissa (Z.to_pos (10 ^ (- scale)))))
      | _ :: _ => None
      end
  end.

#[export] Instance exact_arithmetic : FloatOps Q := {|
  float_of v :=
    match v with
    | PInt z => Ok (inject_Z z)
    | PBool b => Ok (inject_Z (if b then 1 else 0))
    | PFloat literal | PStr literal =>
        match decimal_value literal with
        | Some q => Ok q
        | None => Raise ValueError
        end
    | _ => Raise TypeError
    end;
  fsum l := Qred (foldl Qplus 0%Q l);
  fdiv_len x n := Qred (x / inject_Z (Z.of_nat n));
  fsub x y := Qred (x - y)
|}.


Definition example_fetched : list fetched :=
  [Fetched 1 (lit "openai") (lit "gpt-4o") (lit "Finnish")
     example_evaluation_json example_mapping_json;
   Fetched 1 (lit "openai") (lit "gpt-4o") (lit "Finnish")
     (jlit "{'translation_A_score': 0.5, 'translation_B_score': 1, 'translation_C_score': 0.25}")
     (jlit "{'A': 'Human', 'B': 'Google', 'C': 'GPT'}");
   Fetched 1 (lit "openai") (lit "gpt-4o") (lit "Polish")
     (jlit "{'error': 'json_parse_failed', 'raw': 'no scores'}")
     (jlit "{'A': 'Human', 'B': 'Google', 'C': 'GPT'}");
   Fetched 1 (lit "openai") (lit "gpt-4o") (lit "Croatian")
     (jlit "{'translation_A_score': 0.5, 'translation_B_score': null, 'translation_C_score': null}")
     (jlit "{'A': 'GPT', 'B': 'Google', 'C': 'Human'}")].

(** ** db.py: the constraints the schema declares *)

(** The PRIMARY KEY constraints: no two rows of a table share an id. *)
Record primary_keys (conn : connection) : Prop := PrimaryKeys {
  pk_runs : NoDup (run_rowid <$> rows (runs conn));
  pk_sentences : NoDup (sentence_rowid <$> rows (sentences conn));
  pk_translations : NoDup (translation_rowid <$> rows (translations conn));
  pk_evaluations : NoDup (evaluation_rowid <$> rows (evaluations conn))
}.

(** The FOREIGN KEY clauses of the translations and evaluations tables:
    every row refers to a stored run and to a stored sentence. The engine
    does not check them on a connection opened as [connect] does (the
    foreign_keys pragma is off by default). *)
Record foreign_keys (conn : connection) : Prop := ForeignKeys {
  fk_translations :
    ∀ t, t ∈ rows (translations conn) →
      translation_run_id t ∈ run_rowid <$> rows (runs conn) ∧
      translation_sentence_id t ∈ sentence_rowid <$> rows (sentences conn);
  fk_evaluations :
    ∀ e, e ∈ rows (evaluations conn) →
      evaluation_run_id e ∈ run_rowid <$> rows (runs conn) ∧
      evaluation_sentence_id e ∈ sentence_rowid <$> rows (sentences conn)
}.

(** SELECT * FROM runs WHERE id = ? *)
Definition runs_with (conn : connection) (id : Z) : list run :=
  filter (λ r, run_rowid r = id) (rows (runs conn)).

(** ** pipeline.load_seed_data: the seed rows *)

Section seed_vocabulary.
Context {W : Type} `{Environment W}.

(** The rows of the seed files of the configured languages, in the order
    in which [load_seed_data] reads them (the files that exist). *)
Definition seed_rows (seed_dir : str) (languages : list str) : list seed_row :=
  languages ≫= λ lang, default [] (read_csv seed_dir lang).
End seed_vocabulary.

(** The key under which a seed row is stored. *)
Definition seed_key (row : seed_row) : str * str :=
  (seed_language row, seed_original_text row).

(** The sentence a seed row becomes under the id [id]. *)
Definition sentence_of_seed (id : Z) (row : seed_row) : sentence :=
  Sentence id (seed_language row) (seed_original_text row)
    (seed_translation_human row) (seed_translation_google row).

(** ** generate_tables.parse_scores: what a call returns *)

(** A value that can be looked up in a dict ([x in d]): a list or a dict
    cannot be hashed. *)
Definition hashable (v : pyval) : bool :=
  match v with
  | PList _ | PDict _ => false
  | _ => true
  end.

(** [score_map.get(label)]: the score the record holds for one of the
    labels A, B, C, None for any other label. *)
Definition label_score (eval_data : dict pyval) (label : str) : pyval :=
  if decide (label ∈ blind_labels)
  then default PNone (dict_get eval_data (score_key label))
  else PNone.

(** The item of a provenance map assigns its label to [category]. *)
Definition maps_to (category : str) (item : str * pyval) : bool :=
  match item.2 with
  | PStr target => bool_decide (target = category)
  | _ => false
  end.

(** The score reported for a category: that of the label of the last
    item of the map, in its order, that is assigned to the category; None
    when no item is. *)
Definition category_score (eval_data : dict pyval) (mapping : list (str * pyval))
    (category : str) : pyval :=
  match last (filter (λ item, maps_to category item) mapping) with
  | Some item => label_score eval_data item.1
  | None => PNone
  end.

(** ** generate_tables.main: the table as a function of the fetched rows *)

Section table_vocabulary.
Context {F : Type} `{FloatOps F}.

(** The evaluation of a fetched row has a score for some category. *)
Definition has_score (r : fetched) : bool :=
  bool_decide (Exists (λ c, is_Some (fetched_score (F:=F) r c)) categories).

(** The groups that have a score, in the order of their first row with
    a score. *)
Definition scoring_groups (rows : list fetched) : list group_key :=
  foldl (λ seen r,
           if has_score r && bool_decide (fetched_group r ∉ seen)
           then seen ++ [fetched_group r] else seen) [] rows.

(** The row of the table for a group. *)
Definition group_row (rows : list fetched) (key : group_key) : table3_row F :=
  let gpt := mean (group_scores rows key GPT) in
  let google := mean (group_scores rows key Google) in
  let human := mean (group_scores rows key Human) in
  Table3Row key gpt google human
    match gpt, human with
    | Some gpt, Some human => Some (fsub gpt human)
    | _, _ => None
    end.

(** The scores of a fetched row can be read: the stored texts parse,
    and every score that is not None converts to a float. *)
Definition readable (r : fetched) : Prop :=
  ∃ scores,
    parse_scores (fetched_evaluation_json r) (fetched_mapping_json r) = Ok scores ∧
    Forall (λ item, item.2 = PNone ∨ ∃ x : F, float_of item.2 = Ok x) scores.
End table_vocabulary.

(** ** What json.dumps and json.loads carry over *)

Definition is_high_surrogate (c : N) : bool := (55296 <=? c)%N && (c <=? 56319)%N.
Definition is_low_surrogate (c : N) : bool := (56320 <=? c)%N && (c <=? 57343)%N.

(** A str that the round trip leaves as it is: its characters are code
    points (below 0x110000), and no high surrogate is directly followed by
    a low surrogate (the decoder reads the two escapes that json.dumps
    writes for them as one character). *)
Fixpoint str_storable (s : str) : bool :=
  match s with
  | [] => true
  | c :: s' =>
      (c <? 1114112)%N &&
      negb (is_high_surrogate c && from_option is_low_surrogate false (head s')) &&
      str_storable s'
  end.

(** A text that the decoder reads as a float: a number with a fraction
    or an exponent, or one of NaN, Infinity, -Infinity. *)
Definition float_token (t : str) : bool :=
  match match_number t with
  | Some (PFloat _, []) => true
  | Some _ => false
  | None => bool_decide (t ∈ [lit "NaN"; lit "Infinity"; lit "-Infinity"])
  end.

(** The rest of the input cannot continue a number: it is empty, or
    starts with a character other than a digit, a dot, an exponent mark
    and a sign. *)
Definition ends_number (rest : str) : bool :=
  match rest with
  | [] => true
  | c :: _ =>
      negb (is_digit c || is_ch c "." || is_ch c "e" || is_ch c "E"
            || is_ch c "+" || is_ch c "-")
  end.

Section round_trip.
Variable float_repr : str → str.

(** A value that json.dumps writes and json.loads reads back: its
    strings and keys are storable, its dicts have one entry per key, and
    its floats are written as float texts. *)
Fixpoint storable (v : pyval) : bool :=
  match v with
  | PNone | PBool _ | PInt _ => true
  | PFloat literal => float_token (float_repr literal)
  | PStr s => str_storable s
  | PList l =>
      (fix all (l : list pyval) : bool :=
         match l with
         | [] => true
         | x :: l' => storable x && all l'
         end) l
  | PDict d =>
      bool_decide (NoDup d.*1) &&
      (fix all (d : list (str * pyval)) : bool :=
         match d with
         | [] => true
         | (k, x) :: d' => str_storable k && storable x && all d'
         end) d
  end.

(** The value read back: a float is the float of its text. *)
Fixpoint stored (v : pyval) : pyval :=
  match v with
  | PFloat literal => PFloat (float_repr literal)
  | PList l =>
      PList ((fix items (l : list pyval) : list pyval :=
                match l with
                | [] => []
                | x :: l' => stored x :: items l'
                end) l)
  | PDict d =>
      PDict ((fix items (d : list (str * pyval)) : list (str * pyval) :=
                match d with
                | [] => []
                | (k, x) :: d' => (k, stored x) :: items d'
                end) d)
  | _ => v
  end.
End round_trip.

(** ** What json.loads returns can be stored *)

(** A Unicode scalar value: a code point that is not a surrogate. *)
Definition is_scalar_value (c : N) : bool :=
  (c <? 55296)%N || ((57343 <? c)%N && (c <? 1114112)%N).

(** A text of Unicode scalar values, as decoding UTF-8 gives. *)
Definition unicode_text (s : str) : bool := forallb is_scalar_value s.

Section decoded.
Variable float_repr : str → str.

(** A scanner reads storable values from texts of scalar values, and
    leaves such a text. *)
Definition reads_storable (f : str → result (pyval * str)) : Prop :=
  ∀ s v r, unicode_text s = true → f s = Ok (v, r) →
    storable float_repr v = true ∧ unicode_text r = true.
End decoded.

Section translation_prompt.
Context {W : Type} `{Environment W}.

(** The user prompt of the translation call (an f-string). *)
Definition translation_user_prompt (lang original : str) : str :=
  lit "Translate the following sentence from English to " ++
  str_capitalize lang ++ lit ":

" ++ original.
End translation_prompt.

(** ** Further concrete inputs *)

(** A model entry whose provider the pipeline does not know. *)
Definition unknown_model : model_cfg := ModelCfg (lit "mistral") (lit "mistral-large").

(** A fetched row whose evaluation is the record of a reply that could
    not be parsed. *)
Definition failed_fetched : fetched :=
  Fetched 1 (lit "openai") (lit "gpt-4o") (lit "Finnish")
    (jlit "{'error': 'json_parse_failed', 'raw': 'no scores'}")
    (jlit "{'A': 'Human', 'B': 'Google', 'C': 'GPT'}").

(* ===================================================================== *)
(** * Part II: theorems                                                   *)
(* ===================================================================== *)

(** ** General facts *)

(** Under a uniqueness constraint on [f], two stored rows with the same
    value of [f] are the same row. *)
Lemma NoDup_fmap_elem_inj {A B} (f : A → B) (l : list A) x y :
  NoDup (f <$> l) → x ∈ l → y ∈ l → f x = f y → x = y.
Proof.
  induction l as [|a l IH]; [by intros _ ?%elem_of_nil|].
  rewrite fmap_cons, NoDup_cons. intros [Hnotin Hnd] Hx Hy Hxy.
  apply elem_of_cons in Hx as [->|Hx]; apply elem_of_cons in Hy as [->|Hy].
  - done.
  - exfalso. apply Hnotin. rewrite Hxy. by apply list_elem_of_fmap_2.
  - exfalso. apply Hnotin. rewrite <- Hxy. by apply list_elem_of_fmap_2.
  - by apply IH.
Qed.

(** ** Dicts *)

Section dict_facts.
Context {K V : Type} `{EqDecision K}.
Implicit Types (d : list (K * V)) (k : K) (v : V).

Lemma dict_get_set_eq d k v : dict_get (dict_set d k v) k = Some v.
Proof.
  induction d as [|[k' v'] d IH]; simpl.
  - by rewrite decide_True.
  - destruct (decide (k' = k)) as [->|Hne]; simpl.
    + by rewrite decide_True.
    + by rewrite decide_False.
Qed.

Lemma dict_get_set_ne d k k' v : k ≠ k' → dict_get (dict_set d k v) k' = dict_get d k'.
Proof.
  intros Hne. induction d as [|[k0 v0] d IH]; simpl.
  - by rewrite decide_False.
  - destruct (decide (k0 = k)) as [->|Hne0]; simpl.
    + by rewrite !decide_False.
    + by rewrite IH.
Qed.

Lemma dict_keys_set_elem d k v : k ∈ dict_keys d → dict_keys (dict_set d k v) = dict_keys d.
Proof.
  unfold dict_keys. induction d as [|[k0 v0] d IH]; simpl.
  - by intros ?%elem_of_nil.
  - intros Hin. destruct (decide (k0 = k)) as [->|Hne]; simpl; [done|].
    f_equal. apply IH. by apply elem_of_cons in Hin as [->|Hin].
Qed.

Lemma dict_get_Some_elem d k v : dict_get d k = Some v → (k, v) ∈ d.
Proof.
  induction d as [|[k0 v0] d IH]; simpl; [done|].
  destruct (decide (k0 = k)) as [->|Hne].
  - intros [= ->]. left.
  - intros Hg. right. by apply IH.
Qed.

(** In a dict (one entry per key) every entry is found under its key. *)
Lemma dict_get_elem d k v : NoDup (dict_keys d) → (k, v) ∈ d → dict_get d k = Some v.
Proof.
  unfold dict_keys. induction d as [|[k0 v0] d IH]; simpl.
  - by intros _ ?%elem_of_nil.
  - rewrite NoDup_cons. intros [Hnotin Hnd] [[= -> ->]|Hin]%elem_of_cons.
    + by rewrite decide_True.
    + rewrite decide_False; [by apply IH|].
      intros ->. apply Hnotin. by apply (list_elem_of_fmap_2 fst) in Hin.
Qed.
End dict_facts.

Section dict_more_facts.
Context {K V : Type} `{EqDecision K}.
Implicit Types (d : list (K * V)) (k : K) (v : V).

Lemma dict_get_None d k : dict_get d k = None ↔ k ∉ dict_keys d.
Proof.
  unfold dict_keys. induction d as [|[k' v'] d IH]; simpl.
  - split; [intros _; apply not_elem_of_nil | done].
  - rewrite not_elem_of_cons. destruct (decide (k' = k)) as [->|Hne].
    + split; [done | by intros [? _]].
    + rewrite IH. split; [by intros ? | by intros [_ ?]].
Qed.

Lemma dict_get_is_Some d k : is_Some (dict_get d k) ↔ k ∈ dict_keys d.
Proof.
  rewrite <- not_eq_None_Some, dict_get_None.
  split; [apply dec_stable | by intros ??].
Qed.

Lemma dict_keys_set_new d k v : k ∉ dict_keys d → dict_keys (dict_set d k v) = dict_keys d ++ [k].
Proof.
  unfold dict_keys. induction d as [|[k' v'] d IH]; [done|].
  rewrite fmap_cons, not_elem_of_cons. intros [Hne Hnotin]. cbn [dict_set].
  rewrite decide_False by done. rewrite !fmap_cons. cbn [fst]. rewrite IH by done. done.
Qed.

Lemma dict_set_NoDup d k v : NoDup (dict_keys d) → NoDup (dict_keys (dict_set d k v)).
Proof.
  intros Hnd. destruct (decide (k ∈ dict_keys d)) as [Hin|Hnotin].
  - by rewrite dict_keys_set_elem.
  - rewrite dict_keys_set_new by done. apply NoDup_app.
    split; [done|]. split; [|apply NoDup_singleton].
    by intros x Hx ->%list_elem_of_singleton.
Qed.
End dict_more_facts.

(** ** The standard-library model: shuffle *)

Lemma bind_Ok {A B} (r : result A) (k : A → result B) (b : B) :
  r ≫= k = Ok b ↔ ∃ a, r = Ok a ∧ k a = Ok b.
Proof.
  destruct r as [a|e]; simpl.
  - split; [eauto | by intros (? & [= ->] & ?)].
  - split; [done | by intros (? & ? & ?)].
Qed.

Lemma getitem_Ok {A} (x : list A) i a : getitem x i = Ok a ↔ x !! i = Some a.
Proof. unfold getitem. destruct (x !! i); naive_solver. Qed.

Lemma getitem_lt {A} (x : list A) i : i < length x → ∃ a, getitem x i = Ok a.
Proof.
  intros [a Ha]%lookup_lt_is_Some_2. exists a. by apply getitem_Ok.
Qed.

(** Exchanging two positions rearranges the list and nothing else. *)
Lemma swap_Permutation {A} (x : list A) i j :
  i < length x → j < length x → ∃ x', swap x i j = Ok x' ∧ x' ≡ₚ x.
Proof.
  intros Hi Hj. unfold swap.
  destruct (lookup_lt_is_Some_2 x i Hi) as [xi Hxi].
  destruct (lookup_lt_is_Some_2 x j Hj) as [xj Hxj].
  rewrite (proj2 (getitem_Ok x j xj) Hxj), (proj2 (getitem_Ok x i xi) Hxi). simpl.
  eexists; split; [done|].
  apply Permutation_inj. split; [by rewrite !length_insert|].
  exists (λ k, if decide (k = i) then j else if decide (k = j) then i else k).
  split.
  - intros a b. repeat case_decide; naive_solver.
  - intros k. destruct (decide (k = j)) as [->|Hkj].
    + rewrite list_lookup_insert_eq by (by rewrite length_insert).
      destruct (decide (j = i)) as [->|?]; [done|].
      done.
    + rewrite list_lookup_insert_ne by done.
      destruct (decide (k = i)) as [->|Hki].
      * by rewrite list_lookup_insert_eq.
      * rewrite list_lookup_insert_ne by done. done.
Qed.

Section shuffle_facts.
Context {G : Type} `{RandomSource G}.

(** The shuffle loop never indexes out of range, and returns a
    rearrangement of its argument. *)
Lemma shuffle_loop_Permutation {A} i (rng : G) (x : list A) :
  i < length x ∨ i = 0 →
  ∃ x' rng', shuffle_loop i rng x = Ok (x', rng') ∧ x' ≡ₚ x.
Proof.
  revert rng x. induction i as [|i IH]; intros rng x Hi.
  { by exists x, rng. }
  destruct Hi as [Hi|?]; [|done]. cbn [shuffle_loop].
  pose proof (randbelow_lt rng (S i + 1) ltac:(lia)) as Hj.
  destruct (randbelow rng (S i + 1)) as [j rng1]. simpl in Hj.
  destruct (swap_Permutation x (S i) j) as (x1 & -> & Hx1); [lia..|]. simpl.
  destruct (IH rng1 x1) as (x' & rng' & -> & Hx').
  { left. rewrite Hx1. lia. }
  exists x', rng'. split; [done|]. by rewrite Hx'.
Qed.

Lemma shuffle_Permutation {A} (rng : G) (x : list A) :
  ∃ x' rng', shuffle rng x = Ok (x', rng') ∧ x' ≡ₚ x.
Proof.
  apply shuffle_loop_Permutation. destruct x; simpl; [by right | left; lia].
Qed.

(** The positions a shuffle exchanges do not depend on the elements:
    shuffling commutes with mapping a function over the list. *)
Lemma swap_fmap {A B} (f : A → B) (x : list A) i j :
  swap (f <$> x) i j = fmap (M:=list) f <$> swap x i j.
Proof.
  unfold swap, getitem. rewrite !list_lookup_fmap.
  destruct (x !! j); simpl; [|done]. destruct (x !! i); simpl; [|done].
  by rewrite !list_fmap_insert.
Qed.

Lemma shuffle_loop_fmap {A B} (f : A → B) i (rng : G) (x : list A) :
  shuffle_loop i rng (f <$> x) = prod_map (fmap (M:=list) f) id <$> shuffle_loop i rng x.
Proof.
  revert rng x. induction i as [|i IH]; intros rng x; [done|].
  cbn [shuffle_loop]. destruct (randbelow rng (S i + 1)) as [j rng1].
  rewrite swap_fmap. destruct (swap x (S i) j) as [x1|e]; simpl; [|done].
  apply IH.
Qed.

Lemma shuffle_fmap {A B} (f : A → B) (rng : G) (x : list A) :
  shuffle rng (f <$> x) = prod_map (fmap (M:=list) f) id <$> shuffle rng x.
Proof. unfold shuffle. rewrite length_fmap. apply shuffle_loop_fmap. Qed.
End shuffle_facts.

(** ** methodology.prepare_blind_labels *)

Lemma blind_labels_NoDup : NoDup blind_labels.
Proof. apply (bool_decide_unpack _). by vm_compute. Qed.

Lemma categories_NoDup : NoDup categories.
Proof. apply (bool_decide_unpack _). by vm_compute. Qed.

(** A bijection in the sense of [is_bijection] is one as a function:
    every label has a category, every category has a label, and no two
    labels share a category. *)
Lemma is_bijection_function (mapping : dict str) :
  is_bijection mapping →
  (∀ label, label ∈ blind_labels →
     ∃ category, category ∈ categories ∧ dict_get mapping label = Some category) ∧
  (∀ category, category ∈ categories →
     ∃ label, label ∈ blind_labels ∧ dict_get mapping label = Some category) ∧
  (∀ label1 label2 category,
     dict_get mapping label1 = Some category →
     dict_get mapping label2 = Some category → label1 = label2).
Proof.
  intros [Hkeys Hvalues].
  assert (NoDup (dict_keys mapping)) as Hnk by (rewrite Hkeys; apply blind_labels_NoDup).
  assert (NoDup (dict_values mapping)) as Hnv by (rewrite Hvalues; apply categories_NoDup).
  split; [|split].
  - intros label Hl. rewrite <- Hkeys in Hl.
    apply list_elem_of_fmap in Hl as ([l c] & -> & Hin). exists c. split.
    + rewrite <- Hvalues. by apply (list_elem_of_fmap_2 snd) in Hin.
    + by apply dict_get_elem.
  - intros category Hc. rewrite <- Hvalues in Hc.
    apply list_elem_of_fmap in Hc as ([l c] & -> & Hin). exists l. split.
    + rewrite <- Hkeys. by apply (list_elem_of_fmap_2 fst) in Hin.
    + by apply dict_get_elem.
  - intros label1 label2 category H1%dict_get_Some_elem H2%dict_get_Some_elem.
    assert ((label1, category) = (label2, category)) as Heq; [|by injection Heq].
    by apply (NoDup_fmap_elem_inj snd mapping _ _ Hnv).
Qed.

Section prepare_blind_labels_facts.
Context {G : Type} `{RandomSource G}.

(** The call always returns: the three entries are a rearrangement of
    the three (category, text) pairs, handed out to A, B, C in order. *)
Lemma prepare_blind_labels_entries (rng : G) gpt google human :
  ∃ e0 e1 e2 rng',
    [e0; e1; e2] ≡ₚ [(GPT, gpt); (Google, google); (Human, human)] ∧
    shuffle rng [(GPT, gpt); (Google, google); (Human, human)]
      = Ok ([e0; e1; e2], rng') ∧
    prepare_blind_labels rng gpt google human =
      Ok ([(label_A, e0.2); (label_B, e1.2); (label_C, e2.2)],
          [(label_A, e0.1); (label_B, e1.1); (label_C, e2.1)], rng').
Proof.
  destruct (shuffle_Permutation rng [(GPT, gpt); (Google, google); (Human, human)])
    as (entries & rng' & Hs & Hp).
  pose proof (Permutation_length Hp) as Hlen.
  destruct entries as [|e0 [|e1 [|e2 [|]]]]; try done.
  exists e0, e1, e2, rng'. split; [done|]. split; [done|].
  unfold prepare_blind_labels. rewrite Hs. reflexivity.
Qed.

(** The provenance map is the shuffle of the three category tags: it is
    fixed by the generator state alone, whatever the texts are. *)
Lemma prepare_blind_labels_mapping (rng : G) gpt google human labels mapping rng' :
  prepare_blind_labels rng gpt google human = Ok (labels, mapping, rng') →
  shuffle rng categories = Ok (dict_values mapping, rng') ∧
  dict_keys mapping = blind_labels.
Proof.
  destruct (prepare_blind_labels_entries rng gpt google human)
    as (e0 & e1 & e2 & rng1 & _ & Hs & ->).
  intros [= <- <- <-]. split; [|done].
  change categories with (fst <$> [(GPT, gpt); (Google, google); (Human, human)]).
  by rewrite shuffle_fmap, Hs.
Qed.
End prepare_blind_labels_facts.

(** C1: for every randomness source and every three input texts,
    prepare_blind_labels returns, and the provenance map it returns is a
    bijection between the labels A, B, C and the categories GPT, Google,
    Human: the keys are exactly A, B, C (each once) and the values are
    GPT, Google, Human, each exactly once. *)
Theorem prepare_blind_labels_bijection {G} `{RandomSource G}
    (rng : G) (gpt google human : str) :
  ∃ labels mapping rng',
    prepare_blind_labels rng gpt google human = Ok (labels, mapping, rng') ∧
    dict_keys mapping = blind_labels ∧
    dict_values mapping ≡ₚ categories ∧
    is_bijection mapping.
Proof.
  destruct (prepare_blind_labels_entries rng gpt google human)
    as (e0 & e1 & e2 & rng' & Hp & _ & ->).
  do 3 eexists. split; [done|].
  assert (dict_values [(label_A, e0.1); (label_B, e1.1); (label_C, e2.1)]
            ≡ₚ categories) as Hv.
  { change ((fst <$> [e0; e1; e2]) ≡ₚ categories). by rewrite Hp. }
  split; [done|]. split; [done|]. by split.
Qed.

(** C6: the result is well-formed whether or not the input texts
    coincide (no assumption on gpt, google, human): the labels A, B, C are
    three distinct keys of the label map, the provenance map is a
    bijection onto the three categories, and the text under each label is
    the text passed in the argument slot of the category that the
    provenance map gives for that label. *)
Theorem prepare_blind_labels_equal_texts {G} `{RandomSource G}
    (rng : G) (gpt google human : str) :
  ∃ labels mapping rng',
    prepare_blind_labels rng gpt google human = Ok (labels, mapping, rng') ∧
    dict_keys labels = blind_labels ∧ NoDup (dict_keys labels) ∧
    is_bijection mapping ∧
    ∀ label, label ∈ blind_labels →
      ∃ category, category ∈ categories ∧
        dict_get mapping label = Some category ∧
        dict_get labels label = Some (text_of gpt google human category).
Proof.
  destruct (prepare_blind_labels_entries rng gpt google human)
    as (e0 & e1 & e2 & rng' & Hp & _ & ->).
  do 3 eexists. split; [done|].
  split; [done|]. split; [apply blind_labels_NoDup|].
  assert (Forall (λ e, e.1 ∈ categories ∧ e.2 = text_of gpt google human e.1)
            [e0; e1; e2]) as He.
  { rewrite Hp. repeat constructor. }
  apply Forall_cons in He as [[Hc0 Ht0] He].
  apply Forall_cons in He as [[Hc1 Ht1] He].
  apply Forall_cons in He as [[Hc2 Ht2] _].
  split.
  { split; [done|]. change ((fst <$> [e0; e1; e2]) ≡ₚ categories). by rewrite Hp. }
  intros label Hl. unfold blind_labels in Hl.
  apply elem_of_cons in Hl as [->|Hl];
    [exists e0.1; rewrite <- Ht0; by repeat split|].
  apply elem_of_cons in Hl as [->|Hl];
    [exists e1.1; rewrite <- Ht1; by repeat split|].
  apply elem_of_cons in Hl as [->|Hl];
    [exists e2.1; rewrite <- Ht2; by repeat split|].
  by apply elem_of_nil in Hl.
Qed.

(** ** methodology.parse_json_response *)

Example parse_json_response_fenced_example :
  parse_json_response
    (jlit "```json
{'translation_A_score': 0.9, 'comparison': 'A is closest'}
```") =
  Ok (PDict [(lit "translation_A_score", PFloat (lit "0.9"));
             (lit "comparison", PStr (lit "A is closest"))]).
Proof. vm_compute. reflexivity. Qed.

Example parse_json_response_prose_example :
  parse_json_response
    (jlit "Here is the result: {'translation_A_score': 1, 'x': [true, null]} Thanks!") =
  Ok (PDict [(lit "translation_A_score", PInt 1);
             (lit "x", PList [PBool true; PNone])]).
Proof. vm_compute. reflexivity. Qed.

Example parse_json_response_no_braces_example :
  parse_json_response (lit "no json here") = Ok (json_parse_failed (lit "no json here")).
Proof. vm_compute. reflexivity. Qed.

(** C2: parse_json_response does not return on every input. On the
    text {x} the first parse fails, the fallback finds both braces and
    parses the text between them a second time, outside of any handler:
    the JSONDecodeError of that second parse reaches the caller, where the
    claim promises the error sentinel. *)
Theorem parse_json_response_fallback_raises :
  parse_json_response (lit "{x}") = Raise JSONDecodeError.
Proof. vm_compute. reflexivity. Qed.

(** The sentinel is returned when the first parse fails and the cleaned
    text lacks an opening or a closing brace. *)
Lemma parse_json_response_sentinel text :
  json_loads (clean_response text) = Raise JSONDecodeError →
  str_find (clean_response text) (lit "{") = (-1)%Z ∨
  str_rfind (clean_response text) (lit "}") = (-1)%Z →
  parse_json_response text = Ok (json_parse_failed text).
Proof.
  intros Hfail Hbrace. unfold parse_json_response. rewrite Hfail.
  destruct Hbrace as [-> | ->]; [done|]. by rewrite andb_false_r.
Qed.

(** A successful first parse is returned as it is. *)
Lemma parse_json_response_first_parse text v :
  json_loads (clean_response text) = Ok v → parse_json_response text = Ok v.
Proof. intros Hv. unfold parse_json_response. by rewrite Hv. Qed.

Example parse_json_response_raises_2_example :
  parse_json_response (lit "} {") = Raise JSONDecodeError.
Proof. vm_compute. reflexivity. Qed.

Example parse_json_response_raises_3_example :
  parse_json_response (jlit "Scores {A} follow: {'translation_A_score': 1}") = Raise JSONDecodeError.
Proof. vm_compute. reflexivity. Qed.

Example parse_json_response_fence_in_value_example :
  json_loads (jlit "{'a': 'x```y'}") = Ok (PDict [(lit "a", PStr (lit "x```y"))]) ∧
  parse_json_response (jlit "{'a': 'x```y'}") = Ok (PDict [(lit "a", PStr (lit "xy"))]).
Proof. vm_compute. done. Qed.

(** *** The str methods used by the cleaning step *)

Lemma startswith_true s p : startswith s p = true ↔ ∃ r, s = p ++ r.
Proof.
  revert s. induction p as [|a p IH]; intros s; simpl.
  { split; [by exists s | done]. }
  destruct s as [|b s].
  { split; [done | by intros [? ?]]. }
  rewrite andb_true_iff, N.eqb_eq, IH. split.
  - intros [-> [r ->]]. by exists r.
  - intros [r [= -> ->]]. eauto.
Qed.

Lemma lstrip_suffix s : ∃ pre, s = pre ++ lstrip s.
Proof.
  induction s as [|c s [pre IH]]; simpl; [by exists []|].
  destruct (isspace c); [|by exists []].
  exists (c :: pre). simpl. by f_equal.
Qed.

Lemma rstrip_prefix s : ∃ suf, s = rstrip s ++ suf.
Proof.
  unfold rstrip. destruct (lstrip_suffix (reverse s)) as [pre Hpre].
  exists (reverse pre). rewrite <- reverse_app, <- Hpre. by rewrite reverse_involutive.
Qed.

(** Stripping keeps a contiguous part of the string. *)
Lemma str_strip_middle s : ∃ pre suf, s = pre ++ str_strip s ++ suf.
Proof.
  unfold str_strip. destruct (lstrip_suffix s) as [pre Hpre].
  destruct (rstrip_prefix (lstrip s)) as [suf Hsuf].
  exists pre, suf. by rewrite <- Hsuf.
Qed.

Lemma occurs_str_strip sub s : occurs sub (str_strip s) → occurs sub s.
Proof.
  intros (p & q & Hs). destruct (str_strip_middle s) as (pre & suf & ->).
  exists (pre ++ p), (q ++ suf). rewrite Hs. by rewrite <- !(assoc_L (++)).
Qed.

Lemma occurs_app sub sub' s : occurs (sub ++ sub') s → occurs sub s.
Proof.
  intros (p & q & ->). exists p, (sub' ++ q). by rewrite <- !(assoc_L (++)).
Qed.

Lemma replace_scan_drop old new k s :
  replace_scan old new k s = replace_scan old new 0 (drop k s).
Proof.
  revert k. induction s as [|c s IH]; intros [|k]; try done.
  simpl replace_scan at 1. by rewrite IH.
Qed.

(** The two equations of the scan for the code fence. *)
Lemma replace_fence_match r :
  replace_scan (lit "```") [] 0 (lit "```" ++ r) = replace_scan (lit "```") [] 0 r.
Proof. reflexivity. Qed.

Lemma replace_fence_other c r :
  startswith (c :: r) (lit "```") = false →
  replace_scan (lit "```") [] 0 (c :: r) = c :: replace_scan (lit "```") [] 0 r.
Proof. intros Hs. cbn [replace_scan]. by rewrite Hs. Qed.

Lemma replace_fence_head1 s r :
  replace_scan (lit "```") [] 0 s = ch "`" :: r → ∃ r', s = ch "`" :: r'.
Proof.
  destruct s as [|c s]; [done|].
  destruct (startswith (c :: s) (lit "```")) eqn:Hs.
  - apply startswith_true in Hs as [r' Hs]. injection Hs as -> ->. eauto.
  - rewrite replace_fence_other by done. intros [= -> _]. eauto.
Qed.

Lemma replace_fence_head2 s r :
  replace_scan (lit "```") [] 0 s = ch "`" :: ch "`" :: r →
  ∃ r', s = ch "`" :: ch "`" :: r'.
Proof.
  destruct s as [|c s]; [done|].
  destruct (startswith (c :: s) (lit "```")) eqn:Hs.
  - apply startswith_true in Hs as [r' Hs]. injection Hs as -> ->. eauto.
  - rewrite replace_fence_other by done. intros [= -> Hr].
    apply replace_fence_head1 in Hr as [r' ->]. eauto.
Qed.

(** After the replacement of the fence by the empty string no code fence
    is left: deleting a fence never brings the pieces of a new one
    together. *)
Lemma replace_fence_no_fence s :
  ¬ occurs (lit "```") (replace_scan (lit "```") [] 0 s).
Proof.
  remember (length s) as n eqn:Hn. assert (length s ≤ n) as Hle by lia. clear Hn.
  revert s Hle. induction n as [|n IH]; intros s Hle (pre & suf & Heq).
  { destruct s; [|simpl in Hle; lia]. by destruct pre. }
  destruct s as [|c s]; [by destruct pre|]. simpl in Hle.
  destruct (startswith (c :: s) (lit "```")) eqn:Hs.
  - apply startswith_true in Hs as [r' Hs]. rewrite Hs in Heq.
    rewrite replace_fence_match in Heq.
    apply (IH r'); [|by exists pre, suf].
    injection Hs as -> ->. simpl in Hle. lia.
  - rewrite replace_fence_other in Heq by done.
    destruct pre as [|p pre].
    + injection Heq as -> Hr. apply replace_fence_head2 in Hr as [r' ->].
      discriminate Hs.
    + injection Heq as -> Hr. apply (IH s); [lia | by exists pre, suf].
Qed.

(** The text handed to the decoder contains no code fence. *)
Lemma clean_response_no_fence text : ¬ occurs (lit "```") (clean_response text).
Proof.
  unfold clean_response. intros Ho%occurs_str_strip.
  by apply replace_fence_no_fence in Ho.
Qed.

(** C10: the cleaning step of parse_json_response deletes every code
    fence before parsing: the text handed to the decoder contains neither
    "```" nor "```json", wherever they stood in the input. In particular
    fences inside JSON string values are deleted too: there is an input
    that is already a valid JSON object, with a string value containing a
    fence, for which the returned record holds a different string value. *)
Theorem parse_json_response_strips_fences_in_values :
  (∀ text, ¬ occurs (lit "```") (clean_response text) ∧
           ¬ occurs (lit "```json") (clean_response text)) ∧
  ∃ text key value value',
    json_loads text = Ok (PDict [(key, PStr value)]) ∧
    occurs (lit "```") value ∧
    parse_json_response text = Ok (PDict [(key, PStr value')]) ∧
    value' ≠ value.
Proof.
  split.
  - intros text. split; [apply clean_response_no_fence|].
    intros Ho. apply (clean_response_no_fence text).
    by apply (occurs_app (lit "```") (lit "json")).
  - exists (jlit "{'a': 'x```y'}"), (lit "a"), (lit "x```y"), (lit "xy").
    split; [by vm_compute|]. split; [by exists (lit "x"), (lit "y")|].
    split; [by vm_compute|]. by vm_compute.
Qed.

(** *** The two well-formed shapes of a response *)

Lemma lstrip_id c s : isspace c = false → lstrip (c :: s) = c :: s.
Proof. intros Hc. simpl. by rewrite Hc. Qed.

Lemma rstrip_id s c : isspace c = false → rstrip (s ++ [c]) = s ++ [c].
Proof.
  intros Hc. unfold rstrip. rewrite reverse_snoc, lstrip_id by done.
  by rewrite reverse_cons, reverse_involutive.
Qed.

(** Nothing is stripped from a text that begins and ends with a
    character that is not white space. *)
Lemma str_strip_id c s c' :
  isspace c = false → isspace c' = false →
  str_strip (c :: s ++ [c']) = c :: s ++ [c'].
Proof.
  intros Hc Hc'. unfold str_strip. rewrite lstrip_id by done.
  change (c :: s ++ [c']) with ((c :: s) ++ [c']). by apply rstrip_id.
Qed.

(** A scan passes over characters that do not begin a match. *)
Lemma replace_scan_skip_prefix old0 old new o r :
  Forall (λ c, c ≠ old0) o →
  replace_scan (old0 :: old) new 0 (o ++ r) = o ++ replace_scan (old0 :: old) new 0 r.
Proof.
  induction 1 as [|c o Hc _ IH]; [done|].
  cbn [app replace_scan startswith].
  rewrite (proj2 (N.eqb_neq old0 c)) by done. simpl. by rewrite IH.
Qed.

Lemma startswith_app p s p' : startswith (p ++ s) (p ++ p') = startswith s p'.
Proof. induction p as [|a p IH]; [done|]. simpl. by rewrite N.eqb_refl, IH. Qed.

Lemma startswith_cons_ne a b s p : a ≠ b → startswith (b :: s) (a :: p) = false.
Proof. intros Hne. simpl. by rewrite (proj2 (N.eqb_neq a b)). Qed.

(** Where no match begins the character is kept. *)
Lemma replace_scan_no_match old new c s :
  startswith (c :: s) old = false →
  replace_scan old new 0 (c :: s) = c :: replace_scan old new 0 s.
Proof. intros Hs. cbn [replace_scan]. by rewrite Hs. Qed.

(** A match at the head of the text is replaced. *)
Lemma replace_scan_here old new r :
  old ≠ [] →
  replace_scan old new 0 (old ++ r) = new ++ replace_scan old new 0 r.
Proof.
  destruct old as [|c old]; [done|]. intros _.
  cbn [app replace_scan].
  rewrite (proj2 (startswith_true (c :: old ++ r) (c :: old))) by (by exists r).
  rewrite replace_scan_drop.
  replace (length (c :: old) - 1) with (length old) by (simpl; lia).
  by rewrite drop_app_length.
Qed.

(** The cleaning of a response that is a text without backquotes between
    an opening fence with the word json and a closing fence: the fences
    go, and the text is stripped. *)
Lemma clean_response_fenced_json inner :
  Forall (λ c, c ≠ ch "`") inner →
  clean_response (lit "```json" ++ inner ++ lit "```") = str_strip inner.
Proof.
  intros Hinner. unfold clean_response.
  assert (lit "```json" ++ inner ++ lit "```" =
          ch "`" :: (lit "``json" ++ inner ++ lit "``") ++ [ch "`"]) as Htext.
  { cbn. by rewrite <- !(assoc_L (++)). }
  rewrite Htext, str_strip_id, <- Htext by done.
  change (str_replace (lit "```json" ++ inner ++ lit "```") (lit "```json") [])
    with (replace_scan (lit "```json") [] 0 (lit "```json" ++ inner ++ lit "```")).
  rewrite replace_scan_here by done. rewrite app_nil_l.
  rewrite (replace_scan_skip_prefix (ch "`") (lit "``json") [] inner) by done.
  change (replace_scan (ch "`" :: lit "``json") [] 0 (lit "```")) with (lit "```").
  change (str_replace (inner ++ lit "```") (lit "```") [])
    with (replace_scan (ch "`" :: lit "``") [] 0 (inner ++ lit "```")).
  rewrite (replace_scan_skip_prefix (ch "`") (lit "``") [] inner) by done.
  change (replace_scan (ch "`" :: lit "``") [] 0 (lit "```")) with (@nil N).
  by rewrite app_nil_r.
Qed.

(** The same for an opening fence without the word json, when the text
    does not itself begin with a j. *)
Lemma clean_response_fenced inner :
  Forall (λ c, c ≠ ch "`") inner → head inner ≠ Some (ch "j") →
  clean_response (lit "```" ++ inner ++ lit "```") = str_strip inner.
Proof.
  intros Hinner Hj. unfold clean_response.
  assert (lit "```" ++ inner ++ lit "```" =
          ch "`" :: (lit "``" ++ inner ++ lit "``") ++ [ch "`"]) as Htext.
  { cbn. by rewrite <- !(assoc_L (++)). }
  rewrite Htext, str_strip_id, <- Htext by done.
  assert (str_replace (lit "```" ++ inner ++ lit "```") (lit "```json") []
          = lit "```" ++ inner ++ lit "```") as ->.
  { destruct inner as [|c inner]; [by vm_compute|].
    apply Forall_cons in Hinner as [Hc Hinner].
    assert (c ≠ ch "j") as Hcj by (by intros ->).
    set (rest := inner ++ lit "```").
    change (str_replace (lit "```" ++ (c :: inner) ++ lit "```") (lit "```json") [])
      with (replace_scan (lit "```json") [] 0
              (ch "`" :: ch "`" :: ch "`" :: c :: rest)).
    rewrite replace_scan_no_match; cycle 1.
    { change (startswith (lit "```" ++ c :: rest) (lit "```" ++ lit "json") = false).
      rewrite startswith_app. by apply startswith_cons_ne. }
    rewrite replace_scan_no_match; cycle 1.
    { change (startswith (lit "``" ++ c :: rest) (lit "``" ++ lit "`json") = false).
      rewrite startswith_app. by apply startswith_cons_ne. }
    rewrite replace_scan_no_match; cycle 1.
    { change (startswith (lit "`" ++ c :: rest) (lit "`" ++ lit "``json") = false).
      rewrite startswith_app. by apply startswith_cons_ne. }
    rewrite replace_scan_no_match by (by apply startswith_cons_ne).
    change (lit "```" ++ (c :: inner) ++ lit "```")
      with (ch "`" :: ch "`" :: ch "`" :: c :: rest).
    do 4 f_equal. unfold rest.
    by rewrite (replace_scan_skip_prefix (ch "`") (lit "``json") [] inner). }
  change (str_replace (lit "```" ++ inner ++ lit "```") (lit "```") [])
    with (replace_scan (lit "```") [] 0 (lit "```" ++ inner ++ lit "```")).
  rewrite replace_scan_here by done. rewrite app_nil_l.
  rewrite (replace_scan_skip_prefix (ch "`") (lit "``") [] inner) by done.
  change (replace_scan (ch "`" :: lit "``") [] 0 (lit "```")) with (@nil N).
  by rewrite app_nil_r.
Qed.

(** A fenced response yields what the decoder makes of the text between
    the fences. *)
Lemma parse_json_response_fenced_json inner v :
  Forall (λ c, c ≠ ch "`") inner →
  json_loads (str_strip inner) = Ok v →
  parse_json_response (lit "```json" ++ inner ++ lit "```") = Ok v.
Proof.
  intros Hinner Hv. apply parse_json_response_first_parse.
  by rewrite clean_response_fenced_json.
Qed.

Lemma str_find_first c p r :
  c ∉ p → str_find (p ++ c :: r) [c] = Z.of_nat (length p).
Proof.
  induction p as [|a p IH]; intros Hc.
  { simpl. by rewrite N.eqb_refl. }
  apply not_elem_of_cons in Hc as [Hne Hc].
  cbn [app str_find startswith]. rewrite (proj2 (N.eqb_neq c a)) by done.
  cbn [andb]. rewrite IH by done.
  destruct (Z.eqb_spec (Z.of_nat (length p)) (-1)); simpl length; lia.
Qed.

Lemma str_rfind_None c p : c ∉ p → str_rfind p [c] = (-1)%Z.
Proof.
  induction p as [|a p IH]; intros Hc; [done|].
  apply not_elem_of_cons in Hc as [Hne Hc].
  cbn [str_rfind startswith]. rewrite IH by done.
  by rewrite (proj2 (N.eqb_neq c a)).
Qed.

Lemma str_rfind_last c s p :
  c ∉ p → str_rfind (s ++ c :: p) [c] = Z.of_nat (length s).
Proof.
  intros Hc. induction s as [|a s IH].
  { cbn [app str_rfind startswith]. rewrite str_rfind_None by done.
    by rewrite N.eqb_refl. }
  cbn [app str_rfind]. rewrite IH.
  destruct (Z.eqb_spec (Z.of_nat (length s)) (-1)); simpl length; lia.
Qed.

Lemma str_slice_middle p s r :
  str_slice (p ++ s ++ r) (Z.of_nat (length p)) (Z.of_nat (length p + length s)) = s.
Proof.
  unfold str_slice, slice_index. rewrite !length_app.
  rewrite !(proj2 (Z.ltb_ge _ _)) by lia.
  rewrite !Z.min_l by lia.
  replace (Z.to_nat (Z.of_nat (length p + length s) - Z.of_nat (length p)))
    with (length s) by lia.
  rewrite Nat2Z.id, drop_app_length. by rewrite take_app_length.
Qed.

(** A JSON object between two pieces of prose: when the cleaned text as
    a whole is not valid JSON, the prose before the object has no opening
    brace and the prose after it no closing brace, the fallback parses the
    object alone. *)
Lemma parse_json_response_prose text before body after :
  clean_response text = before ++ (ch "{" :: body ++ [ch "}"]) ++ after →
  ch "{" ∉ before → ch "}" ∉ after →
  json_loads (clean_response text) = Raise JSONDecodeError →
  parse_json_response text = json_loads (ch "{" :: body ++ [ch "}"]).
Proof.
  intros Hclean Hbefore Hafter Hfail. unfold parse_json_response. rewrite Hfail, Hclean.
  change (lit "{") with [ch "{"]. change (lit "}") with [ch "}"].
  assert (str_find (before ++ (ch "{" :: body ++ [ch "}"]) ++ after) [ch "{"]
          = Z.of_nat (length before)) as ->.
  { cbn [app]. by apply str_find_first. }
  assert (str_rfind (before ++ (ch "{" :: body ++ [ch "}"]) ++ after) [ch "}"]
          = Z.of_nat (length (before ++ ch "{" :: body))) as ->.
  { rewrite <- (str_rfind_last (ch "}") (before ++ ch "{" :: body) after) by done.
    f_equal. cbn [app]. by rewrite <- !(assoc_L (++)). }
  destruct (Z.eqb_spec (Z.of_nat (length before)) (-1)); [lia|].
  destruct (Z.eqb_spec (Z.of_nat (length (before ++ ch "{" :: body))) (-1)); [lia|].
  cbn [negb andb]. f_equal.
  replace (Z.of_nat (length (before ++ ch "{" :: body)) + 1)%Z
    with (Z.of_nat (length before + length (ch "{" :: body ++ [ch "}"]))).
  - apply str_slice_middle.
  - rewrite !length_app. simpl length. rewrite length_app. simpl. lia.
Qed.

(** ** json.loads: the bounds of the model are never reached *)

Lemma skip_ws_length s : length (skip_ws s) ≤ length s.
Proof.
  induction s as [|c s IH]; simpl; [done|].
  destruct (is_json_ws c); simpl; lia.
Qed.

Lemma fmap_result_Ok {A B} (f : A → B) (r : result A) b :
  f <$> r = Ok b ↔ ∃ a, r = Ok a ∧ b = f a.
Proof.
  unfold fmap, result_fmap. destruct r as [a|e]; split.
  - intros [= <-]. eauto.
  - by intros (? & [= <-] & ->).
  - done.
  - by intros (? & ? & _).
Qed.

Lemma fmap_result_Raise {A B} (f : A → B) (r : result A) e :
  f <$> r = Raise e ↔ r = Raise e.
Proof. unfold fmap, result_fmap. destruct r; split; congruence. Qed.

Lemma decode_uXXXX_Raise h1 h2 h3 h4 e :
  decode_uXXXX h1 h2 h3 h4 = Raise e → e = JSONDecodeError.
Proof.
  unfold decode_uXXXX.
  destruct (hex_digit h1), (hex_digit h2), (hex_digit h3), (hex_digit h4); congruence.
Qed.

Lemma scanstring_consumes n : consumes scanstring n.
Proof.
  induction n as [|n IH]; intros s Hlen.
  { destruct s; [|simpl in Hlen; lia]. split; simpl; congruence. }
  assert (∀ c s', length s' ≤ n →
    (∀ v r, prod_map (cons c) id <$> scanstring s' = Ok (v, r) → length r < S (length s')) ∧
    (∀ e, prod_map (cons c) id <$> scanstring s' = Raise e → e = JSONDecodeError)) as Hrec.
  { intros c s' Hs'. destruct (IH s' Hs') as [Hok Herr]. split.
    - intros v r ([v' r'] & Hs & [= -> ->])%fmap_result_Ok. apply Hok in Hs. lia.
    - intros e He%fmap_result_Raise. by apply Herr. }
  destruct s as [|c s1]; [split; simpl; congruence|]. simpl in Hlen.
  cbn [scanstring]. destruct (c =? QUOTE)%N.
  { split; [intros v r [= <- <-]; simpl; lia | congruence]. }
  destruct (c =? REVERSE_SOLIDUS)%N; cycle 1.
  { destruct (c <? 32)%N; [split; congruence|]. apply Hrec. lia. }
  destruct s1 as [|esc s2]; [split; congruence|]. simpl in Hlen.
  destruct (is_ch esc "u"); cycle 1.
  { destruct (BACKSLASH esc); [|split; congruence].
    destruct (Hrec n0 s2) as [Hok Herr]; [lia|]. split; [|done].
    intros v r Hs. apply Hok in Hs. simpl. lia. }
  destruct s2 as [|h1 [|h2 [|h3 [|h4 s3]]]]; try (split; congruence).
  simpl in Hlen. destruct (decode_uXXXX h1 h2 h3 h4) as [uni|e] eqn:Hdec; cycle 1.
  { apply decode_uXXXX_Raise in Hdec as ->. split; simpl; congruence. }
  cbn [mbind result_bind].
  assert ((∀ v r, prod_map (cons uni) id <$> scanstring s3 = Ok (v, r) →
             length r < length (c :: esc :: h1 :: h2 :: h3 :: h4 :: s3)) ∧
          (∀ e, prod_map (cons uni) id <$> scanstring s3 = Raise e → e = JSONDecodeError))
    as Hsingle.
  { destruct (Hrec uni s3) as [Hok Herr]; [lia|]. split; [|done].
    intros v r Hs. apply Hok in Hs. simpl. lia. }
  destruct ((55296 <=? uni)%N && (uni <=? 56319)%N); [|exact Hsingle].
  destruct s3 as [|b [|u [|g1 [|g2 [|g3 [|g4 s4]]]]]]; try exact Hsingle.
  destruct ((b =? REVERSE_SOLIDUS)%N && is_ch u "u"); [|exact Hsingle].
  simpl in Hlen. destruct (decode_uXXXX g1 g2 g3 g4) as [uni2|e] eqn:Hdec2; cycle 1.
  { apply decode_uXXXX_Raise in Hdec2 as ->. split; simpl; congruence. }
  cbn [mbind result_bind].
  destruct ((56320 <=? uni2)%N && (uni2 <=? 57343)%N); [|exact Hsingle].
  match goal with |- context [prod_map (cons ?j) id <$> scanstring s4] =>
    destruct (Hrec j s4) as [Hok Herr]; [lia|] end.
  split; [|done]. intros v r Hs. apply Hok in Hs. simpl. lia.
Qed.

Lemma span_digits_length s : length (span_digits s).2 ≤ length s.
Proof.
  induction s as [|c s IH]; simpl; [done|].
  destruct (is_digit c); simpl; [|done]. destruct (span_digits s); simpl in *. lia.
Qed.

Lemma match_integer_length s integer r :
  match_integer s = Some (integer, r) → length r < length s.
Proof.
  unfold match_integer.
  destruct s as [|c s']; [done|].
  destruct (is_ch c "-").
  - destruct s' as [|d s2]; [done|]. destruct (is_ch d "0").
    { intros [= _ <-]. simpl. lia. }
    destruct (is_digit d); [|done].
    pose proof (span_digits_length s2). destruct (span_digits s2) as [ds s3].
    intros [= _ <-]. simpl in *. lia.
  - destruct (is_ch c "0").
    { intros [= _ <-]. simpl. lia. }
    destruct (is_digit c); [|done].
    pose proof (span_digits_length s'). destruct (span_digits s') as [ds s3].
    intros [= _ <-]. simpl in *. lia.
Qed.

Lemma match_frac_length s : length (match_frac s).2 ≤ length s.
Proof.
  unfold match_frac. destruct s as [|c s1]; [done|].
  destruct (is_ch c "."); [|done].
  pose proof (span_digits_length s1). destruct (span_digits s1) as [[|d ds] s2]; simpl in *; lia.
Qed.

Lemma match_exp_length s : length (match_exp s).2 ≤ length s.
Proof.
  unfold match_exp. destruct s as [|c s1]; [done|].
  destruct (is_ch c "e" || is_ch c "E"); [|done].
  destruct s1 as [|g s'].
  { simpl. lia. }
  destruct (is_ch g "-" || is_ch g "+").
  - pose proof (span_digits_length s'). destruct (span_digits s') as [[|d ds] s2]; simpl in *; lia.
  - pose proof (span_digits_length (g :: s')).
    destruct (span_digits (g :: s')) as [[|d ds] s2]; simpl in *; lia.
Qed.

Lemma match_number_length s v r :
  match_number s = Some (v, r) → length r < length s.
Proof.
  unfold match_number. destruct (match_integer s) as [[integer s1]|] eqn:Hi; [|done].
  apply match_integer_length in Hi.
  pose proof (match_frac_length s1). destruct (match_frac s1) as [frac s2].
  pose proof (match_exp_length s2). destruct (match_exp s2) as [exp s3].
  simpl in *. destruct frac, exp; intros [= _ <-]; lia.
Qed.

Lemma array_loop_consumes scan n :
  consumes scan n →
  ∀ fuel values s, length s ≤ n → length s < fuel →
    (∀ v r, array_loop scan fuel values s = Ok (v, r) → length r < length s) ∧
    (∀ e, array_loop scan fuel values s = Raise e → e = JSONDecodeError).
Proof.
  intros Hscan. induction fuel as [|fuel IH]; intros values s Hn Hfuel; [lia|].
  cbn [array_loop]. destruct (Hscan s Hn) as [Hok Herr].
  destruct (scan s) as [[value s1]|e]; cycle 1.
  { split; [done|]. intros e' [= <-]. by apply Herr. }
  specialize (Hok _ _ eq_refl). cbn [mbind result_bind].
  pose proof (skip_ws_length s1) as Hws1.
  destruct (skip_ws s1) as [|c s2]; [split; congruence|]. simpl in Hws1.
  destruct (is_ch c "]").
  { split; [intros v r [= _ <-]; lia | done]. }
  destruct (is_ch c ","); [|split; congruence].
  pose proof (skip_ws_length s2) as Hws2.
  destruct (IH (values ++ [value]) (skip_ws s2)) as [Hok' Herr']; [lia..|].
  split; [|done]. intros v r Hr. apply Hok' in Hr. lia.
Qed.

Lemma JSONArray_consumes scan n :
  consumes scan n → consumes (JSONArray scan) n.
Proof.
  intros Hscan s Hn. unfold JSONArray.
  pose proof (skip_ws_length s) as Hws.
  destruct (skip_ws s) as [|c s1] eqn:Hs; [split; congruence|]. simpl in Hws.
  destruct (is_ch c "]").
  { split; [intros v r [= _ <-]; lia | done]. }
  destruct (array_loop_consumes scan n Hscan (S (length s)) [] (c :: s1))
    as [Hok Herr]; [simpl; lia..|].
  split; [|done]. intros v r Hr. apply Hok in Hr. simpl in Hr. lia.
Qed.

Lemma object_loop_consumes scan n :
  consumes scan n →
  ∀ fuel pairs s, length s ≤ n → length s < fuel →
    (∀ v r, object_loop scan fuel pairs s = Ok (v, r) → length r < length s) ∧
    (∀ e, object_loop scan fuel pairs s = Raise e → e = JSONDecodeError).
Proof.
  intros Hscan. induction fuel as [|fuel IH]; intros pairs s Hn Hfuel; [lia|].
  cbn [object_loop]. destruct (scanstring_consumes n s Hn) as [Hkok Hkerr].
  destruct (scanstring s) as [[key s1]|e]; cycle 1.
  { split; [done|]. intros e' [= <-]. by apply Hkerr. }
  specialize (Hkok _ _ eq_refl). cbn [mbind result_bind].
  pose proof (skip_ws_length s1) as Hws1.
  destruct (skip_ws s1) as [|c s2]; [split; congruence|]. simpl in Hws1.
  destruct (is_ch c ":"); [|split; congruence].
  pose proof (skip_ws_length s2) as Hws2.
  destruct (Hscan (skip_ws s2)) as [Hok Herr]; [lia|].
  destruct (scan (skip_ws s2)) as [[value s3]|e]; cycle 1.
  { split; [done|]. intros e' [= <-]. by apply Herr. }
  specialize (Hok _ _ eq_refl). cbn [mbind result_bind].
  pose proof (skip_ws_length s3) as Hws3.
  destruct (skip_ws s3) as [|c' s4]; [split; congruence|]. simpl in Hws3.
  destruct (is_ch c' "}").
  { split; [intros v r [= _ <-]; lia | done]. }
  destruct (is_ch c' ","); [|split; congruence].
  pose proof (skip_ws_length s4) as Hws4.
  destruct (skip_ws s4) as [|q s5]; [split; congruence|]. simpl in Hws4.
  destruct (q =? QUOTE)%N; [|split; congruence].
  destruct (IH (pairs ++ [(key, value)]) s5) as [Hok' Herr']; [lia..|].
  split; [|done]. intros v r Hr. apply Hok' in Hr. lia.
Qed.

Lemma JSONObject_consumes scan n :
  consumes scan n → consumes (JSONObject scan) n.
Proof.
  intros Hscan s Hn. unfold JSONObject.
  pose proof (skip_ws_length s) as Hws.
  destruct (skip_ws s) as [|c s1] eqn:Hs; [split; congruence|]. simpl in Hws.
  destruct (is_ch c "}").
  { split; [intros v r [= _ <-]; lia | done]. }
  destruct (c =? QUOTE)%N; [|split; congruence].
  destruct (object_loop_consumes scan n Hscan (S (length s)) [] s1)
    as [Hok Herr]; [lia..|].
  split; [|done]. intros v r Hr. apply Hok in Hr. lia.
Qed.

Lemma consumes_le {A} (f : str → result (A * str)) n m :
  m ≤ n → consumes f n → consumes f m.
Proof. intros Hle Hf s Hs. apply Hf. lia. Qed.

Lemma startswith_drop s p :
  startswith s p = true → length (drop (length p) s) + length p = length s.
Proof.
  intros [r ->]%startswith_true. rewrite drop_app_length, length_app. lia.
Qed.

(** Scanning a value consumes input, and with a depth bound above the
    length of the input the bound is never reached. *)
Lemma scan_once_consumes depth n : n < depth → consumes (scan_once depth) n.
Proof.
  revert n. induction depth as [|depth IH]; intros n Hd s Hn; [lia|].
  cbn [scan_once]. destruct s as [|c s1]; [split; congruence|]. simpl in Hn.
  assert (consumes (scan_once depth) (length s1)) as Hscan by (apply IH; lia).
  destruct (c =? QUOTE)%N.
  { destruct (scanstring_consumes _ s1 (le_n _)) as [Hok Herr]. split.
    - intros v r ([x r'] & Hs & [= -> ->])%fmap_result_Ok. apply Hok in Hs. simpl. lia.
    - intros e He%fmap_result_Raise. by apply Herr. }
  destruct (is_ch c "{").
  { destruct (JSONObject_consumes _ _ Hscan s1 (le_n _)) as [Hok Herr].
    split; [|done]. intros v r Hr. apply Hok in Hr. simpl. lia. }
  destruct (is_ch c "[").
  { destruct (JSONArray_consumes _ _ Hscan s1 (le_n _)) as [Hok Herr].
    split; [|done]. intros v r Hr. apply Hok in Hr. simpl. lia. }
  destruct (startswith (c :: s1) (lit "null")) eqn:H1.
  { apply startswith_drop in H1. split; [intros v r [= _ <-]; simpl in *; lia | done]. }
  destruct (startswith (c :: s1) (lit "true")) eqn:H2.
  { apply startswith_drop in H2. split; [intros v r [= _ <-]; simpl in *; lia | done]. }
  destruct (startswith (c :: s1) (lit "false")) eqn:H3.
  { apply startswith_drop in H3. split; [intros v r [= _ <-]; simpl in *; lia | done]. }
  destruct (match_number (c :: s1)) as [[v r]|] eqn:Hnum.
  { apply match_number_length in Hnum. split; [by intros ?? [= <- <-] | done]. }
  destruct (startswith (c :: s1) (lit "NaN")) eqn:H4.
  { apply startswith_drop in H4. split; [intros v r [= _ <-]; simpl in *; lia | done]. }
  destruct (startswith (c :: s1) (lit "Infinity")) eqn:H5.
  { apply startswith_drop in H5. split; [intros v r [= _ <-]; simpl in *; lia | done]. }
  destruct (startswith (c :: s1) (lit "-Infinity")) eqn:H6.
  { apply startswith_drop in H6. split; [intros v r [= _ <-]; simpl in *; lia | done]. }
  split; congruence.
Qed.

(** json.loads raises nothing but JSONDecodeError: the bounds of the
    model are never reached. *)
Lemma json_loads_Raise s e : json_loads s = Raise e → e = JSONDecodeError.
Proof.
  unfold json_loads. pose proof (skip_ws_length s) as Hws.
  destruct (scan_once_consumes (S (length s)) (length s) (le_n _) (skip_ws s) Hws)
    as [_ Herr].
  destruct (scan_once (S (length s)) (skip_ws s)) as [[obj rest]|e'].
  - cbn [mbind result_bind]. destruct (skip_ws rest); congruence.
  - cbn [mbind result_bind]. intros [= <-]. by apply Herr.
Qed.

Lemma parse_json_response_Raise text e :
  parse_json_response text = Raise e → e = JSONDecodeError.
Proof.
  unfold parse_json_response.
  destruct (json_loads (clean_response text)) as [v|e'] eqn:H1; [done|].
  apply json_loads_Raise in H1 as ->.
  destruct (negb _ && negb _); [apply json_loads_Raise | done].
Qed.

(** Without an opening brace in the cleaned text the function always
    returns: the parsed value, or the sentinel. *)
Lemma parse_json_response_without_brace text :
  str_find (clean_response text) (lit "{") = (-1)%Z ∨
  str_rfind (clean_response text) (lit "}") = (-1)%Z →
  ∃ v, parse_json_response text = Ok v.
Proof.
  intros Hbrace. destruct (json_loads (clean_response text)) as [v|e] eqn:Hl.
  - exists v. by apply parse_json_response_first_parse.
  - apply json_loads_Raise in Hl as He. subst e.
    exists (json_parse_failed text). by apply parse_json_response_sentinel.
Qed.

(** The function raises exactly when both parses fail: the first one,
    and the one of the text between the first opening and the last closing
    brace. *)
Lemma parse_json_response_raises_iff text :
  let cleaned := clean_response text in
  let start := str_find cleaned (lit "{") in
  let end_ := str_rfind cleaned (lit "}") in
  (∃ e, parse_json_response text = Raise e) ↔
  json_loads cleaned = Raise JSONDecodeError ∧
  start ≠ (-1)%Z ∧ end_ ≠ (-1)%Z ∧
  json_loads (str_slice cleaned start (end_ + 1)) = Raise JSONDecodeError.
Proof.
  intros cleaned start end_. unfold parse_json_response. fold cleaned start end_.
  destruct (json_loads cleaned) as [v|e] eqn:Hl.
  { split; [by intros [? ?] | by intros [? _]]. }
  apply json_loads_Raise in Hl as He. subst e.
  destruct (Z.eqb_spec start (-1)) as [Hs|Hs]; simpl.
  { split; [by intros [? ?] | by intros (_ & ? & _)]. }
  destruct (Z.eqb_spec end_ (-1)) as [He|He]; simpl.
  { split; [by intros [? ?] | by intros (_ & _ & ? & _)]. }
  split.
  - intros [e Hr]. apply json_loads_Raise in Hr as He'. by subst e.
  - intros (_ & _ & _ & Hr). eauto.
Qed.

(** ** db.insert_sentence *)

Lemma filter_key_None {A K} `{EqDecision K} (f : A → K) (l : list A) k :
  k ∉ f <$> l → filter (λ y, f y = k) l = [].
Proof.
  induction l as [|a l IH]; [done|]. rewrite fmap_cons, not_elem_of_cons.
  intros [Hne Hnotin]. rewrite filter_cons_False by done. by apply IH.
Qed.

(** Under a uniqueness constraint on [f], the rows selected by the key of
    a stored row are that row alone. *)
Lemma filter_key_unique {A K} `{EqDecision K} (f : A → K) (l : list A) x :
  NoDup (f <$> l) → x ∈ l → filter (λ y, f y = f x) l = [x].
Proof.
  induction l as [|a l IH]; [by intros _ ?%elem_of_nil|].
  rewrite fmap_cons, NoDup_cons. intros [Hnotin Hnd] [->|Hin]%elem_of_cons.
  - rewrite filter_cons_True by done. f_equal. by apply filter_key_None.
  - rewrite filter_cons_False; [by apply IH|].
    intros Heq. apply Hnotin. rewrite Heq. by apply list_elem_of_fmap_2.
Qed.

(** Inserting under a key that is already stored: nothing is written,
    the stored row's id is returned. *)
Lemma insert_sentence_existing conn row human google :
  sentences_unique conn → row ∈ rows (sentences conn) →
  insert_sentence conn (language row) (original_text row) human google =
    Ok (sentence_rowid row,
        Connection (runs conn)
          (Table (rows (sentences conn)) (autoincrement sentence_rowid (sentences conn)))
          (translations conn) (evaluations conn)).
Proof.
  intros Hu Hin. unfold insert_sentence, insert_or_ignore_sentence.
  rewrite decide_True by (by apply (list_elem_of_fmap_2 sentence_key) in Hin).
  unfold select_sentence_id. cbn [rows].
  by rewrite (filter_key_unique sentence_key _ row Hu Hin).
Qed.

(** Inserting under a new key: one row is appended, with a fresh id. *)
Lemma insert_sentence_new conn language original human google :
  (language, original) ∉ sentence_key <$> rows (sentences conn) →
  let rowid := autoincrement sentence_rowid (sentences conn) in
  insert_sentence conn language original human google =
    Ok (rowid,
        Connection (runs conn)
          (Table (rows (sentences conn) ++ [Sentence rowid language original human google]) rowid)
          (translations conn) (evaluations conn)).
Proof.
  intros Hnotin. unfold insert_sentence, insert_or_ignore_sentence.
  rewrite decide_False by done. unfold select_sentence_id. cbn [rows].
  rewrite filter_app, (filter_key_None sentence_key) by done.
  by rewrite filter_cons_True.
Qed.

(** The uniqueness constraint survives an insertion. *)
Lemma insert_sentence_unique conn language original human google id conn' :
  sentences_unique conn →
  insert_sentence conn language original human google = Ok (id, conn') →
  sentences_unique conn'.
Proof.
  intros Hu.
  destruct (decide ((language, original) ∈ sentence_key <$> rows (sentences conn)))
    as [Hin|Hnotin].
  - apply list_elem_of_fmap in Hin as (row & Hk & Hin). injection Hk as -> ->.
    rewrite insert_sentence_existing by done. by intros [= _ <-].
  - rewrite insert_sentence_new by done. intros [= _ <-].
    unfold sentences_unique. cbn [sentences rows].
    rewrite fmap_app. apply NoDup_app. split; [done|]. split.
    + intros k Hk [->|[]%elem_of_nil]%elem_of_cons. done.
    + apply NoDup_singleton.
Qed.

(** C7: insert_sentence is idempotent on the key (language,
    original_text). In a store that satisfies the UNIQUE constraint of
    init_db, two successive calls with the same language and original text
    (whatever the two other texts are) return the same id, and afterwards
    exactly one row is stored under that key. *)
Theorem insert_sentence_idempotent conn language original human1 google1 human2 google2 :
  sentences_unique conn →
  ∃ id conn1 conn2,
    insert_sentence conn language original human1 google1 = Ok (id, conn1) ∧
    insert_sentence conn1 language original human2 google2 = Ok (id, conn2) ∧
    length (sentences_with conn1 language original) = 1 ∧
    length (sentences_with conn2 language original) = 1 ∧
    rows (sentences conn2) = rows (sentences conn1).
Proof.
  intros Hu.
  destruct (insert_sentence conn language original human1 google1)
    as [[id conn1]|e] eqn:H1.
  2: { exfalso. revert H1.
       destruct (decide ((language, original) ∈ sentence_key <$> rows (sentences conn)))
         as [Hin|Hnotin].
       - apply list_elem_of_fmap in Hin as (row & Hk & Hin). injection Hk as -> ->.
         by rewrite insert_sentence_existing.
       - by rewrite insert_sentence_new. }
  pose proof (insert_sentence_unique _ _ _ _ _ _ _ Hu H1) as Hu1.
  assert (∃ row, row ∈ rows (sentences conn1) ∧ sentence_key row = (language, original)
                 ∧ sentence_rowid row = id) as (row & Hin & Hk & Hid).
  { revert H1.
    destruct (decide ((language, original) ∈ sentence_key <$> rows (sentences conn)))
      as [Hin|Hnotin].
    - apply list_elem_of_fmap in Hin as (row & Hk & Hin). injection Hk as -> ->.
      rewrite insert_sentence_existing by done. intros [= <- <-]. by exists row.
    - rewrite insert_sentence_new by done. intros [= <- <-].
      exists (Sentence (autoincrement sentence_rowid (sentences conn))
                language original human1 google1).
      split; [|done]. cbn [sentences rows].
      apply elem_of_app. right. by apply list_elem_of_singleton. }
  injection Hk as <- <-. subst id.
  exists (sentence_rowid row), conn1. eexists.
  split; [done|]. split; [by apply insert_sentence_existing|].
  unfold sentences_with. cbn [sentences rows].
  by rewrite (filter_key_unique sentence_key _ row Hu1 Hin).
Qed.

(** C9: first writer wins. When the key (language, original_text) is
    already stored, insert_sentence with other reference and baseline
    texts returns the stored row's id without raising, and leaves the rows
    of the sentences table, hence the stored translation_human and
    translation_google, exactly as they were: the new texts are dropped. *)
Theorem insert_sentence_first_writer_wins conn row human google :
  sentences_unique conn → row ∈ rows (sentences conn) →
  ∃ conn',
    insert_sentence conn (language row) (original_text row) human google
      = Ok (sentence_rowid row, conn') ∧
    rows (sentences conn') = rows (sentences conn) ∧
    sentences_with conn' (language row) (original_text row) = [row] ∧
    runs conn' = runs conn ∧ translations conn' = translations conn ∧
    evaluations conn' = evaluations conn.
Proof.
  intros Hu Hin. eexists. split; [by apply insert_sentence_existing|].
  split; [done|]. split; [|done].
  unfold sentences_with. cbn [sentences rows].
  by rewrite (filter_key_unique sentence_key _ row Hu Hin).
Qed.


(** ** generate_tables.parse_scores *)

(** The loop over the provenance map, for a map whose values are
    distinct keys of [scores]: each value receives the score of its label,
    the other entries of [scores] are left alone. *)
Lemma parse_scores_loop score_map (mapping : dict str) (scores0 : dict pyval) :
  (∀ c, c ∈ dict_values mapping → c ∈ dict_keys scores0) →
  NoDup (dict_values mapping) →
  ∃ scores,
    for_each (prod_map id PStr <$> mapping) (assign_score score_map) scores0 = Ok scores ∧
    dict_keys scores = dict_keys scores0 ∧
    (∀ l c, (l, c) ∈ mapping →
       dict_get scores c = Some (default PNone (dict_get score_map l))) ∧
    (∀ c, c ∉ dict_values mapping → dict_get scores c = dict_get scores0 c).
Proof.
  revert scores0. induction mapping as [|[l c] m IH]; intros scores0 Hsub Hnd.
  { exists scores0. split; [done|]. split; [done|]. split; [|done].
    by intros ?? ?%elem_of_nil. }
  unfold dict_values in *. rewrite fmap_cons in Hsub, Hnd. simpl in Hsub, Hnd.
  apply NoDup_cons in Hnd as [Hc Hnd].
  assert (c ∈ dict_keys scores0) as Hin by (apply Hsub; left).
  set (scores1 := dict_set scores0 c (default PNone (dict_get score_map l))).
  assert (dict_keys scores1 = dict_keys scores0) as Hk1
    by (by apply dict_keys_set_elem).
  destruct (IH scores1) as (scores & Hloop & Hk & Hset & Hkeep); [|done|].
  { intros c' Hc'. rewrite Hk1. apply Hsub. by right. }
  exists scores. split.
  { assert (assign_score score_map (l, PStr c) scores0 = Ok scores1) as Hstep.
    { unfold assign_score. cbn [py_in_keys mbind result_bind].
      by rewrite bool_decide_eq_true_2. }
    cbn [fmap list_fmap for_each prod_map fst snd id]. rewrite Hstep.
    exact Hloop. }
  split; [by rewrite Hk|]. split.
  - intros l' c' [[= -> ->]|Hin']%elem_of_cons; [|by apply Hset].
    rewrite Hkeep by done. apply dict_get_set_eq.
  - intros c' Hc'. apply not_elem_of_cons in Hc' as [Hne Hc'].
    rewrite Hkeep by done. by apply dict_get_set_ne.
Qed.

(** C3: the round trip through the provenance map. Let the stored
    evaluation text decode to the record [evaluation] and the stored
    mapping text to a provenance map that is a bijection from the labels
    onto the categories. Then parse_scores returns, its result has exactly
    the three categories as keys, and each category holds the score that
    the record holds for the label mapped to that category (None when the
    record has no score for that label). *)
Theorem parse_scores_recovers_scores
    (evaluation : dict pyval) (mapping : dict str) (evaluation_json mapping_json : str) :
  json_loads evaluation_json = Ok (PDict evaluation) →
  json_loads mapping_json = Ok (py_of_mapping mapping) →
  is_bijection mapping →
  ∃ scores,
    parse_scores evaluation_json mapping_json = Ok scores ∧
    dict_keys scores = categories ∧
    ∀ category, category ∈ categories →
      ∃ label, label ∈ blind_labels ∧
        dict_get mapping label = Some category ∧
        dict_get scores category =
          Some (default PNone (dict_get evaluation (score_key label))).
Proof.
  intros He Hm [Hkeys Hvalues]. unfold parse_scores. rewrite He, Hm.
  cbn [mbind result_bind py_get py_of_mapping py_items].
  set (score_map := dict_of_pairs _).
  set (scores0 := dict_of_pairs [(GPT, PNone); (Google, PNone); (Human, PNone)]).
  destruct (parse_scores_loop score_map mapping scores0)
    as (scores & -> & Hk & Hset & _).
  { intros c Hc. rewrite Hvalues in Hc. exact Hc. }
  { rewrite Hvalues. apply categories_NoDup. }
  exists scores. split; [done|]. split; [by rewrite Hk|].
  intros category Hcat. rewrite <- Hvalues in Hcat.
  apply list_elem_of_fmap in Hcat as ([label c] & -> & Hin). simpl.
  assert (label ∈ blind_labels) as Hl.
  { rewrite <- Hkeys. by apply (list_elem_of_fmap_2 fst) in Hin. }
  exists label. split; [done|]. split.
  { apply dict_get_elem; [|done]. rewrite Hkeys. apply blind_labels_NoDup. }
  rewrite (Hset label c Hin). f_equal.
  unfold blind_labels in Hl.
  apply elem_of_cons in Hl as [->|Hl]; [done|].
  apply elem_of_cons in Hl as [->|Hl]; [done|].
  apply elem_of_cons in Hl as [->|Hl]; [done|].
  by apply elem_of_nil in Hl.
Qed.

(** ** generate_tables.main: the aggregation *)

(** The row of a group, given the three lists accumulated for it: the
    bias is the mean of the self scores minus the mean of the reference
    scores, each mean being sum(l) / len(l), and None, which is not a
    number, when either list is empty. *)
Lemma summary_row_bias {F} `{FloatOps F}
    (key : group_key) (l_gpt l_google l_human : list F) :
  ∃ row,
    summary_row key (dict_of_pairs [(GPT, l_gpt); (Google, l_google); (Human, l_human)])
      = Ok row ∧
    row_key row = key ∧
    gpt_self_score row = mean l_gpt ∧
    human_score row = mean l_human ∧
    bias_self_minus_human row =
      match l_gpt, l_human with
      | _ :: _, _ :: _ =>
          Some (fsub (fdiv_len (fsum l_gpt) (length l_gpt))
                     (fdiv_len (fsum l_human) (length l_human)))
      | _, _ => None
      end ∧
    (∀ zero : F, l_gpt = [] ∨ l_human = [] → bias_self_minus_human row ≠ Some zero).
Proof.
  eexists. split; [reflexivity|]. cbn [row_key gpt_self_score human_score bias_self_minus_human].
  split; [done|]. split; [done|]. split; [done|].
  assert (mean l_gpt = None ∨ mean l_human = None →
          ∀ zero : F, match mean l_gpt, mean l_human with
                      | Some gpt, Some human => Some (fsub gpt human)
                      | _, _ => None
                      end ≠ Some zero) as Hnone.
  { intros [-> | ->] zero; [done|]. by destruct (mean l_gpt). }
  split.
  - by destruct l_gpt, l_human.
  - intros zero [-> | ->]; apply Hnone; [by left | by right].
Qed.

(** ** pipeline.run_pipeline *)

Ltac inv_bind H :=
  let a := fresh "a" in
  let Ha := fresh "Ha" in
  apply bind_Ok in H as (a & Ha & H).

Lemma for_each_cons {A S} (a : A) l (body : A → S → result S) s :
  for_each (a :: l) body s = body a s ≫= for_each l body.
Proof. done. Qed.

Lemma for_each_app {A S} (l1 l2 : list A) (body : A → S → result S) s :
  for_each (l1 ++ l2) body s = for_each l1 body s ≫= for_each l2 body.
Proof.
  revert s. induction l1 as [|a l1 IH]; intros s; [done|].
  simpl. destruct (body a s) as [s1|e]; simpl; [apply IH | done].
Qed.

Section pipeline_facts.
Context {W : Type} `{Environment W} {G : Type} `{RandomSource G}.

Lemma permutation_sequence_app n m (rng : G) :
  permutation_sequence (n + m) rng =
    '(ps, rng1) ← permutation_sequence n rng;
    '(qs, rng2) ← permutation_sequence m rng1;
    Ok (ps ++ qs, rng2).
Proof.
  revert rng. induction n as [|n IH]; intros rng; simpl.
  { by destruct (permutation_sequence m rng) as [[qs rng2]|e]. }
  destruct (shuffle rng categories) as [[perm rng1]|e]; simpl; [|done].
  rewrite IH. destruct (permutation_sequence n rng1) as [[ps rng2]|e]; simpl; [|done].
  by destruct (permutation_sequence m rng2) as [[qs rng3]|e].
Qed.

(** The permutation sequence always exists, and each of its members is
    a rearrangement of the three category tags. *)
Lemma permutation_sequence_total n (rng : G) :
  ∃ perms rng', permutation_sequence n rng = Ok (perms, rng') ∧
    length perms = n ∧ Forall (λ perm, perm ≡ₚ categories) perms.
Proof.
  revert rng. induction n as [|n IH]; intros rng; simpl.
  { by exists [], rng. }
  destruct (shuffle_Permutation rng categories) as (perm & rng1 & -> & Hp).
  simpl. destruct (IH rng1) as (perms & rng' & -> & Hlen & Hall). simpl.
  exists (perm :: perms), rng'. split; [done|]. split; [by rewrite <- Hlen|].
  by constructor.
Qed.

Lemma appended_refl conn : appended conn conn [] [].
Proof. split; [done|]. exists [], []. by rewrite !app_nil_r. Qed.

Lemma appended_trans conn0 conn1 conn2 keys1 keys2 perms1 perms2 :
  appended conn0 conn1 keys1 perms1 → appended conn1 conn2 keys2 perms2 →
  appended conn0 conn2 (keys1 ++ keys2) (perms1 ++ perms2).
Proof.
  intros (Hs1 & ts1 & es1 & Ht1 & He1 & Hkt1 & Hke1 & Hm1)
         (Hs2 & ts2 & es2 & Ht2 & He2 & Hkt2 & Hke2 & Hm2).
  split; [by rewrite Hs2|]. exists (ts1 ++ ts2), (es1 ++ es2).
  rewrite Ht2, Ht1, He2, He1, !fmap_app, Hkt1, Hkt2, Hke1, Hke2, Hm1, Hm2.
  by rewrite !(assoc_L (++)).
Qed.

(** One sentence: one shuffle is drawn, and one Translation row and one
    Evaluation row are appended for the sentence. *)
Lemma process_sentence_spec provider model translation_system evaluation_system
    run_id lang row w conn (rng : G) w' conn' rng' :
  process_sentence provider model translation_system evaluation_system
    run_id lang row (w, conn, rng) = Ok (w', conn', rng') →
  ∃ perm,
    shuffle rng categories = Ok (perm, rng') ∧
    runs conn' = runs conn ∧
    appended conn conn' [(run_id, sentence_rowid row)] [perm].
Proof.
  unfold process_sentence. intros Hp.
  inv_bind Hp. destruct a as [translation_gpt w1].
  inv_bind Hp. destruct a as [[labels mapping] rng1].
  do 3 inv_bind Hp. inv_bind Hp. destruct a2 as [evaluation w2].
  injection Hp as <- <- <-.
  apply prepare_blind_labels_mapping in Ha0 as [Hshuffle Hkeys].
  exists (dict_values mapping). split; [done|]. split; [done|].
  split; [done|]. eexists [_], [_]. cbn [insert_evaluation insert_translation
    translations evaluations rows]. split; [done|]. split; [done|].
  split; [done|]. split; [done|]. cbn [fmap list_fmap mapping_json].
  unfold mapping_text. rewrite <- Hkeys. unfold dict_keys, dict_values.
  by rewrite zip_fst_snd.
Qed.
(** The loop over the sentences of a language. *)
Lemma sentences_loop_spec provider model translation_system evaluation_system
    run_id lang rows_ w conn (rng : G) w' conn' rng' :
  for_each rows_
    (process_sentence provider model translation_system evaluation_system run_id lang)
    (w, conn, rng) = Ok (w', conn', rng') →
  ∃ perms,
    permutation_sequence (length rows_) rng = Ok (perms, rng') ∧
    runs conn' = runs conn ∧
    appended conn conn' ((λ r, (run_id, sentence_rowid r)) <$> rows_) perms.
Proof.
  revert w conn rng. induction rows_ as [|row rows_ IH]; intros w conn rng Hloop.
  { injection Hloop as <- <- <-. exists []. split; [done|]. split; [done|].
    apply appended_refl. }
  rewrite for_each_cons in Hloop. inv_bind Hloop. destruct a as [[w1 conn1] rng1].
  apply process_sentence_spec in Ha as (perm & Hshuffle & Hruns1 & Happ1).
  apply IH in Hloop as (perms & Hseq & Hruns & Happ).
  exists (perm :: perms). split; [|split].
  - cbn [length permutation_sequence]. rewrite Hshuffle. simpl. by rewrite Hseq.
  - by rewrite Hruns.
  - apply (appended_trans _ _ _ [_] _ [_] _ Happ1 Happ).
Qed.

Lemma select_sentences_ext conn conn1 language_ :
  sentences conn1 = sentences conn →
  select_sentences conn1 language_ = select_sentences conn language_.
Proof. unfold select_sentences. by intros ->. Qed.

Lemma run_keys_cons conn lang languages run_id :
  run_keys conn (lang :: languages) run_id =
    ((λ r, (run_id, sentence_rowid r)) <$> select_sentences conn (str_capitalize lang))
    ++ run_keys conn languages run_id.
Proof. unfold run_keys. by rewrite bind_cons. Qed.

Lemma run_keys_ext conn conn1 languages run_id :
  sentences conn1 = sentences conn →
  run_keys conn1 languages run_id = run_keys conn languages run_id.
Proof.
  intros Hs. induction languages as [|lang languages IH]; [done|].
  by rewrite !run_keys_cons, IH, (select_sentences_ext conn conn1).
Qed.

(** The loop over the configured languages: the run appends one
    Translation row and one Evaluation row per key of [run_keys], and
    draws one shuffle for each. *)
Lemma languages_loop_spec provider model translation_system evaluation_system
    run_id languages w conn (rng : G) w' conn' rng' :
  for_each languages
    (process_language provider model translation_system evaluation_system run_id)
    (w, conn, rng) = Ok (w', conn', rng') →
  ∃ perms,
    permutation_sequence (length (run_keys conn languages run_id)) rng
      = Ok (perms, rng') ∧
    runs conn' = runs conn ∧
    appended conn conn' (run_keys conn languages run_id) perms.
Proof.
  revert w conn rng. induction languages as [|lang languages IH]; intros w conn rng Hloop.
  { injection Hloop as <- <- <-. exists []. split; [done|]. split; [done|].
    apply appended_refl. }
  rewrite for_each_cons in Hloop. inv_bind Hloop. destruct a as [[w1 conn1] rng1].
  unfold process_language in Ha. cbn [fst snd] in Ha.
  apply sentences_loop_spec in Ha as (perms1 & Hseq1 & Hruns1 & Happ1).
  apply IH in Hloop as (perms2 & Hseq2 & Hruns2 & Happ2).
  rewrite (run_keys_ext conn conn1) in Hseq2, Happ2 by apply Happ1.
  exists (perms1 ++ perms2). rewrite !run_keys_cons.
  split; [|split].
  - rewrite length_app, permutation_sequence_app, length_fmap, Hseq1. simpl.
    by rewrite Hseq2.
  - by rewrite Hruns2.
  - by apply (appended_trans _ _ _ _ _ _ _ Happ1 Happ2).
Qed.

(** One model: a run is created with the next id of the runs table,
    its generator is seeded with seed + run id, and the languages are
    processed with it. *)
Lemma process_model_spec config seed_ cfg_hash model_cfg w conn w' conn' :
  process_model (G:=G) config seed_ cfg_hash model_cfg (w, conn) = Ok (w', conn') →
  let run_id := autoincrement run_rowid (runs conn) in
  let keys := run_keys conn (cfg_languages config) run_id in
  ∃ created_at perms rng',
    runs conn' =
      Table (rows (runs conn) ++
               [Run run_id created_at (cfg_provider model_cfg) (cfg_name model_cfg)
                    seed_ cfg_hash]) run_id ∧
    permutation_sequence (length keys) (Random (seed_ + run_id)) = Ok (perms, rng') ∧
    appended conn conn' keys perms.
Proof.
  unfold process_model. destruct (utcnow_isoformat w) as [created_at w1] eqn:Hnow.
  cbn [insert_run]. intros Hp. inv_bind Hp. destruct a as [[w2 conn2] rng2].
  injection Hp as <- <-.
  apply languages_loop_spec in Ha as (perms & Hseq & Hruns & Happ).
  rewrite (run_keys_ext conn) in Hseq, Happ by done.
  exists created_at, perms, rng2. split; [by rewrite Hruns|]. split; [done|].
  exact Happ.
Qed.
End pipeline_facts.

(** *** Row ids *)

Lemma foldr_max_le (l : list Z) x : x ∈ l → (x ≤ foldr Z.max 0%Z l)%Z.
Proof.
  induction l as [|y l IH]; [by intros ?%elem_of_nil|].
  intros [->|Hin]%elem_of_cons; simpl; [lia|]. apply IH in Hin. lia.
Qed.

(** AUTOINCREMENT hands out an id larger than every id in the table. *)
Lemma autoincrement_fresh {R} (rowid : R → Z) (t : table R) x :
  x ∈ rows t → (rowid x < autoincrement rowid t)%Z.
Proof.
  intros Hin. unfold autoincrement.
  apply (list_elem_of_fmap_2 rowid) in Hin. apply foldr_max_le in Hin. lia.
Qed.

Lemma foldr_max_nonneg (l : list Z) : (0 ≤ foldr Z.max 0%Z l)%Z.
Proof. induction l as [|y l IH]; simpl; lia. Qed.

Lemma foldr_max_snoc (l : list Z) x :
  foldr Z.max 0%Z (l ++ [x]) = Z.max (foldr Z.max 0%Z l) (Z.max x 0).
Proof. induction l as [|y l IH]; simpl; [lia|]. rewrite IH. lia. Qed.

(** After an insertion the next id is the following integer. *)
Lemma autoincrement_snoc {R} (rowid : R → Z) (t : table R) x :
  rowid x = autoincrement rowid t →
  autoincrement rowid (Table (rows t ++ [x]) (autoincrement rowid t))
    = (autoincrement rowid t + 1)%Z.
Proof.
  intros Hx. unfold autoincrement at 1. cbn [rows seq].
  rewrite fmap_app. change (rowid <$> [x]) with [rowid x].
  rewrite foldr_max_snoc, Hx. unfold autoincrement.
  pose proof (foldr_max_nonneg (rowid <$> rows t)). lia.
Qed.

(** *** The store invariant *)



Section pipeline_store_facts.
Context {W : Type} `{Environment W} {G : Type} `{RandomSource G}.


(** The loop over the configured models: the runs created have
    consecutive ids, starting at the next id of the runs table, and each
    appends the rows of its keys. *)
Lemma models_loop_spec config seed_ cfg_hash models w conn w' conn' :
  for_each models (process_model (G:=G) config seed_ cfg_hash) (w, conn) = Ok (w', conn') →
  ∃ new_runs perms,
    rows (runs conn') = rows (runs conn) ++ new_runs ∧
    run_rowid <$> new_runs =
      seqZ (autoincrement run_rowid (runs conn)) (Z.of_nat (length models)) ∧
    (λ r, (run_provider r, run_model r)) <$> new_runs =
      (λ m, (cfg_provider m, cfg_name m)) <$> models ∧
    appended conn conn'
      (new_runs ≫= λ r, run_keys conn (cfg_languages config) (run_rowid r)) perms.
Proof.
  revert w conn. induction models as [|model_cfg models IH]; intros w conn Hloop.
  { injection Hloop as <- <-. exists [], []. rewrite app_nil_r.
    split; [done|]. split; [done|]. split; [done|]. apply appended_refl. }
  rewrite for_each_cons in Hloop. inv_bind Hloop. destruct a as [w1 conn1].
  apply process_model_spec in Ha as (created_at & perms1 & rng1 & Hruns1 & _ & Happ1).
  apply IH in Hloop as (new_runs & perms2 & Hruns2 & Hids & Hnames & Happ2).
  set (run_id := autoincrement run_rowid (runs conn)) in *.
  set (r1 := Run run_id created_at (cfg_provider model_cfg) (cfg_name model_cfg)
                 seed_ cfg_hash) in *.
  assert (autoincrement run_rowid (runs conn1) = (run_id + 1)%Z) as Hnext.
  { rewrite Hruns1. by apply (autoincrement_snoc run_rowid (runs conn) r1). }
  exists (r1 :: new_runs), (perms1 ++ perms2). split; [|split; [|split]].
  - rewrite Hruns2, Hruns1. cbn [rows]. by rewrite <- (assoc_L (++)).
  - rewrite fmap_cons, Hids, Hnext. cbn [length run_rowid r1].
    rewrite (seqZ_cons run_id) by lia. do 2 f_equal; lia.
  - by rewrite !fmap_cons, Hnames.
  - rewrite bind_cons. apply (appended_trans _ _ _ _ _ _ _ Happ1).
    assert ((new_runs ≫= λ r, run_keys conn (cfg_languages config) (run_rowid r)) =
            (new_runs ≫= λ r, run_keys conn1 (cfg_languages config) (run_rowid r)))
      as ->; [|done].
    clear -Happ1. induction new_runs as [|r new_runs IHr]; [done|].
    rewrite !bind_cons, IHr. f_equal. symmetry. apply run_keys_ext, Happ1.
Qed.
End pipeline_store_facts.

(** *** Counting the rows of a run *)



Lemma elem_of_select_sentences conn language_ r :
  r ∈ select_sentences conn language_ ↔
  language r = language_ ∧ r ∈ rows (sentences conn).
Proof.
  unfold select_sentences. by rewrite merge_sort_Permutation, list_elem_of_filter.
Qed.

Section pipeline_count_facts.
Context {W : Type} `{Environment W} {G : Type} `{RandomSource G}.

Lemma elem_of_run_keys conn languages run_id k :
  k ∈ run_keys conn languages run_id ↔
  ∃ lang r, lang ∈ languages ∧ r ∈ rows (sentences conn) ∧
    language r = str_capitalize lang ∧ k = (run_id, sentence_rowid r).
Proof.
  unfold run_keys. rewrite list_elem_of_bind. split.
  - intros (lang & (r & -> & Hr)%list_elem_of_fmap & Hlang).
    apply elem_of_select_sentences in Hr as [Hl Hr]. by exists lang, r.
  - intros (lang & r & Hlang & Hr & Hl & ->). exists lang. split; [|done].
    apply list_elem_of_fmap. exists r. split; [done|].
    by apply elem_of_select_sentences.
Qed.


End pipeline_count_facts.

Section pipeline_theorems.
Context {W : Type} `{Environment W} {G : Type} `{RandomSource G}.



(** C4: reproducibility. (1) Two calls of prepare_blind_labels on
    generators in the same state return the same provenance map and
    leave the generators in the same state, whatever the texts are, and
    with the same texts they return the same labels too. (2) The
    generator of a run is Random(seed + run id), with the configured
    seed and the id the run receives, and the provenance maps the run
    stores are, in order, those of the permutation sequence of that
    generator: they are a function of the seed, the run id and the
    number of sentences alone. *)
Theorem run_permutations_reproducible :
  (∀ (rng : G) gpt google human gpt' google' human'
      labels mapping rng1 labels' mapping' rng1',
     prepare_blind_labels rng gpt google human = Ok (labels, mapping, rng1) →
     prepare_blind_labels rng gpt' google' human' = Ok (labels', mapping', rng1') →
     mapping = mapping' ∧ rng1 = rng1' ∧
     ((gpt, google, human) = (gpt', google', human') → labels = labels')) ∧
  (∀ config seed_ cfg_hash model_cfg w conn w' conn',
     process_model (G:=G) config seed_ cfg_hash model_cfg (w, conn) = Ok (w', conn') →
     let run_id := autoincrement run_rowid (runs conn) in
     ∃ es perms rng',
       rows (evaluations conn') = rows (evaluations conn) ++ es ∧
       Forall (λ e, evaluation_run_id e = run_id) es ∧
       permutation_sequence (length es) (Random (seed_ + run_id)) = Ok (perms, rng') ∧
       mapping_json <$> es = mapping_text <$> perms).
Proof.
  split.
  - intros rng gpt google human gpt' google' human'
      labels mapping rng1 labels' mapping' rng1' H1 H2.
    pose proof (prepare_blind_labels_mapping _ _ _ _ _ _ _ H1) as [Hs1 Hk1].
    pose proof (prepare_blind_labels_mapping _ _ _ _ _ _ _ H2) as [Hs2 Hk2].
    rewrite Hs1 in Hs2. injection Hs2 as Hv <-.
    split; [|split; [done|]].
    + rewrite <- (zip_fst_snd mapping), <- (zip_fst_snd mapping').
      unfold dict_keys, dict_values in *. by rewrite Hk1, Hk2, Hv.
    + intros [= <- <- <-]. rewrite H1 in H2. by injection H2.
  - intros config seed_ cfg_hash model_cfg w conn w' conn' Hp run_id.
    apply process_model_spec in Hp
      as (created_at & perms & rng' & _ & Hseq & _ & ts & es & _ & He & _ & Hke & Hm).
    exists es, perms, rng'. split; [done|]. fold run_id in Hseq, Hke.
    assert (length es = length (run_keys conn (cfg_languages config) run_id)) as Hlen
      by (by rewrite <- Hke, length_fmap).
    split; [|by rewrite Hlen].
    apply Forall_forall. intros e Hin.
    apply (list_elem_of_fmap_2 evaluation_key) in Hin. rewrite Hke in Hin.
    apply elem_of_run_keys in Hin as (? & ? & _ & _ & _ & Hk).
    by injection Hk.
Qed.
End pipeline_theorems.

Section stored_mapping.
Context {W : Type} `{Environment W} {G : Type} `{RandomSource G}.

(** The stored text of a provenance map decodes to that map. *)
Lemma mapping_text_loads perm :
  perm ≡ₚ categories →
  json_loads (mapping_text perm) = Ok (py_of_mapping (zip blind_labels perm)) ∧
  is_bijection (zip blind_labels perm).
Proof.
  intros Hp. pose proof (Permutation_length Hp) as Hlen.
  destruct perm as [|a [|b [|c [|]]]]; try done. clear Hlen.
  assert (NoDup [a; b; c]) as Hnd by (rewrite Hp; apply categories_NoDup).
  assert (a ∈ categories ∧ b ∈ categories ∧ c ∈ categories) as (Ha & Hb & Hc).
  { rewrite <- Hp. repeat split; repeat constructor. }
  split; [|split; [reflexivity | exact Hp]].
  apply NoDup_cons in Hnd as [Hab Hnd]. apply NoDup_cons in Hnd as [Hbc _].
  apply not_elem_of_cons in Hab as [Hab Hac]. apply not_elem_of_cons in Hac as [Hac _].
  apply not_elem_of_cons in Hbc as [Hbc _].
  unfold categories in Ha, Hb, Hc.
  repeat match goal with
         | H : _ ∈ _ :: _ |- _ => apply elem_of_cons in H as [->|H]
         | H : _ ∈ [] |- _ => by apply elem_of_nil in H
         end; try done; by vm_compute.
Qed.
Lemma Forall_fmap_eq {A B C} (f : A → C) (g : B → C) (P : B → Prop) l k :
  f <$> l = g <$> k → Forall P k → Forall (λ a, ∃ b, f a = g b ∧ P b) l.
Proof.
  revert k. induction l as [|a l IH]; intros [|b k]; try done.
  intros [= Hab Hlk] [Hb Hk]%Forall_cons. constructor; eauto.
Qed.

(** The invariant of the data model: every Evaluation row that a run
    stores carries a provenance map that decodes to a bijection between
    the labels and the categories. *)
Lemma process_model_stores_bijections config seed_ cfg_hash model_cfg w conn w' conn' :
  process_model (G:=G) config seed_ cfg_hash model_cfg (w, conn) = Ok (w', conn') →
  ∃ es,
    rows (evaluations conn') = rows (evaluations conn) ++ es ∧
    Forall (λ e, ∃ mapping,
              json_loads (mapping_json e) = Ok (py_of_mapping mapping) ∧
              is_bijection mapping) es.
Proof.
  intros Hp. apply process_model_spec in Hp
    as (created_at & perms & rng' & _ & Hseq & _ & ts & es & _ & He & _ & _ & Hm).
  exists es. split; [done|].
  destruct (permutation_sequence_total
              (length (run_keys conn (cfg_languages config)
                         (autoincrement run_rowid (runs conn))))
              (Random (seed_ + autoincrement run_rowid (runs conn))))
    as (perms' & rng'' & Hseq' & _ & Hall).
  rewrite Hseq in Hseq'. injection Hseq' as <- <-.
  eapply Forall_impl; [apply (Forall_fmap_eq _ _ _ _ _ Hm Hall)|].
  intros e (perm & -> & Hperm). exists (zip blind_labels perm).
  by apply mapping_text_loads.
Qed.
End stored_mapping.


Example run_pipeline_language_twice_rows :
  (λ conn', (length (translations_of conn' 1 1), length (evaluations_of conn' 1 1)))
    <$> (snd <$> run_pipeline (G:=N) (stub_config [lit "Finnish"; lit "Finnish"]) None 0)
  = Ok (2, 2).
Proof. vm_compute. reflexivity. Qed.

(** What the amended statement leaves out: load_seed_data stores a
    sentence under the name its seed row gives, and the run selects by the
    capitalized configured name. With the language finnish and a seed row
    of the language finnish, the run stores the sentence and processes
    none: it adds no Translation and no Evaluation row. *)
Example run_pipeline_uncapitalized_language_skipped :
  (λ conn', (length (rows (runs conn')), language <$> rows (sentences conn'),
             length (rows (translations conn')), length (rows (evaluations conn'))))
    <$> (snd <$> run_pipeline (H:=lowercase_environment) (G:=N)
                   (stub_config [lit "finnish"]) None 0)
  = Ok (1, [lit "finnish"], 0, 0).
Proof. vm_compute. reflexivity. Qed.

(** ** The theorems at concrete inputs *)

Lemma parse_scores_recovers_scores_witness :
  json_loads example_evaluation_json = Ok (PDict example_evaluation) ∧
  json_loads example_mapping_json = Ok (py_of_mapping example_mapping) ∧
  is_bijection example_mapping ∧
  ∃ scores,
    parse_scores example_evaluation_json example_mapping_json = Ok scores ∧
    dict_keys scores = categories ∧
    ∀ category, category ∈ categories →
      ∃ label, label ∈ blind_labels ∧
        dict_get example_mapping label = Some category ∧
        dict_get scores category =
          Some (default PNone (dict_get example_evaluation (score_key label))).
Proof.
  assert (is_bijection example_mapping) as Hb.
  { split; [reflexivity | apply perm_swap]. }
  split; [vm_compute; reflexivity|]. split; [vm_compute; reflexivity|].
  split; [exact Hb|].
  apply (parse_scores_recovers_scores example_evaluation example_mapping);
    [vm_compute; reflexivity | vm_compute; reflexivity | exact Hb].
Defined.

Example parse_scores_example :
  parse_scores example_evaluation_json example_mapping_json =
  Ok [(GPT, PFloat (lit "0.8")); (Google, PFloat (lit "0.9")); (Human, PFloat (lit "0.7"))].
Proof. vm_compute. reflexivity. Qed.

Lemma insert_sentence_idempotent_witness :
  sentences_unique example_connection ∧
  ∃ id conn1 conn2,
    insert_sentence example_connection (lit "Finnish") (lit "She let him go.")
      (lit "h1") (lit "g1") = Ok (id, conn1) ∧
    insert_sentence conn1 (lit "Finnish") (lit "She let him go.")
      (lit "h2") (lit "g2") = Ok (id, conn2) ∧
    length (sentences_with conn1 (lit "Finnish") (lit "She let him go.")) = 1 ∧
    length (sentences_with conn2 (lit "Finnish") (lit "She let him go.")) = 1 ∧
    rows (sentences conn2) = rows (sentences conn1).
Proof.
  assert (sentences_unique example_connection) as Hu.
  { apply (bool_decide_unpack _). vm_compute. reflexivity. }
  split; [exact Hu|].
  apply (insert_sentence_idempotent example_connection); exact Hu.
Defined.

Lemma insert_sentence_first_writer_wins_witness :
  sentences_unique example_connection ∧
  example_sentence ∈ rows (sentences example_connection) ∧
  ∃ conn',
    insert_sentence example_connection (language example_sentence)
      (original_text example_sentence) (lit "another reference") (lit "another baseline")
      = Ok (sentence_rowid example_sentence, conn') ∧
    rows (sentences conn') = rows (sentences example_connection) ∧
    sentences_with conn' (language example_sentence) (original_text example_sentence)
      = [example_sentence] ∧
    runs conn' = runs example_connection ∧
    translations conn' = translations example_connection ∧
    evaluations conn' = evaluations example_connection.
Proof.
  assert (sentences_unique example_connection) as Hu.
  { apply (bool_decide_unpack _). vm_compute. reflexivity. }
  assert (example_sentence ∈ rows (sentences example_connection)) as Hin.
  { simpl. apply list_elem_of_here. }
  split; [exact Hu|]. split; [exact Hin|].
  apply (insert_sentence_first_writer_wins example_connection example_sentence);
    [exact Hu | exact Hin].
Defined.


(** The end-to-end scenario: one stored sentence, a model service that
    answers the translation call and then the scoring call with the
    scores 0.9, 0.8, 0.7 for A, B, C. The stored Evaluation, read back
    through its provenance map, reports for each category the score of the
    label that the generator of the run assigned to it. *)
Example end_to_end_scenario :
  match run_pipeline (G:=N) (stub_config [lit "finnish"]) None 0 with
  | Ok (_, conn') =>
      map (λ e, (mapping_json e, parse_scores (evaluation_json e) (mapping_json e)))
        (rows (evaluations conn'))
  | Raise _ => []
  end =
  [(jlit "{'A': 'GPT', 'B': 'Human', 'C': 'Google'}",
    Ok [(GPT, PFloat (lit "0.9")); (Google, PFloat (lit "0.7")); (Human, PFloat (lit "0.8"))])].
Proof. vm_compute. reflexivity. Qed.

(** ** generate_tables.main: from the fetched rows to the table *)


Section aggregation_facts.
Context {F : Type} `{FloatOps F}.

Lemma holds_ext accum (L L' : group_key → str → list F) :
  (∀ key c, c ∈ categories → L key c = L' key c) → holds accum L → holds accum L'.
Proof.
  intros Hext (Hnd & Hsome & Hnone & Hscore). split; [done|]. split; [|split].
  - intros key vals Hg. destruct (Hsome key vals Hg) as [Hk Hv]. split; [done|].
    intros c Hc. rewrite <- Hext by done. by apply Hv.
  - intros key Hg c Hc. rewrite <- Hext by done. by apply Hnone.
  - intros key Hg. destruct (Hscore key Hg) as (c & Hc & Hne).
    exists c. split; [done|]. by rewrite <- Hext.
Qed.

Lemma holds_nil : holds [] (λ _ _, @nil F).
Proof.
  split; [apply NoDup_nil_2|]. split; [done|]. split; [done|].
  by intros key [? ?].
Qed.

Lemma new_vals_get c : c ∈ categories → dict_get (@new_vals F) c = Some [].
Proof.
  unfold categories. intros Hc.
  repeat (apply elem_of_cons in Hc as [->|Hc]; [done|]). by apply elem_of_nil in Hc.
Qed.

(** [accum[key][c].append(x)] adds [x] to the list of [c] in the group
    [key], creating the group if needed. *)
Lemma accum_append_holds accum (L : group_key → str → list F) key c x :
  holds accum L → c ∈ categories →
  ∃ accum',
    accum_append accum key c x = Ok accum' ∧
    holds accum' (λ key' c', if decide (key' = key ∧ c' = c) then L key c ++ [x]
                              else L key' c').
Proof.
  intros (Hnd & Hsome & Hnone & Hscore) Hc. unfold accum_append.
  assert (dict_keys (@new_vals F) = categories) as Hnk by done.
  pose proof new_vals_get as Hng.
  generalize dependent (@new_vals F). intros nv Hnk Hng.
  assert (∀ accum1 : list (group_key * dict (list F)),
            (∀ key', key ≠ key' → is_Some (dict_get accum1 key') →
                     is_Some (dict_get accum key')) →
            ∀ key', is_Some (dict_get accum1 key') →
              ∃ c', c' ∈ categories ∧
                (if decide (key' = key ∧ c' = c) then L key c ++ [x] else L key' c') ≠ [])
    as Hscore'.
  { intros accum1 Hold key' Hg'. destruct (decide (key = key')) as [<-|Hne].
    - exists c. split; [done|]. rewrite decide_True by done. by destruct (L key c).
    - destruct (Hscore key' (Hold key' Hne Hg')) as (c' & Hc' & Hne').
      exists c'. split; [done|]. by rewrite decide_False by (by intros [-> _]). }
  destruct (dict_get accum key) as [vals|] eqn:Hg.
  - destruct (Hsome key vals Hg) as [Hk Hv].
    unfold dict_getitem. rewrite (Hv c Hc). cbn [mbind result_bind].
    eexists. split; [done|]. split; [by apply dict_set_NoDup|]. split; [|split].
    + intros key' vals'. destruct (decide (key = key')) as [<-|Hne].
      * rewrite dict_get_set_eq. intros Heq. injection Heq as <-. split.
        { rewrite dict_keys_set_elem; [done|]. by rewrite Hk. }
        intros c' Hc'. destruct (decide (c = c')) as [<-|Hnec].
        { rewrite dict_get_set_eq. by rewrite decide_True. }
        rewrite dict_get_set_ne by done. rewrite decide_False by (by intros [_ ->]).
        by apply Hv.
      * rewrite dict_get_set_ne by done. intros Hg'.
        destruct (Hsome key' vals' Hg') as [Hk' Hv']. split; [done|].
        intros c' Hc'. rewrite decide_False by (by intros [-> _]). by apply Hv'.
    + intros key'. destruct (decide (key = key')) as [<-|Hne].
      * by rewrite dict_get_set_eq.
      * rewrite dict_get_set_ne by done. intros Hg' c' Hc'.
        rewrite decide_False by (by intros [-> _]). by apply Hnone.
    + apply Hscore'. intros key' Hne. by rewrite dict_get_set_ne.
  - unfold dict_getitem. rewrite (Hng c Hc). cbn [mbind result_bind].
    eexists. split; [done|]. split; [by do 2 apply dict_set_NoDup|]. split; [|split].
    + intros key' vals'. destruct (decide (key = key')) as [<-|Hne].
      * rewrite dict_get_set_eq. intros Heq. injection Heq as <-. split.
        { rewrite dict_keys_set_elem; [done|]. by rewrite Hnk. }
        intros c' Hc'. destruct (decide (c = c')) as [<-|Hnec].
        { rewrite dict_get_set_eq, decide_True by done. by rewrite (Hnone key Hg c Hc). }
        rewrite dict_get_set_ne by done. rewrite decide_False by (by intros [_ ->]).
        by rewrite (Hnone key Hg c' Hc'), Hng.
      * rewrite !dict_get_set_ne by done. intros Hg'.
        destruct (Hsome key' vals' Hg') as [Hk' Hv']. split; [done|].
        intros c' Hc'. rewrite decide_False by (by intros [-> _]). by apply Hv'.
    + intros key'. destruct (decide (key = key')) as [<-|Hne].
      * by rewrite dict_get_set_eq.
      * rewrite !dict_get_set_ne by done. intros Hg' c' Hc'.
        rewrite decide_False by (by intros [-> _]). by apply Hnone.
    + apply Hscore'. intros key' Hne. by rewrite !dict_get_set_ne.
Qed.
End aggregation_facts.

Lemma assign_score_keys score_map item scores scores' :
  assign_score score_map item scores = Ok scores' → dict_keys scores' = dict_keys scores.
Proof.
  unfold assign_score. destruct item as [label target].
  destruct target as [| | | |t| |]; simpl; try (by intros [= <-]).
  case_bool_decide as Hin; [|by intros [= <-]].
  intros [= <-]. by apply dict_keys_set_elem.
Qed.

(** Whatever the stored texts are, a result of parse_scores has the
    three categories as its keys. *)
Lemma parse_scores_keys evaluation_json mapping_json scores :
  parse_scores evaluation_json mapping_json = Ok scores → dict_keys scores = categories.
Proof.
  unfold parse_scores. intros Hp. do 6 inv_bind Hp.
  revert Hp. generalize (dict_of_pairs [(label_A, a1); (label_B, a2); (label_C, a3)]).
  intros score_map.
  assert (dict_keys (dict_of_pairs [(GPT, PNone); (Google, PNone); (Human, PNone)])
          = categories) as Hk by done.
  revert Hk. generalize (dict_of_pairs [(GPT, PNone); (Google, PNone); (Human, PNone)]).
  clear. induction a4 as [|item items IH]; intros scores0 Hk Hloop.
  { by injection Hloop as <-. }
  rewrite for_each_cons in Hloop. inv_bind Hloop.
  apply assign_score_keys in Ha. apply (IH a); [congruence | done].
Qed.

Section aggregation_loops.
Context {F : Type} `{FloatOps F}.

Lemma accumulate_score_holds accum (L : group_key → str → list F) key c v accum' :
  holds accum L → c ∈ categories →
  accumulate_score key (c, v) accum = Ok accum' →
  holds accum' (λ key' c', L key' c' ++
    (if decide (key' = key ∧ c' = c) then option_list (item_score v) else [])).
Proof.
  intros Hh Hc. unfold accumulate_score.
  assert (∀ x, float_of v = Ok x → item_score v = Some x ∨ v = PNone) as Hitem.
  { intros x Hx. unfold item_score. rewrite Hx. destruct v; auto. }
  destruct v; try (intros [= <-]; eapply holds_ext; [|exact Hh];
      intros; simpl; case_decide; by rewrite app_nil_r);
    (destruct (float_of _) as [x|e] eqn:Hx; [|done]; cbn [mbind result_bind];
     destruct (accum_append_holds accum L key c x Hh Hc) as (accum1 & -> & Hh1);
     intros [= <-]; destruct (Hitem x eq_refl) as [Hi|?]; [|done];
     eapply holds_ext; [|exact Hh1]; intros key' c' _; cbn beta;
     rewrite Hi; case_decide as Hd; [by destruct Hd as [-> ->] | by rewrite app_nil_r]).
Qed.

Lemma scores_loop_holds key (its : dict pyval) accum (L : group_key → str → list F) accum' :
  holds accum L → NoDup (dict_keys its) →
  (∀ c, c ∈ dict_keys its → c ∈ categories) →
  for_each its (accumulate_score key) accum = Ok accum' →
  holds accum' (λ key' c', L key' c' ++
    (if decide (key' = key) then option_list (dict_get its c' ≫= item_score) else [])).
Proof.
  revert accum L. induction its as [|[c v] its IH]; intros accum L Hh Hnd Hsub Hloop.
  { injection Hloop as <-. eapply holds_ext; [|exact Hh].
    intros; simpl; case_decide; by rewrite app_nil_r. }
  rewrite for_each_cons in Hloop. inv_bind Hloop.
  unfold dict_keys in Hnd, Hsub. rewrite fmap_cons in Hnd, Hsub. simpl in Hnd, Hsub.
  apply NoDup_cons in Hnd as [Hc Hnd].
  apply accumulate_score_holds with (L := L) in Ha; [|done|apply Hsub; left].
  eapply IH in Hloop; [|exact Ha|done|intros; apply Hsub; by right].
  eapply holds_ext; [|exact Hloop]. intros key' c' _. cbn beta.
  rewrite <- (assoc_L (++)). f_equal. cbn [dict_get].
  destruct (decide (key' = key)) as [->|Hne].
  - destruct (decide (c = c')) as [<-|Hnec].
    + rewrite decide_True by done.
      rewrite (proj2 (dict_get_None its c)) by done. simpl. by rewrite app_nil_r.
    + by rewrite decide_False by (by intros [_ ->]).
  - by rewrite decide_False by (by intros [? _]).
Qed.

Lemma group_scores_snoc rows r key c :
  group_scores (F:=F) (rows ++ [r]) key c =
  group_scores rows key c ++
    (if decide (key = fetched_group r) then option_list (fetched_score r c) else []).
Proof.
  unfold group_scores. rewrite filter_app, omap_app. f_equal.
  destruct (decide (key = fetched_group r)) as [->|Hne].
  - rewrite filter_cons_True by done. simpl. by destruct (fetched_score r c).
  - by rewrite filter_cons_False.
Qed.

Lemma accumulate_row_holds rows r accum accum' :
  holds accum (group_scores (F:=F) rows) →
  accumulate_row r accum = Ok accum' →
  holds accum' (group_scores (rows ++ [r])).
Proof.
  intros Hh. unfold accumulate_row. intros Hrow. inv_bind Hrow. rename a into scores.
  pose proof (parse_scores_keys _ _ _ Ha) as Hk.
  apply scores_loop_holds with (L := group_scores rows) in Hrow; [|done|..].
  - eapply holds_ext; [|exact Hrow]. intros key c _. cbn beta.
    rewrite group_scores_snoc. unfold fetched_score, fetched_group. by rewrite Ha.
  - rewrite Hk. apply categories_NoDup.
  - intros c. by rewrite Hk.
Qed.

Lemma accumulate_loop_holds done rows accum accum' :
  holds accum (group_scores (F:=F) done) →
  for_each rows accumulate_row accum = Ok accum' →
  holds accum' (group_scores (done ++ rows)).
Proof.
  revert done accum. induction rows as [|r rows IH]; intros done accum Hh Hloop.
  { injection Hloop as <-. by rewrite app_nil_r. }
  rewrite for_each_cons in Hloop. inv_bind Hloop.
  apply (accumulate_row_holds done) in Ha; [|done].
  rewrite cons_middle, (assoc_L (++)). by apply (IH _ a).
Qed.

End aggregation_loops.


Section aggregation_theorem.
Context {F : Type} `{FloatOps F}.

Lemma summary_row_holds accum (L : group_key → str → list F) key vals :
  holds accum L → (key, vals) ∈ accum →
  summary_row key vals =
    Ok (Table3Row key (mean (L key GPT)) (mean (L key Google)) (mean (L key Human))
          match mean (L key GPT), mean (L key Human) with
          | Some gpt, Some human => Some (fsub gpt human)
          | _, _ => None
          end).
Proof.
  intros (Hnd & Hsome & _ & _) Hin. apply dict_get_elem in Hin; [|done].
  destruct (Hsome key vals Hin) as [_ Hv]. unfold summary_row, dict_getitem.
  rewrite (Hv GPT), (Hv Google), (Hv Human) by (unfold categories; repeat constructor).
  done.
Qed.

End aggregation_theorem.



Example table3_example :
  match table3 (F:=Q) example_fetched with
  | Ok out => Some (map (λ row, ((row_key row).2, bias_self_minus_human row)) out)
  | Raise _ => None
  end = Some [(lit "Finnish", Some (-3 # 40)%Q); (lit "Croatian", None)].
Proof. vm_compute. reflexivity. Qed.

(** ** db.py: the four insertions *)

Lemma head_filter_key {A K} `{EqDecision K} (f : A → K) (l : list A) k :
  k ∈ f <$> l → ∃ x, head (filter (λ y, f y = k) l) = Some x ∧ x ∈ l ∧ f x = k.
Proof.
  induction l as [|a l IH]; [by intros ?%elem_of_nil|].
  rewrite fmap_cons. destruct (decide (f a = k)) as [Heq|Hne].
  - intros _. exists a. rewrite filter_cons_True by done.
    split; [done|]. split; [apply elem_of_cons; by left | done].
  - intros [?|Hin]%elem_of_cons; [done|]. destruct (IH Hin) as (x & Hh & Hx & Hk).
    exists x. rewrite filter_cons_False by done.
    split; [done|]. split; [apply elem_of_cons; by right | done].
Qed.

Lemma autoincrement_pos {R} (rowid : R → Z) (t : table R) :
  (0 < autoincrement rowid t)%Z.
Proof. unfold autoincrement. pose proof (foldr_max_nonneg (rowid <$> rows t)). lia. Qed.

Lemma autoincrement_notin {R} (rowid : R → Z) (t : table R) :
  autoincrement rowid t ∉ rowid <$> rows t.
Proof.
  intros (x & Hx & Hin)%list_elem_of_fmap.
  pose proof (autoincrement_fresh rowid t x Hin). lia.
Qed.

Lemma NoDup_snoc_fresh {R} (rowid : R → Z) (t : table R) x :
  rowid x = autoincrement rowid t →
  NoDup (rowid <$> rows t) → NoDup (rowid <$> (rows t ++ [x])).
Proof.
  intros Hx Hnd. rewrite fmap_app. apply NoDup_app. split; [done|]. split.
  - intros k Hk [->|[]%elem_of_nil]%elem_of_cons.
    rewrite Hx in Hk. by apply autoincrement_notin in Hk.
  - apply NoDup_singleton.
Qed.

(** Inserting under a key that is stored, whether once or more: nothing
    is written. *)
Lemma insert_sentence_present conn language_ original human google :
  (language_, original) ∈ sentence_key <$> rows (sentences conn) →
  ∃ row,
    row ∈ rows (sentences conn) ∧ sentence_key row = (language_, original) ∧
    insert_sentence conn language_ original human google =
      Ok (sentence_rowid row,
          Connection (runs conn)
            (Table (rows (sentences conn)) (autoincrement sentence_rowid (sentences conn)))
            (translations conn) (evaluations conn)).
Proof.
  intros Hin. destruct (head_filter_key sentence_key _ _ Hin) as (row & Hh & Hrow & Hk).
  exists row. split; [done|]. split; [done|].
  unfold insert_sentence, insert_or_ignore_sentence.
  rewrite decide_True by done. unfold select_sentence_id, fetchone. cbn [rows].
  destruct (filter _ (rows (sentences conn))) as [|x l]; [done|].
  by injection Hh as ->.
Qed.

(** What insert_sentence does in any store, whether or not the UNIQUE
    constraint holds in it. *)
Lemma insert_sentence_returns_stored_row_aux conn language_ original human google :
  ∃ id conn' row,
    insert_sentence conn language_ original human google = Ok (id, conn') ∧
    row ∈ rows (sentences conn') ∧
    sentence_rowid row = id ∧ sentence_key row = (language_, original) ∧
    (rows (sentences conn') = rows (sentences conn) ∨
     ((id ∉ sentence_rowid <$> rows (sentences conn)) ∧
      rows (sentences conn') =
        rows (sentences conn) ++ [Sentence id language_ original human google])) ∧
    runs conn' = runs conn ∧ translations conn' = translations conn ∧
    evaluations conn' = evaluations conn.
Proof.
  destruct (decide ((language_, original) ∈ sentence_key <$> rows (sentences conn)))
    as [Hin|Hnotin].
  - destruct (insert_sentence_present conn _ _ human google Hin) as (row & Hrow & Hk & ->).
    exists (sentence_rowid row). eexists. exists row.
    split; [done|]. split; [done|]. split; [done|]. split; [done|].
    split; [by left | done].
  - rewrite insert_sentence_new by done. do 3 eexists. split; [done|].
    cbn [sentences rows runs translations evaluations].
    split; [apply elem_of_app; right; by apply list_elem_of_singleton|].
    split; [done|]. split; [done|]. split; [|done].
    right. split; [apply autoincrement_notin | done].
Qed.

(** X1: insert_sentence never fails: the SELECT after the INSERT OR IGNORE
    always finds a row, so [int(row["id"])] is defined. The id returned is
    that of a stored row with the key (language, original_text); the call
    leaves every row that was stored in place, adds at most one row (the
    one given, under a fresh id) and touches no other table. No constraint
    on the store is needed. *)
Theorem insert_sentence_returns_stored_row conn language_ original human google :
  ∃ id conn' row,
    insert_sentence conn language_ original human google = Ok (id, conn') ∧
    row ∈ rows (sentences conn') ∧
    sentence_rowid row = id ∧ sentence_key row = (language_, original) ∧
    (rows (sentences conn') = rows (sentences conn) ∨
     ((id ∉ sentence_rowid <$> rows (sentences conn)) ∧
      rows (sentences conn') =
        rows (sentences conn) ++ [Sentence id language_ original human google])) ∧
    runs conn' = runs conn ∧ translations conn' = translations conn ∧
    evaluations conn' = evaluations conn.
Proof. apply insert_sentence_returns_stored_row_aux. Qed.

(** X2: insert_run hands out a fresh, positive id and stores the run under
    it: the id is larger than the id of every stored run, the row is
    appended to the runs table with the given fields, a lookup by the
    returned id finds exactly this row, and the other tables are left as
    they were. *)
Theorem insert_run_lookup conn provider model seed config_hash created_at :
  let id := (insert_run conn provider model seed config_hash created_at).1 in
  let conn' := (insert_run conn provider model seed config_hash created_at).2 in
  let row := Run id created_at provider model seed config_hash in
  (0 < id)%Z ∧
  (∀ r, r ∈ rows (runs conn) → (run_rowid r < id)%Z) ∧
  rows (runs conn') = rows (runs conn) ++ [row] ∧
  runs_with conn' id = [row] ∧
  sentences conn' = sentences conn ∧ translations conn' = translations conn ∧
  evaluations conn' = evaluations conn.
Proof.
  cbn. split; [apply autoincrement_pos|].
  split; [apply autoincrement_fresh|]. split; [done|]. split; [|done].
  unfold runs_with. cbn [runs rows]. rewrite filter_app, filter_cons_True by done.
  rewrite (filter_key_None run_rowid) by apply autoincrement_notin. done.
Qed.

(** X3: insert_translation and insert_evaluation always append: neither
    looks at the rows already stored for the (run, sentence) pair, so a
    second call for the same pair leaves two rows, with different ids, and
    neither checks that the run or the sentence exists. Each call adds
    exactly one row, under an id larger than every id of the table, and
    leaves the other tables as they were. *)
Theorem insert_translation_evaluation_append conn run_id sentence_id :
  (∀ text,
     let conn' := insert_translation conn run_id sentence_id text in
     ∃ id,
       (∀ t, t ∈ rows (translations conn) → (translation_rowid t < id)%Z) ∧
       rows (translations conn') =
         rows (translations conn) ++ [Translation id run_id sentence_id text] ∧
       length (translations_of conn' run_id sentence_id) =
         S (length (translations_of conn run_id sentence_id)) ∧
       runs conn' = runs conn ∧ sentences conn' = sentences conn ∧
       evaluations conn' = evaluations conn) ∧
  (∀ evaluation_text mapping_text,
     let conn' := insert_evaluation conn run_id sentence_id evaluation_text mapping_text in
     ∃ id,
       (∀ e, e ∈ rows (evaluations conn) → (evaluation_rowid e < id)%Z) ∧
       rows (evaluations conn') =
         rows (evaluations conn) ++
           [Evaluation id run_id sentence_id evaluation_text mapping_text] ∧
       length (evaluations_of conn' run_id sentence_id) =
         S (length (evaluations_of conn run_id sentence_id)) ∧
       runs conn' = runs conn ∧ sentences conn' = sentences conn ∧
       translations conn' = translations conn).
Proof.
  split.
  - intros text. cbn. eexists. split; [apply autoincrement_fresh|]. split; [done|].
    split; [|done]. unfold translations_of. cbn [translations rows].
    rewrite filter_app, filter_cons_True by done. rewrite length_app. cbn. lia.
  - intros evaluation_text mapping_text. cbn. eexists.
    split; [apply autoincrement_fresh|]. split; [done|].
    split; [|done]. unfold evaluations_of. cbn [evaluations rows].
    rewrite filter_app, filter_cons_True by done. rewrite length_app. cbn. lia.
Qed.

(** X4: the four insertions keep the constraints of the schema: in a
    store whose tables have pairwise distinct ids and whose sentences have
    pairwise distinct keys (language, original_text), the store after
    insert_sentence, insert_run, insert_translation or insert_evaluation
    has them too. *)
Theorem insertions_keep_constraints conn :
  primary_keys conn → sentences_unique conn →
  (∀ language_ original human google id conn',
     insert_sentence conn language_ original human google = Ok (id, conn') →
     primary_keys conn' ∧ sentences_unique conn') ∧
  (∀ provider model seed config_hash created_at,
     let conn' := (insert_run conn provider model seed config_hash created_at).2 in
     primary_keys conn' ∧ sentences_unique conn') ∧
  (∀ run_id sentence_id text,
     let conn' := insert_translation conn run_id sentence_id text in
     primary_keys conn' ∧ sentences_unique conn') ∧
  (∀ run_id sentence_id evaluation_text mapping_text,
     let conn' := insert_evaluation conn run_id sentence_id evaluation_text mapping_text in
     primary_keys conn' ∧ sentences_unique conn').
Proof.
  intros [Hr Hs Ht He] Hu. split; [|split; [|split]].
  - intros language_ original human google id conn' Hins.
    split; [|by eapply insert_sentence_unique].
    destruct (insert_sentence_returns_stored_row_aux conn language_ original human google)
      as (id' & conn1 & row & Hins' & _ & _ & _ & Hrows & Hruns & Htr & Hev).
    rewrite Hins in Hins'. injection Hins' as <- <-.
    split; rewrite ?Hruns, ?Htr, ?Hev; try done.
    destruct Hrows as [->|[Hid ->]]; [done|].
    rewrite fmap_app. apply NoDup_app. split; [done|]. split; [|apply NoDup_singleton].
    by intros k Hk [->|[]%elem_of_nil]%elem_of_cons.
  - intros provider model seed config_hash created_at. cbn. split; [|done].
    split; cbn [runs sentences translations evaluations rows]; try done.
    by apply (NoDup_snoc_fresh run_rowid).
  - intros run_id sentence_id text. cbn. split; [|done].
    split; cbn [runs sentences translations evaluations rows]; try done.
    by apply (NoDup_snoc_fresh translation_rowid).
  - intros run_id sentence_id evaluation_text mapping_text. cbn. split; [|done].
    split; cbn [runs sentences translations evaluations rows]; try done.
    by apply (NoDup_snoc_fresh evaluation_rowid).
Qed.

(** ** pipeline.load_seed_data *)

Section load_seed_data_facts.
Context {W : Type} `{Environment W}.

(** The inner loop, over the rows of one file. *)
Lemma seed_rows_loop (df : list seed_row) conn :
  ∃ conn' new,
    for_each df (λ row conn,
      '(_, conn) ← insert_sentence conn
                     (seed_language row) (seed_original_text row)
                     (seed_translation_human row) (seed_translation_google row);
      Ok conn) conn = Ok conn' ∧
    runs conn' = runs conn ∧ translations conn' = translations conn ∧
    evaluations conn' = evaluations conn ∧
    rows (sentences conn') = rows (sentences conn) ++ new ∧
    (∀ row, row ∈ df → seed_key row ∈ sentence_key <$> rows (sentences conn')) ∧
    (∀ s, s ∈ new → ∃ row, row ∈ df ∧ s = sentence_of_seed (sentence_rowid s) row) ∧
    ((∀ row, row ∈ df → seed_key row ∈ sentence_key <$> rows (sentences conn)) → new = []).
Proof.
  revert conn. induction df as [|row df IH]; intros conn.
  { exists conn, []. rewrite app_nil_r. split; [done|]. repeat split; try done.
    - by intros row ?%elem_of_nil.
    - by intros s ?%elem_of_nil. }
  rewrite for_each_cons.
  destruct (insert_sentence_returns_stored_row_aux conn
              (seed_language row) (seed_original_text row)
              (seed_translation_human row) (seed_translation_google row))
    as (id & conn1 & r1 & Hins & Hr1 & Hid & Hk & Hrows & Hruns & Htr & Hev).
  rewrite Hins. cbn [mbind result_bind].
  destruct (IH conn1) as (conn' & new & Hloop & Hruns' & Htr' & Hev' & Hrows' & Hall & Hnew & Hnone).
  rewrite Hloop.
  assert (∃ new1, rows (sentences conn1) = rows (sentences conn) ++ new1 ∧
            (∀ s, s ∈ new1 → s = sentence_of_seed (sentence_rowid s) row) ∧
            (seed_key row ∈ sentence_key <$> rows (sentences conn) → new1 = []))
    as (new1 & Hrows1 & Hnew1 & Hnone1).
  { destruct (decide (seed_key row ∈ sentence_key <$> rows (sentences conn))) as [Hin|Hnotin].
    - exists []. rewrite app_nil_r. split; [|split; [by intros s ?%elem_of_nil | done]].
      destruct (insert_sentence_present conn _ _ (seed_translation_human row)
                  (seed_translation_google row) Hin) as (r & _ & _ & Hins').
      rewrite Hins in Hins'. by injection Hins' as _ ->.
    - revert Hins. rewrite insert_sentence_new by done. intros [= <- <-].
      eexists [_]. split; [done|]. split; [|done].
      by intros s ->%list_elem_of_singleton. }
  exists conn', (new1 ++ new). split; [done|].
  split; [congruence|]. split; [congruence|]. split; [congruence|].
  split; [by rewrite Hrows', Hrows1, (assoc_L (++))|].
  split; [|split].
  - intros row' [->|Hin]%elem_of_cons; [|by apply Hall].
    rewrite Hrows', fmap_app. apply elem_of_app. left.
    unfold seed_key. rewrite <- Hk. by apply list_elem_of_fmap_2.
  - intros s [Hs|Hs]%elem_of_app.
    + exists row. split; [apply elem_of_cons; by left | by apply Hnew1].
    + destruct (Hnew s Hs) as (row' & Hin & Heq). exists row'.
      split; [apply elem_of_cons; by right | done].
  - intros Hpresent. rewrite Hnone1 by (apply Hpresent, elem_of_cons; by left).
    rewrite app_nil_l. apply Hnone. intros row' Hin. rewrite Hrows1, fmap_app.
    apply elem_of_app. left. apply Hpresent, elem_of_cons. by right.
Qed.

(** The loop over the languages, when every seed file exists. *)
Lemma load_seed_data_Ok conn seed_dir languages :
  (∀ lang, lang ∈ languages → is_Some (read_csv seed_dir lang)) →
  ∃ conn' new,
    load_seed_data conn seed_dir languages = Ok conn' ∧
    runs conn' = runs conn ∧ translations conn' = translations conn ∧
    evaluations conn' = evaluations conn ∧
    rows (sentences conn') = rows (sentences conn) ++ new ∧
    (∀ row, row ∈ seed_rows seed_dir languages →
       seed_key row ∈ sentence_key <$> rows (sentences conn')) ∧
    (∀ s, s ∈ new →
       ∃ row, row ∈ seed_rows seed_dir languages ∧
              s = sentence_of_seed (sentence_rowid s) row) ∧
    ((∀ row, row ∈ seed_rows seed_dir languages →
        seed_key row ∈ sentence_key <$> rows (sentences conn)) → new = []).
Proof.
  unfold load_seed_data, seed_rows. revert conn.
  induction languages as [|lang languages IH]; intros conn Hfiles.
  { exists conn, []. rewrite app_nil_r. split; [done|]. repeat split; try done.
    - by intros row ?%elem_of_nil.
    - by intros s ?%elem_of_nil. }
  rewrite for_each_cons, bind_cons.
  destruct (Hfiles lang) as [df Hdf]; [apply elem_of_cons; by left|].
  rewrite Hdf. cbn [default].
  destruct (seed_rows_loop df conn)
    as (conn1 & new1 & -> & Hruns1 & Htr1 & Hev1 & Hrows1 & Hall1 & Hnew1 & Hnone1).
  cbn [mbind result_bind].
  destruct (IH conn1) as (conn' & new & Hloop & Hruns' & Htr' & Hev' & Hrows' & Hall & Hnew & Hnone).
  { intros lang' Hin. apply Hfiles, elem_of_cons. by right. }
  exists conn', (new1 ++ new). split; [done|].
  split; [congruence|]. split; [congruence|]. split; [congruence|].
  split; [by rewrite Hrows', Hrows1, (assoc_L (++))|].
  split; [|split].
  - intros row [Hin|Hin]%elem_of_app; [|by apply Hall].
    rewrite Hrows', fmap_app. apply elem_of_app. left. by apply Hall1.
  - intros s [Hs|Hs]%elem_of_app.
    + destruct (Hnew1 s Hs) as (row & Hin & Heq). exists row.
      split; [apply elem_of_app; by left | done].
    + destruct (Hnew s Hs) as (row & Hin & Heq). exists row.
      split; [apply elem_of_app; by right | done].
  - intros Hpresent. rewrite Hnone1.
    2: { intros row Hin. apply Hpresent, elem_of_app. by left. }
    rewrite app_nil_l. apply Hnone. intros row Hin. rewrite Hrows1, fmap_app.
    apply elem_of_app. left. apply Hpresent, elem_of_app. by right.
Qed.

Lemma load_seed_data_missing conn seed_dir languages lang :
  lang ∈ languages → read_csv seed_dir lang = None →
  load_seed_data conn seed_dir languages = Raise FileNotFoundError.
Proof.
  unfold load_seed_data. revert conn.
  induction languages as [|lang' languages IH]; intros conn Hin Hnone.
  { by apply elem_of_nil in Hin. }
  rewrite for_each_cons.
  destruct (read_csv seed_dir lang') as [df|] eqn:Hdf; [|done].
  destruct (seed_rows_loop df conn) as (conn1 & new1 & -> & _).
  cbn [mbind result_bind]. apply IH; [|done].
  apply elem_of_cons in Hin as [->|Hin]; [congruence | done].
Qed.

Lemma load_seed_data_files conn seed_dir languages conn' :
  load_seed_data conn seed_dir languages = Ok conn' →
  ∀ lang, lang ∈ languages → is_Some (read_csv seed_dir lang).
Proof.
  intros Hload lang Hin. destruct (read_csv seed_dir lang) eqn:Hdf; [done|].
  by rewrite (load_seed_data_missing conn _ _ lang) in Hload.
Qed.

(** X5: load_seed_data fails exactly when the seed file of a configured
    language is missing, and then with FileNotFoundError: in particular no
    insertion ever fails (the seed files being tables with the four
    columns). *)
Theorem load_seed_data_raises_iff conn seed_dir languages :
  ∀ e, load_seed_data conn seed_dir languages = Raise e ↔
       e = FileNotFoundError ∧
       ∃ lang, lang ∈ languages ∧ read_csv seed_dir lang = None.
Proof.
  intros e. split.
  - intros Hload.
    assert ((∀ lang, lang ∈ languages → is_Some (read_csv seed_dir lang)) ∨
            ∃ lang, lang ∈ languages ∧ read_csv seed_dir lang = None) as [Hall|Hex].
    { clear. induction languages as [|lang languages [IH|(lang' & Hin & Hnone)]].
      - left. by intros lang ?%elem_of_nil.
      - destruct (read_csv seed_dir lang) eqn:Hdf.
        + left. intros lang' [->|Hin]%elem_of_cons; [by rewrite Hdf | by apply IH].
        + right. exists lang. split; [apply elem_of_cons; by left | done].
      - right. exists lang'. split; [apply elem_of_cons; by right | done]. }
    + destruct (load_seed_data_Ok conn seed_dir languages Hall) as (conn' & new & Hok & _).
      congruence.
    + destruct Hex as (lang & Hin & Hnone).
      rewrite (load_seed_data_missing conn _ _ lang) in Hload by done.
      injection Hload as <-. split; [done|]. by exists lang.
  - intros (-> & lang & Hin & Hnone). by apply (load_seed_data_missing conn _ _ lang).
Qed.

Lemma load_seed_data_stores_seed_rows_aux conn seed_dir languages conn' :
  load_seed_data conn seed_dir languages = Ok conn' →
  (∃ new,
     rows (sentences conn') = rows (sentences conn) ++ new ∧
     ∀ s, s ∈ new →
       ∃ row, row ∈ seed_rows seed_dir languages ∧
              s = sentence_of_seed (sentence_rowid s) row) ∧
  (∀ row, row ∈ seed_rows seed_dir languages →
     seed_key row ∈ sentence_key <$> rows (sentences conn')) ∧
  runs conn' = runs conn ∧ translations conn' = translations conn ∧
  evaluations conn' = evaluations conn.
Proof.
  intros Hload.
  destruct (load_seed_data_Ok conn seed_dir languages)
    as (conn1 & new & Hok & Hruns & Htr & Hev & Hrows & Hall & Hnew & _).
  { by eapply load_seed_data_files. }
  rewrite Hload in Hok. injection Hok as <-.
  split; [by exists new|]. done.
Qed.

(** X6: what load_seed_data writes. When it returns, the sentences that
    were stored are still there, unchanged and in place; every row of
    every seed file of a configured language is stored under its key, the
    pair of its columns language and original_text (not under the name of
    the file); every sentence added is a seed row; and no other table is
    touched. *)
Theorem load_seed_data_stores_seed_rows conn seed_dir languages conn' :
  load_seed_data conn seed_dir languages = Ok conn' →
  (∃ new,
     rows (sentences conn') = rows (sentences conn) ++ new ∧
     ∀ s, s ∈ new →
       ∃ row, row ∈ seed_rows seed_dir languages ∧
              s = sentence_of_seed (sentence_rowid s) row) ∧
  (∀ row, row ∈ seed_rows seed_dir languages →
     seed_key row ∈ sentence_key <$> rows (sentences conn')) ∧
  runs conn' = runs conn ∧ translations conn' = translations conn ∧
  evaluations conn' = evaluations conn.
Proof. apply load_seed_data_stores_seed_rows_aux. Qed.

(** X7: loading the seed data again changes no row: when load_seed_data
    has returned, a second call on the resulting store returns too and
    leaves the rows of the sentences table (ids included) and the other
    tables as they are. *)
Theorem load_seed_data_twice conn seed_dir languages conn1 :
  load_seed_data conn seed_dir languages = Ok conn1 →
  ∃ conn2,
    load_seed_data conn1 seed_dir languages = Ok conn2 ∧
    rows (sentences conn2) = rows (sentences conn1) ∧
    runs conn2 = runs conn1 ∧ translations conn2 = translations conn1 ∧
    evaluations conn2 = evaluations conn1.
Proof.
  intros Hload. pose proof (load_seed_data_files _ _ _ _ Hload) as Hfiles.
  destruct (load_seed_data_Ok conn seed_dir languages Hfiles)
    as (conn1' & new & Hok & _ & _ & _ & _ & Hall & _).
  rewrite Hload in Hok. injection Hok as <-.
  destruct (load_seed_data_Ok conn1 seed_dir languages Hfiles)
    as (conn2 & new2 & Hok2 & Hruns & Htr & Hev & Hrows & _ & _ & Hnone).
  exists conn2. split; [done|]. rewrite Hrows, (Hnone Hall), app_nil_r. done.
Qed.
End load_seed_data_facts.

(** ** pipeline.run_pipeline: the rows of an invocation *)

Section run_pipeline_facts.
Context {W : Type} `{Environment W} {G : Type} `{RandomSource G}.

(** A provider that [_call_model] does not know is only noticed when a
    model is called. *)
Lemma languages_loop_unknown_provider provider model translation_system evaluation_system
    run_id languages w conn (rng : G) :
  provider ≠ lit "openai" → provider ≠ lit "gemini" →
  for_each languages
    (process_language provider model translation_system evaluation_system run_id)
    (w, conn, rng) =
  if decide (run_keys conn languages run_id = []) then Ok (w, conn, rng)
  else Raise ValueError.
Proof.
  intros Ho Hg. induction languages as [|lang languages IH].
  { cbn. by rewrite decide_True. }
  rewrite for_each_cons, run_keys_cons.
  assert (process_language provider model translation_system evaluation_system
            run_id lang (w, conn, rng) =
          for_each (select_sentences conn (str_capitalize lang))
            (process_sentence provider model translation_system evaluation_system
               run_id lang) (w, conn, rng)) as -> by done.
  destruct (select_sentences conn (str_capitalize lang)) as [|row rows_].
  { cbn [for_each mbind result_bind fmap list_fmap app]. apply IH. }
  rewrite decide_False by done.
  rewrite for_each_cons.
  assert (process_sentence provider model translation_system evaluation_system
            run_id lang row (w, conn, rng) = Raise ValueError) as ->; [|done].
  unfold process_sentence, get_translation, _call_model.
  by rewrite !decide_False by done.
Qed.

Lemma models_loop_runs config seed_ cfg_hash models w conn w' conn' :
  for_each models (process_model (G:=G) config seed_ cfg_hash) (w, conn) = Ok (w', conn') →
  ∃ new_runs,
    rows (runs conn') = rows (runs conn) ++ new_runs ∧
    Forall2 (λ r m, run_provider r = cfg_provider m ∧ run_model r = cfg_name m ∧
                    run_seed r = seed_ ∧ run_config_hash r = cfg_hash)
      new_runs models.
Proof.
  revert w conn. induction models as [|model_cfg models IH]; intros w conn Hloop.
  { injection Hloop as <- <-. exists []. by rewrite app_nil_r. }
  rewrite for_each_cons in Hloop. apply bind_Ok in Hloop as ([w1 conn1] & Ha & Hloop).
  apply process_model_spec in Ha as (created_at & perms1 & rng1 & Hruns1 & _ & _).
  apply IH in Hloop as (new_runs & Hruns2 & Hall).
  eexists (_ :: new_runs). split.
  - rewrite Hruns2, Hruns1. cbn [rows]. by rewrite <- (assoc_L (++)).
  - by constructor.
Qed.

Lemma models_loop_bijections config seed_ cfg_hash models w conn w' conn' :
  for_each models (process_model (G:=G) config seed_ cfg_hash) (w, conn) = Ok (w', conn') →
  ∃ es,
    rows (evaluations conn') = rows (evaluations conn) ++ es ∧
    Forall (λ e, ∃ mapping,
              json_loads (mapping_json e) = Ok (py_of_mapping mapping) ∧
              is_bijection mapping) es.
Proof.
  revert w conn. induction models as [|model_cfg models IH]; intros w conn Hloop.
  { injection Hloop as <- <-. exists []. by rewrite app_nil_r. }
  rewrite for_each_cons in Hloop. apply bind_Ok in Hloop as ([w1 conn1] & Ha & Hloop).
  apply process_model_stores_bijections in Ha as (es1 & Hes1 & Hall1).
  apply IH in Hloop as (es2 & Hes2 & Hall2).
  exists (es1 ++ es2). split; [by rewrite Hes2, Hes1, (assoc_L (++))|].
  by apply Forall_app.
Qed.

(** What an invocation that returns has done, step by step. *)
Lemma run_pipeline_inv config database w w' conn' :
  run_pipeline (G:=G) config database w = Ok (w', conn') →
  let conn0 := init_db database in
  let languages := cfg_languages config in
  ∃ conn1 new_runs old_sentences ts es,
    load_seed_data conn0 (cfg_seed_dir config) languages = Ok conn1 ∧
    sentences conn' = sentences conn1 ∧
    rows (sentences conn1) = rows (sentences conn0) ++ old_sentences ∧
    rows (runs conn') = rows (runs conn0) ++ new_runs ∧
    run_rowid <$> new_runs =
      seqZ (autoincrement run_rowid (runs conn0)) (Z.of_nat (length (cfg_models config))) ∧
    Forall2 (λ r m, run_provider r = cfg_provider m ∧ run_model r = cfg_name m ∧
                    run_seed r = default 42%Z (cfg_seed config) ∧
                    run_config_hash r = sha256_hexdigest (cfg_json config))
      new_runs (cfg_models config) ∧
    rows (translations conn') = rows (translations conn0) ++ ts ∧
    rows (evaluations conn') = rows (evaluations conn0) ++ es ∧
    translation_key <$> ts = (new_runs ≫= λ r, run_keys conn' languages (run_rowid r)) ∧
    evaluation_key <$> es = (new_runs ≫= λ r, run_keys conn' languages (run_rowid r)) ∧
    Forall (λ e, ∃ mapping,
              json_loads (mapping_json e) = Ok (py_of_mapping mapping) ∧
              is_bijection mapping) es.
Proof.
  intros Hrun conn0 languages. unfold run_pipeline in Hrun.
  apply bind_Ok in Hrun as (conn1 & Hload & Hrun).
  pose proof (load_seed_data_stores_seed_rows_aux _ _ _ _ Hload)
    as ((new & Hrows1 & _) & _ & Hruns1 & Htr1 & Hev1).
  pose proof (models_loop_spec _ _ _ _ _ _ _ _ Hrun)
    as (new_runs & perms & Hruns & Hids & _ & Hs & ts & es & Hts & Hes & Hkt & Hke & _).
  pose proof (models_loop_runs _ _ _ _ _ _ _ _ Hrun) as (new_runs' & Hruns' & Hfields).
  pose proof (models_loop_bijections _ _ _ _ _ _ _ _ Hrun) as (es' & Hes' & Hbij).
  rewrite Hruns in Hruns'. apply app_inv_head in Hruns' as <-.
  rewrite Hes in Hes'. apply app_inv_head in Hes' as <-.
  assert ((new_runs ≫= λ r, run_keys conn1 (cfg_languages config) (run_rowid r)) =
          (new_runs ≫= λ r, run_keys conn' languages (run_rowid r))) as Hkeys.
  { clear -Hs. induction new_runs as [|r new_runs IHr]; [done|].
    rewrite !bind_cons, IHr. f_equal. symmetry. by apply run_keys_ext. }
  subst conn0 languages. rewrite Hruns1 in Hruns, Hids. rewrite Htr1 in Hts.
  rewrite Hev1 in Hes. rewrite Hkeys in Hkt, Hke.
  by exists conn1, new_runs, new, ts, es.
Qed.
End run_pipeline_facts.

Section run_pipeline_theorems.
Context {W : Type} `{Environment W} {G : Type} `{RandomSource G}.

(** X8: a provider that is neither openai nor gemini is only rejected
    when a model is called. process_model first records the run; if no
    sentence is stored under the capitalized name of a configured language
    it then returns normally, the run row written and nothing else; if
    there is such a sentence, the first call of get_translation raises
    ValueError. *)
Theorem process_model_unknown_provider config seed_ cfg_hash model_cfg w conn :
  cfg_provider model_cfg ≠ lit "openai" → cfg_provider model_cfg ≠ lit "gemini" →
  let created := utcnow_isoformat w in
  let inserted :=
    insert_run conn (cfg_provider model_cfg) (cfg_name model_cfg) seed_ cfg_hash created.1 in
  ((∀ lang, lang ∈ cfg_languages config →
      select_sentences conn (str_capitalize lang) = []) →
   process_model (G:=G) config seed_ cfg_hash model_cfg (w, conn) =
     Ok (created.2, inserted.2)) ∧
  ((∃ lang, lang ∈ cfg_languages config ∧
      select_sentences conn (str_capitalize lang) ≠ []) →
   process_model (G:=G) config seed_ cfg_hash model_cfg (w, conn) = Raise ValueError).
Proof.
  intros Ho Hg created inserted. subst created inserted.
  unfold process_model. destruct (utcnow_isoformat w) as [created_at w1].
  cbn [insert_run fst snd].
  rewrite languages_loop_unknown_provider by done.
  set (conn1 := Connection _ _ _ _). set (run_id := autoincrement run_rowid (runs conn)).
  assert (run_keys conn1 (cfg_languages config) run_id = [] ↔
          ∀ lang, lang ∈ cfg_languages config →
            select_sentences conn (str_capitalize lang) = []) as Hempty.
  { rewrite (run_keys_ext conn conn1) by done. clear.
    induction (cfg_languages config) as [|lang languages IH].
    - split; [by intros _ lang ?%elem_of_nil | done].
    - rewrite run_keys_cons. split.
      + intros [Hl Hr]%app_eq_nil lang' [->|Hin]%elem_of_cons.
        * by apply fmap_nil_inv in Hl.
        * by apply IH.
      + intros Hall. rewrite (Hall lang) by (apply elem_of_cons; by left).
        apply IH. intros lang' Hin. apply Hall, elem_of_cons. by right. }
  split.
  - intros Hall. by rewrite decide_True by (by apply Hempty).
  - intros (lang & Hin & Hne). rewrite decide_False; [done|].
    intros Hnil. apply Hne. by apply Hempty.
Qed.

(** X9: the runs of an invocation. When run_pipeline returns, the runs
    table holds the runs it held, followed by one new run per configured
    model, in order; the new runs have consecutive ids, starting after the
    largest id ever used, the provider and the name of their model, and all
    of them the seed of the configuration (42 when it gives none) and the
    hash of the configuration. *)
Theorem run_pipeline_runs config database w w' conn' :
  run_pipeline (G:=G) config database w = Ok (w', conn') →
  ∃ new_runs,
    rows (runs conn') = rows (runs (init_db database)) ++ new_runs ∧
    run_rowid <$> new_runs =
      seqZ (autoincrement run_rowid (runs (init_db database)))
           (Z.of_nat (length (cfg_models config))) ∧
    Forall2 (λ r m, run_provider r = cfg_provider m ∧ run_model r = cfg_name m ∧
                    run_seed r = default 42%Z (cfg_seed config) ∧
                    run_config_hash r = sha256_hexdigest (cfg_json config))
      new_runs (cfg_models config).
Proof.
  intros Hrun. apply run_pipeline_inv in Hrun
    as (conn1 & new_runs & new & ts & es & _ & _ & _ & Hruns & Hids & Hfields & _).
  by exists new_runs.
Qed.

(** X10: the rows of an invocation. When run_pipeline returns, the
    translations and the evaluations tables hold the rows they held,
    unchanged, followed by the new rows; the new Translation rows and the
    new Evaluation rows have the same sequence of (run id, sentence id)
    pairs: for each new run in turn, for each configured language in turn
    (as often as it is listed), the sentences stored under its capitalized
    name, by id. So a pair gets a row exactly when its run is new and its
    sentence is stored under the capitalized name of a configured
    language. *)
Theorem run_pipeline_rows config database w w' conn' :
  run_pipeline (G:=G) config database w = Ok (w', conn') →
  ∃ new_runs ts es,
    rows (runs conn') = rows (runs (init_db database)) ++ new_runs ∧
    rows (translations conn') = rows (translations (init_db database)) ++ ts ∧
    rows (evaluations conn') = rows (evaluations (init_db database)) ++ es ∧
    translation_key <$> ts =
      (new_runs ≫= λ r, run_keys conn' (cfg_languages config) (run_rowid r)) ∧
    evaluation_key <$> es = translation_key <$> ts ∧
    ∀ run_id sentence_id,
      (run_id, sentence_id) ∈ translation_key <$> ts ↔
      run_id ∈ run_rowid <$> new_runs ∧
      ∃ lang s, lang ∈ cfg_languages config ∧ s ∈ rows (sentences conn') ∧
                language s = str_capitalize lang ∧ sentence_rowid s = sentence_id.
Proof.
  intros Hrun. apply run_pipeline_inv in Hrun
    as (conn1 & new_runs & new & ts & es & _ & _ & _ & Hruns & _ & _ & Hts & Hes & Hkt & Hke & _).
  exists new_runs, ts, es. split; [done|]. split; [done|]. split; [done|].
  split; [done|]. split; [congruence|].
  intros run_id sentence_id. rewrite Hkt, list_elem_of_bind. split.
  - intros (r & (lang & s & Hlang & Hs & Hl & [= -> ->])%elem_of_run_keys & Hr).
    split; [by apply list_elem_of_fmap_2|]. by exists lang, s.
  - intros [(r & -> & Hr)%list_elem_of_fmap (lang & s & Hlang & Hs & Hl & <-)].
    exists r. split; [|done]. apply elem_of_run_keys. by exists lang, s.
Qed.

(** X11: run_pipeline writes no dangling reference. The schema declares
    the run_id and sentence_id columns as foreign keys, which the engine
    does not check on the connection the pipeline opens; still, when every
    stored Translation and Evaluation row refers to a stored run and a
    stored sentence before the invocation, every row does so after it. *)
Theorem run_pipeline_foreign_keys config database w w' conn' :
  foreign_keys (init_db database) →
  run_pipeline (G:=G) config database w = Ok (w', conn') →
  foreign_keys conn'.
Proof.
  intros [Hfkt Hfke] Hrun. apply run_pipeline_inv in Hrun
    as (conn1 & new_runs & new & ts & es & _ & Hs & Hrows1 & Hruns & _ & _
        & Hts & Hes & Hkt & Hke & _).
  assert (∀ k, k ∈ (new_runs ≫= λ r, run_keys conn' (cfg_languages config) (run_rowid r)) →
            k.1 ∈ run_rowid <$> rows (runs conn') ∧
            k.2 ∈ sentence_rowid <$> rows (sentences conn')) as Hnew.
  { intros k (r & (lang & s & _ & Hin & _ & ->)%elem_of_run_keys & Hr)%list_elem_of_bind.
    cbn [fst snd]. split; [|by apply list_elem_of_fmap_2].
    rewrite Hruns, fmap_app. apply elem_of_app. right. by apply list_elem_of_fmap_2. }
  assert (∀ run_id sentence_id,
            run_id ∈ run_rowid <$> rows (runs (init_db database)) ∧
            sentence_id ∈ sentence_rowid <$> rows (sentences (init_db database)) →
            run_id ∈ run_rowid <$> rows (runs conn') ∧
            sentence_id ∈ sentence_rowid <$> rows (sentences conn')) as Hold.
  { intros run_id sentence_id [Hr Hsid]. rewrite Hruns, Hs, Hrows1, !fmap_app.
    split; apply elem_of_app; by left. }
  split.
  - intros t. rewrite Hts. intros [Ht|Ht]%elem_of_app; [by apply Hold, Hfkt|].
    apply (Hnew (translation_key t)). rewrite <- Hkt. by apply list_elem_of_fmap_2.
  - intros e. rewrite Hes. intros [He|He]%elem_of_app; [by apply Hold, Hfke|].
    apply (Hnew (evaluation_key e)). rewrite <- Hke. by apply list_elem_of_fmap_2.
Qed.

(** X12: every provenance map that an invocation stores is a bijection.
    When run_pipeline returns, the mapping_json of each Evaluation row it
    has added decodes (json.loads) to a map from the labels A, B, C onto
    the categories GPT, Google, Human. *)
Theorem run_pipeline_stores_bijections config database w w' conn' :
  run_pipeline (G:=G) config database w = Ok (w', conn') →
  ∃ es,
    rows (evaluations conn') = rows (evaluations (init_db database)) ++ es ∧
    Forall (λ e, ∃ mapping,
              json_loads (mapping_json e) = Ok (py_of_mapping mapping) ∧
              is_bijection mapping) es.
Proof.
  intros Hrun. apply run_pipeline_inv in Hrun
    as (conn1 & new_runs & new & ts & es & _ & _ & _ & _ & _ & _ & _ & Hes & _ & _ & Hbij).
  by exists es.
Qed.
End run_pipeline_theorems.

(** ** generate_tables.parse_scores: every outcome *)

Lemma dict_set_tabulate {V} (f : str → V) (l : list str) c v :
  c ∈ l → NoDup l →
  dict_set ((λ k, (k, f k)) <$> l) c v =
  (λ k, (k, if decide (k = c) then v else f k)) <$> l.
Proof.
  induction l as [|k l IH]; [by intros ?%elem_of_nil|].
  intros Hin [Hk Hnd]%NoDup_cons. cbn [fmap list_fmap dict_set].
  destruct (decide (k = c)) as [->|Hne].
  - f_equal. apply Forall_fmap_ext_1, Forall_forall. intros k Hin'.
    rewrite decide_False; [done|]. by intros ->.
  - f_equal. apply elem_of_cons in Hin as [->|Hin]; [done|]. by apply IH.
Qed.

Lemma score_map_get (eval_data : dict pyval) label :
  default PNone
    (dict_get (dict_of_pairs
       [(label_A, default PNone (dict_get eval_data (lit "translation_A_score")));
        (label_B, default PNone (dict_get eval_data (lit "translation_B_score")));
        (label_C, default PNone (dict_get eval_data (lit "translation_C_score")))]) label)
  = label_score eval_data label.
Proof.
  unfold label_score, blind_labels.
  change (dict_of_pairs ?l) with l.
  cbn [dict_get].
  destruct (decide (label_A = label)) as [<-|Ha]; [done|].
  destruct (decide (label_B = label)) as [<-|Hb]; [done|].
  destruct (decide (label_C = label)) as [<-|Hc]; [done|].
  rewrite decide_False; [done|].
  intros [->|[->|[->|[]%elem_of_nil]%elem_of_cons]%elem_of_cons]%elem_of_cons; done.
Qed.

(** The loop over the items of the map, from scores given by [f]. *)
Lemma assign_scores_loop (score_map : dict pyval) (items : list (str * pyval))
    (f : str → pyval) :
  Forall (λ item, hashable item.2) items →
  for_each items (assign_score score_map) ((λ c, (c, f c)) <$> categories) =
  Ok ((λ c, (c, match last (filter (λ item, maps_to c item) items) with
                | Some item => default PNone (dict_get score_map item.1)
                | None => f c
                end)) <$> categories).
Proof.
  revert f. induction items as [|[label target] items IH]; intros f Hall; [done|].
  apply Forall_cons in Hall as [Hh Hall]. rewrite for_each_cons.
  assert (∃ g, assign_score score_map (label, target) ((λ c, (c, f c)) <$> categories)
               = Ok ((λ c, (c, g c)) <$> categories) ∧
               ∀ c, c ∈ categories →
                 g c = if maps_to c (label, target)
                       then default PNone (dict_get score_map label) else f c)
    as (g & -> & Hg).
  { unfold assign_score, maps_to. cbn [snd].
    destruct target as [| | | |t| |]; try done;
      try (exists f; split; [done|]; by intros c _).
    cbn [py_in_keys mbind result_bind].
    assert (dict_keys ((λ c, (c, f c)) <$> categories) = categories) as ->.
    { unfold dict_keys. rewrite <- list_fmap_compose. apply list_fmap_id. }
    case_bool_decide as Hin.
    - rewrite dict_set_tabulate by (done || apply categories_NoDup).
      eexists. split; [done|]. intros c _. cbn beta.
      destruct (decide (c = t)) as [->|Hne].
      + by rewrite bool_decide_eq_true_2.
      + by rewrite bool_decide_eq_false_2.
    - exists f. split; [done|]. intros c Hc.
      rewrite bool_decide_eq_false_2; [done|]. by intros ->. }
  cbn [mbind result_bind]. rewrite IH by done. f_equal.
  apply Forall_fmap_ext_1, Forall_forall. intros c Hc. f_equal.
  rewrite (Hg c) by done.
  destruct (maps_to c (label, target)) eqn:Hm.
  - rewrite filter_cons_True by (by rewrite Hm).
    destruct (filter _ items) as [|item' l] eqn:Hf; [done|].
    change (last (?x :: item' :: l)) with (last (item' :: l)).
    by destruct (last (item' :: l)) eqn:Hl; [|apply last_None in Hl].
  - by rewrite filter_cons_False by (rewrite Hm; by intros []).
Qed.

Lemma parse_scores_Ok evaluation_json mapping_json
    (eval_data : dict pyval) (mapping : list (str * pyval)) :
  json_loads evaluation_json = Ok (PDict eval_data) →
  json_loads mapping_json = Ok (PDict mapping) →
  Forall (λ item, hashable item.2) mapping →
  parse_scores evaluation_json mapping_json =
    Ok ((λ c, (c, category_score eval_data mapping c)) <$> categories).
Proof.
  intros He Hm Hall. unfold parse_scores. rewrite He, Hm.
  cbn [mbind result_bind py_get py_items].
  change (dict_of_pairs [(GPT, PNone); (Google, PNone); (Human, PNone)])
    with ((λ c, (c, PNone)) <$> categories).
  rewrite assign_scores_loop by done. f_equal.
  apply Forall_fmap_ext_1, Forall_forall. intros c Hc. f_equal. unfold category_score.
  destruct (last _) as [item|]; [|done]. apply score_map_get.
Qed.

Lemma assign_scores_loop_unhashable score_map (items : list (str * pyval)) scores :
  Exists (λ item, hashable item.2 = false) items →
  for_each items (assign_score score_map) scores = Raise TypeError.
Proof.
  intros Hex. revert scores. induction Hex as [[label target] items Hx|item items _ IH];
    intros scores.
  - rewrite for_each_cons. by destruct target.
  - rewrite for_each_cons. destruct item as [label target]. unfold assign_score.
    destruct target as [| | | |t| |]; cbn [py_in_keys mbind result_bind]; try apply IH; try done.
    case_bool_decide; apply IH.
Qed.

(** X13: what parse_scores returns, for every pair of stored texts. It
    raises JSONDecodeError when one of the texts is not JSON,
    AttributeError when both are JSON and one of them is not an object,
    TypeError when both are objects and a value of the map is a list or an
    object. In every other case it returns the dict with exactly the keys
    GPT, Google, Human, in this order, in which a category holds the score
    the record has for the label of the last item of the map that is
    assigned to it, and None when no item is assigned to it, when the label
    is not A, B or C, or when the record has no score for the label; values
    of the map that are not categories are ignored. *)
Theorem parse_scores_outcome evaluation_json mapping_json :
  parse_scores evaluation_json mapping_json =
  match json_loads evaluation_json, json_loads mapping_json with
  | Ok (PDict eval_data), Ok (PDict mapping) =>
      if decide (Forall (λ item, hashable item.2) mapping)
      then Ok ((λ c, (c, category_score eval_data mapping c)) <$> categories)
      else Raise TypeError
  | Ok _, Ok _ => Raise AttributeError
  | _, _ => Raise JSONDecodeError
  end.
Proof.
  destruct (json_loads evaluation_json) as [v|e] eqn:He.
  2: { apply json_loads_Raise in He as He'. subst e. unfold parse_scores. by rewrite He. }
  destruct (json_loads mapping_json) as [m|e] eqn:Hm.
  2: { apply json_loads_Raise in Hm as Hm'. subst e. unfold parse_scores.
       rewrite He, Hm. by destruct v. }
  destruct v as [| | | | | |eval_data];
    try (unfold parse_scores; rewrite He, Hm; by destruct m).
  destruct m as [| | | | | |mapping];
    try (unfold parse_scores; by rewrite He, Hm).
  destruct (decide (Forall _ mapping)) as [Hall|Hex].
  - by apply parse_scores_Ok.
  - unfold parse_scores. rewrite He, Hm. cbn [mbind result_bind py_get py_items].
    apply assign_scores_loop_unhashable.
    apply not_Forall_Exists in Hex; [|apply _].
    eapply Exists_impl; [exact Hex|]. intros item Hitem. cbn in Hitem.
    by destruct (hashable item.2).
Qed.

(** ** generate_tables.main: the whole table *)

Section table_facts.
Context {F : Type} `{FloatOps F}.

Lemma accum_append_keys (accum : list (group_key * dict (list F))) key c x accum' :
  accum_append accum key c x = Ok accum' →
  dict_keys accum' = dict_keys accum ∨ dict_keys accum' = dict_keys accum ++ [key].
Proof.
  unfold accum_append. destruct (dict_get accum key) as [vals|] eqn:Hg.
  - intros Ha. apply bind_Ok in Ha as (l & _ & [= <-]). left.
    apply dict_keys_set_elem. apply dict_get_is_Some. by rewrite Hg.
  - intros Ha. apply bind_Ok in Ha as (l & _ & [= <-]). right.
    rewrite dict_keys_set_elem.
    + apply dict_keys_set_new. by apply dict_get_None.
    + rewrite dict_keys_set_new by (by apply dict_get_None).
      apply elem_of_app. right. by apply list_elem_of_singleton.
Qed.

Lemma scores_loop_keys key (its : dict pyval) (accum : list (group_key * dict (list F))) accum' :
  for_each its (accumulate_score key) accum = Ok accum' →
  ∃ extra, dict_keys accum' = dict_keys accum ++ extra ∧ Forall (λ k, k = key) extra.
Proof.
  revert accum. induction its as [|[c v] its IH]; intros accum Hloop.
  { injection Hloop as <-. exists []. by rewrite app_nil_r. }
  rewrite for_each_cons in Hloop. apply bind_Ok in Hloop as (accum1 & Ha & Hloop).
  apply IH in Hloop as (extra & Hk & Hall).
  assert (∃ extra1, dict_keys accum1 = dict_keys accum ++ extra1 ∧
                    Forall (λ k, k = key) extra1) as (extra1 & Hk1 & Hall1).
  { unfold accumulate_score in Ha.
    destruct v; try (apply bind_Ok in Ha as (x & _ & Ha);
                     apply accum_append_keys in Ha as [->| ->];
                     [exists []; by rewrite app_nil_r | exists [key]; by repeat constructor]).
    injection Ha as <-. exists []. by rewrite app_nil_r. }
  exists (extra1 ++ extra). rewrite Hk, Hk1, (assoc_L (++)). split; [done|].
  by apply Forall_app.
Qed.

Lemma accumulate_row_keys r (accum : list (group_key * dict (list F))) accum' :
  accumulate_row r accum = Ok accum' →
  ∃ extra, dict_keys accum' = dict_keys accum ++ extra ∧
           Forall (λ k, k = fetched_group r) extra.
Proof.
  unfold accumulate_row. intros Ha. apply bind_Ok in Ha as (scores & _ & Ha).
  by apply scores_loop_keys in Ha.
Qed.

Lemma holds_elem_of_keys (accum : list (group_key * dict (list F))) L key :
  holds accum L →
  key ∈ dict_keys accum ↔ ∃ c, c ∈ categories ∧ L key c ≠ [].
Proof.
  intros (_ & _ & Hnone & Hscore). rewrite <- dict_get_is_Some. split; [apply Hscore|].
  intros (c & Hc & Hne). apply not_eq_None_Some. intros Hg.
  by specialize (Hnone key Hg c Hc).
Qed.

Lemma has_score_group_scores rows r key :
  (∃ c, c ∈ categories ∧ group_scores (F:=F) (rows ++ [r]) key c ≠ []) ↔
  (∃ c, c ∈ categories ∧ group_scores (F:=F) rows key c ≠ []) ∨
  (key = fetched_group r ∧ has_score r).
Proof.
  unfold has_score. rewrite bool_decide_spec, Exists_exists. split.
  - intros (c & Hc & Hne). rewrite group_scores_snoc in Hne.
    destruct (group_scores rows key c) eqn:Hg.
    + right. destruct (decide (key = fetched_group r)) as [->|]; [|done].
      split; [done|]. exists c. split; [done|].
      by destruct (fetched_score r c).
    + left. exists c. by rewrite Hg.
  - intros [(c & Hc & Hne)|[-> (c & Hc & [x Hx])]].
    + exists c. split; [done|]. rewrite group_scores_snoc.
      by destruct (group_scores rows key c).
    + exists c. split; [done|]. rewrite group_scores_snoc, decide_True, Hx by done.
      by destruct (group_scores rows (fetched_group r) c).
Qed.

(** The keys of [accum] are the groups with a score, in the order of
    their first row with a score. *)
Lemma accumulate_loop_keys rows (accum : list (group_key * dict (list F))) :
  for_each rows accumulate_row [] = Ok accum →
  dict_keys accum = scoring_groups (F:=F) rows.
Proof.
  revert accum. induction rows as [|r rows IH] using rev_ind; intros accum Hloop.
  { by injection Hloop as <-. }
  rewrite for_each_app in Hloop. apply bind_Ok in Hloop as (accum1 & Hloop1 & Hloop).
  cbn [for_each] in Hloop. apply bind_Ok in Hloop as (accum2 & Hrow & [= ->]).
  pose proof (IH _ Hloop1) as Hk1.
  pose proof (accumulate_loop_holds [] rows [] accum1 holds_nil Hloop1) as Hh1.
  rewrite app_nil_l in Hh1.
  pose proof (accumulate_row_holds rows r accum1 accum Hh1 Hrow) as Hh.
  pose proof (accumulate_row_keys r accum1 accum Hrow) as (extra & Hk & Hextra).
  unfold scoring_groups. rewrite foldl_app. cbn [foldl]. fold (scoring_groups (F:=F) rows).
  rewrite <- Hk1, Hk.
  assert (NoDup (dict_keys accum)) as Hnd by apply Hh. rewrite Hk in Hnd.
  apply NoDup_app in Hnd as (_ & Hdisj & Hnd2).
  pose proof (holds_elem_of_keys accum _ (fetched_group r) Hh) as Hin.
  rewrite has_score_group_scores, <- (holds_elem_of_keys accum1 _ _ Hh1), Hk in Hin.
  destruct extra as [|k extra].
  - rewrite app_nil_r in *. destruct (has_score r) eqn:Hs; [|done].
    rewrite bool_decide_eq_false_2; [done|].
    intros Hnotin. apply Hnotin. apply Hin. by right.
  - apply Forall_cons in Hextra as [-> Hextra].
    destruct extra as [|k extra].
    + assert (fetched_group r ∉ dict_keys accum1) as Hnotin.
      { intros Hin1. apply (Hdisj _ Hin1). by left. }
      rewrite (bool_decide_eq_true_2 _ Hnotin).
      destruct (proj1 Hin) as [?|[_ Hs]]; [apply elem_of_app; right; by left|done|].
      apply Is_true_true in Hs. by rewrite Hs.
    + apply Forall_cons in Hextra as [-> _]. apply NoDup_cons in Hnd2 as [Hnd2 _].
      exfalso. apply Hnd2. by left.
Qed.
End table_facts.

Section table_theorems.
Context {F : Type} `{FloatOps F}.

Lemma summary_loop_Ok (accum : list (group_key * dict (list F))) L :
  holds accum L →
  ∀ suffix rows0, suffix `suffix_of` accum →
    for_each suffix (λ '(key, vals) rows,
      row ← summary_row key vals; Ok (rows ++ [row])) rows0 =
    Ok (rows0 ++ ((λ kv, Table3Row kv.1 (mean (L kv.1 GPT)) (mean (L kv.1 Google))
                           (mean (L kv.1 Human))
                           match mean (L kv.1 GPT), mean (L kv.1 Human) with
                           | Some gpt, Some human => Some (fsub gpt human)
                           | _, _ => None
                           end) <$> suffix)).
Proof.
  intros Hh suffix. induction suffix as [|[key vals] suffix IH]; intros rows0 Hsuf.
  { cbn. by rewrite app_nil_r. }
  rewrite for_each_cons.
  rewrite (summary_row_holds accum L key vals Hh).
  2: { destruct Hsuf as [pre ->]. apply elem_of_app. right. by left. }
  cbn [mbind result_bind]. rewrite IH.
  - by rewrite fmap_cons, <- (assoc_L (++)).
  - by eapply suffix_cons_l.
Qed.

Lemma scores_loop_Ok key (its : dict pyval) accum (L : group_key → str → list F) :
  holds accum L → (∀ c, c ∈ dict_keys its → c ∈ categories) →
  Forall (λ item, item.2 = PNone ∨ ∃ x : F, float_of item.2 = Ok x) its →
  ∃ accum' L', for_each its (accumulate_score key) accum = Ok accum' ∧ holds accum' L'.
Proof.
  revert accum L. induction its as [|[c v] its IH]; intros accum L Hh Hsub Hall.
  { by exists accum, L. }
  apply Forall_cons in Hall as [Hv Hall]. rewrite for_each_cons.
  assert (c ∈ categories) as Hc by (apply Hsub; by left).
  assert (∃ accum1 L1, accumulate_score key (c, v) accum = Ok accum1 ∧ holds accum1 L1)
    as (accum1 & L1 & -> & Hh1).
  { destruct Hv as [Hv|[x Hx]]; cbn [snd] in *.
    - subst v. by exists accum, L.
    - unfold accumulate_score.
      destruct (accum_append_holds accum L key c x Hh Hc) as (accum1 & Ha & Hh1).
      destruct v; [by exists accum, L|..]; rewrite Hx; cbn [mbind result_bind];
        rewrite Ha; by eexists _, _. }
  cbn [mbind result_bind]. apply (IH accum1 L1); [done| |done].
  intros c' Hc'. apply Hsub. by right.
Qed.

Lemma accumulate_row_eq (r : fetched) (accum : list (group_key * dict (list F))) :
  accumulate_row r accum =
  parse_scores (fetched_evaluation_json r) (fetched_mapping_json r)
    ≫= λ scores, for_each scores (accumulate_score (fetched_group r)) accum.
Proof. done. Qed.

Lemma accumulate_loop_Ok rows accum (L : group_key → str → list F) :
  holds accum L → Forall (readable (F:=F)) rows →
  ∃ accum', for_each rows accumulate_row accum = Ok accum'.
Proof.
  revert accum L. induction rows as [|r rows IH]; intros accum L Hh Hall.
  { by exists accum. }
  apply Forall_cons in Hall as [(scores & Hp & Hscores) Hall]. rewrite for_each_cons.
  rewrite accumulate_row_eq, Hp. cbn [mbind result_bind].
  destruct (scores_loop_Ok (fetched_group r) scores accum L Hh)
    as (accum1 & L1 & -> & Hh1); [|done|].
  { intros c. by rewrite (parse_scores_keys _ _ _ Hp). }
  cbn [mbind result_bind]. by apply (IH accum1 L1).
Qed.

Lemma scores_loop_readable key (its : dict pyval) (accum accum' : list (group_key * dict (list F))) :
  for_each its (accumulate_score key) accum = Ok accum' →
  Forall (λ item, item.2 = PNone ∨ ∃ x : F, float_of item.2 = Ok x) its.
Proof.
  revert accum. induction its as [|[c v] its IH]; intros accum Hloop; [done|].
  rewrite for_each_cons in Hloop. apply bind_Ok in Hloop as (accum1 & Ha & Hloop).
  constructor; [|by eapply IH]. cbn [snd]. unfold accumulate_score in Ha.
  destruct v; [by left|..]; right; apply bind_Ok in Ha as (x & Hx & _); by exists x.
Qed.

Lemma accumulate_loop_readable rows (accum accum' : list (group_key * dict (list F))) :
  for_each rows accumulate_row accum = Ok accum' → Forall (readable (F:=F)) rows.
Proof.
  revert accum. induction rows as [|r rows IH]; intros accum Hloop; [done|].
  rewrite for_each_cons in Hloop. apply bind_Ok in Hloop as (accum1 & Ha & Hloop).
  constructor; [|by eapply IH]. unfold accumulate_row in Ha.
  apply bind_Ok in Ha as (scores & Hp & Ha). exists scores. split; [done|].
  by eapply scores_loop_readable.
Qed.

(** X14: the table, as a function of the fetched rows. The aggregation
    returns exactly when every fetched row can be read: its two texts
    parse (parse_scores returns) and each score that is not None converts
    to a float. The table then has one row for each group (run id,
    provider, model, language) in which some evaluation has a score, the
    groups in the order of their first row with a score; the row holds,
    for GPT, Google and Human, the mean of the scores of the group, None
    for a category without score, and as bias the GPT mean minus the Human
    mean, None when one of the two is None. *)
Theorem table3_rows (rows : list fetched) :
  (Forall (readable (F:=F)) rows →
   table3 rows = Ok (group_row rows <$> scoring_groups (F:=F) rows)) ∧
  (∀ out : list (table3_row F), table3 rows = Ok out → Forall (readable (F:=F)) rows).
Proof.
  split.
  - intros Hall. unfold table3.
    destruct (accumulate_loop_Ok rows [] _ holds_nil Hall) as (accum & Hloop).
    rewrite Hloop. cbn [mbind result_bind].
    pose proof (accumulate_loop_holds [] rows [] accum holds_nil Hloop) as Hh.
    rewrite app_nil_l in Hh.
    rewrite (summary_loop_Ok accum _ Hh accum []) by done.
    rewrite app_nil_l, <- (accumulate_loop_keys rows accum Hloop).
    unfold dict_keys. by rewrite <- list_fmap_compose.
  - intros out Ht. unfold table3 in Ht. apply bind_Ok in Ht as (accum & Hloop & _).
    by eapply accumulate_loop_readable.
Qed.

(** X15: an evaluation without scores leaves no trace in the table. Let
    the evaluation of a fetched row be an object that holds no score for
    A, B or C (none of the three keys, or null: the record stored for a
    reply that could not be parsed is one), and its map an object whose
    values are not lists or objects. Then the table is the one computed
    without this row, whatever the other rows are: the row is not counted
    in any mean, gives its group no row of its own, and raises nothing. *)
Theorem table3_skips_evaluation_without_scores
    (rows1 rows2 : list fetched) (r : fetched)
    (eval_data : dict pyval) (mapping : list (str * pyval)) :
  json_loads (fetched_evaluation_json r) = Ok (PDict eval_data) →
  (∀ label, label ∈ blind_labels →
     default PNone (dict_get eval_data (score_key label)) = PNone) →
  json_loads (fetched_mapping_json r) = Ok (PDict mapping) →
  Forall (λ item, hashable item.2) mapping →
  table3 (F:=F) (rows1 ++ r :: rows2) = table3 (rows1 ++ rows2).
Proof.
  intros He Hnone Hm Hall. unfold table3. f_equal.
  rewrite !for_each_app.
  destruct (for_each rows1 accumulate_row []) as [accum|e]; [|done].
  cbn [mbind result_bind]. rewrite for_each_cons.
  assert (accumulate_row (F:=F) r accum = Ok accum) as ->; [|done].
  rewrite accumulate_row_eq, (parse_scores_Ok _ _ eval_data mapping) by done.
  cbn [mbind result_bind].
  assert (∀ c, category_score eval_data mapping c = PNone) as Hc.
  { intros c. unfold category_score. destruct (last _) as [item|]; [|done].
    unfold label_score. case_decide; [by apply Hnone | done]. }
  cbn [fmap list_fmap categories for_each accumulate_score]. by rewrite !Hc.
Qed.
End table_theorems.

(** ** methodology.parse_json_response: the cleaning only deletes *)

Lemma lstrip_sublist s : lstrip s `sublist_of` s.
Proof.
  destruct (lstrip_suffix s) as [pre Hs]. rewrite Hs at 2. by apply sublist_inserts_l.
Qed.

Lemma rstrip_sublist s : rstrip s `sublist_of` s.
Proof.
  destruct (rstrip_prefix s) as [suf Hs]. rewrite Hs at 2. by apply sublist_inserts_r.
Qed.

Lemma str_strip_sublist s : str_strip s `sublist_of` s.
Proof.
  unfold str_strip. etrans; [apply rstrip_sublist | apply lstrip_sublist].
Qed.

Lemma replace_scan_sublist old k s : replace_scan old [] k s `sublist_of` s.
Proof.
  revert k. induction s as [|c s IH]; intros k; [done|].
  cbn [replace_scan]. destruct k as [|k]; [|by apply sublist_cons].
  destruct (startswith (c :: s) old).
  - rewrite app_nil_l. by apply sublist_cons.
  - by apply sublist_skip.
Qed.

Lemma str_replace_sublist s old : old ≠ [] → str_replace s old [] `sublist_of` s.
Proof. destruct old; [done|]. intros _. apply replace_scan_sublist. Qed.

Lemma clean_response_sublist text : clean_response text `sublist_of` text.
Proof.
  unfold clean_response.
  etrans; [apply str_strip_sublist|].
  etrans; [by apply str_replace_sublist|].
  etrans; [by apply str_replace_sublist|].
  apply str_strip_sublist.
Qed.

Lemma str_find_None c s : c ∉ s → str_find s [c] = (-1)%Z.
Proof.
  induction s as [|b s IH]; [done|]. intros [Hne Hnotin]%not_elem_of_cons.
  cbn [str_find startswith]. rewrite (proj2 (N.eqb_neq c b)) by done.
  cbn [andb]. by rewrite IH.
Qed.

(** X16: the cleaning only deletes characters, and a reply without a
    brace never makes parse_json_response raise. The text handed to the
    decoder is the reply with some characters removed (none added, none
    reordered); so when the reply has no opening brace, or no closing one,
    the call returns: either the value the cleaned text decodes to, or the
    record {error: json_parse_failed, raw: ...} whose raw field is the
    reply itself, as received (not the cleaned text). *)
Theorem parse_json_response_without_braces text :
  clean_response text `sublist_of` text ∧
  (ch "{" ∉ text ∨ ch "}" ∉ text →
   ∃ v, parse_json_response text = Ok v ∧
        (json_loads (clean_response text) = Ok v ∨
         json_loads (clean_response text) = Raise JSONDecodeError ∧
         v = json_parse_failed text)).
Proof.
  split; [apply clean_response_sublist|]. intros Hbrace.
  assert (str_find (clean_response text) (lit "{") = (-1)%Z ∨
          str_rfind (clean_response text) (lit "}") = (-1)%Z) as Hfind.
  { destruct Hbrace as [Hb|Hb]; [left; apply str_find_None | right; apply str_rfind_None];
      intros Hin; apply Hb; by eapply elem_of_sublist; [|apply clean_response_sublist]. }
  destruct (json_loads (clean_response text)) as [v|e] eqn:Hl.
  - exists v. split; [by apply parse_json_response_first_parse | by left].
  - apply json_loads_Raise in Hl as He. subst e.
    exists (json_parse_failed text). split; [by apply parse_json_response_sentinel|].
    by right.
Qed.

(** ** methodology.blind_evaluate: the prompt names no origin *)

Lemma str_find_ge s sub : (-1 ≤ str_find s sub)%Z.
Proof.
  induction s as [|c s IH]; cbn [str_find].
  - destruct (startswith [] sub); lia.
  - destruct (startswith (c :: s) sub); [lia|].
    destruct (str_find s sub =? -1)%Z; lia.
Qed.

Lemma occurs_str_find sub s : occurs sub s → str_find s sub ≠ (-1)%Z.
Proof.
  intros (pre & suf & ->). induction pre as [|c pre IH].
  - rewrite app_nil_l.
    assert (startswith (sub ++ suf) sub = true) as Hs by (apply startswith_true; by exists suf).
    destruct (sub ++ suf); cbn [str_find]; by rewrite Hs.
  - cbn [app str_find]. destruct (startswith _ sub); [done|].
    pose proof (str_find_ge (pre ++ sub ++ suf) sub).
    destruct (str_find (pre ++ sub ++ suf) sub =? -1)%Z eqn:Heq; [|lia].
    apply Z.eqb_eq in Heq. done.
Qed.

Lemma occurs_app_delim sub a d b :
  d ∉ sub → occurs sub (a ++ d :: b) → occurs sub a ∨ occurs sub b.
Proof.
  intros Hd (pre & suf & Heq). symmetry in Heq.
  apply app_eq_inv in Heq as [(k & -> & Heq)|(k & -> & Heq)].
  - destruct k as [|d' k].
    + destruct sub as [|c sub].
      * left. exists [], a. done.
      * injection Heq as -> _. exfalso. apply Hd. by left.
    + injection Heq as _ ->. right. by exists k, suf.
  - apply app_eq_inv in Heq as [(k' & -> & Heq)|(k' & -> & ->)].
    + destruct k' as [|d' k'].
      * left. exists pre, []. by rewrite !app_nil_r.
      * injection Heq as <- _. exfalso. apply Hd.
        apply elem_of_app. right. by left.
    + left. exists pre, k'. done.
Qed.

Lemma occurs_inserts_l sub k s : occurs sub s → occurs sub (k ++ s).
Proof. intros (pre & suf & ->). exists (k ++ pre), suf. by rewrite <- (assoc_L (++)). Qed.

(** A text between two literals that end, respectively begin, with a
    character that [sub] does not have. *)
Lemma occurs_between sub l d t d' r :
  d ∉ sub → d' ∉ sub →
  occurs sub ((l ++ [d]) ++ t ++ d' :: r) →
  occurs sub (l ++ [d]) ∨ occurs sub t ∨ occurs sub (d' :: r).
Proof.
  intros Hd Hd' Ho. rewrite <- (assoc_L (++)) in Ho. cbn [app] in Ho.
  apply occurs_app_delim in Ho as [Ho|Ho]; [| |done].
  - left. destruct Ho as (pre & suf & ->). exists pre, (suf ++ [d]).
    by rewrite <- !(assoc_L (++)).
  - apply occurs_app_delim in Ho as [Ho|Ho]; [by right; left| |done].
    right. right. by apply (occurs_inserts_l sub [d']).
Qed.

Lemma occurs_between_literals sub l t r :
  (∃ d, last l = Some d ∧ d ∉ sub) → (∃ d, head r = Some d ∧ d ∉ sub) →
  str_find l sub = (-1)%Z →
  occurs sub (l ++ t ++ r) → occurs sub t ∨ occurs sub r.
Proof.
  intros (d & Hl & Hd) (d' & Hr & Hd') Hfind Ho.
  apply last_Some in Hl as [l' ->]. destruct r as [|? r']; [done|]. injection Hr as ->.
  apply occurs_between in Ho as [Ho|Ho]; [|done..].
  by apply occurs_str_find in Ho.
Qed.

Lemma head_app_Some {A} (l k : list A) d : head l = Some d → head (l ++ k) = Some d.
Proof. by destruct l. Qed.

(** X17: the scoring prompt names no origin. If the name of a category
    (GPT, Google or Human) occurs in the user prompt that blind_evaluate
    sends, it occurs in the original sentence or in one of the three
    translations: the fixed text of the prompt, which presents the
    translations as A, B and C, contains none of the three names. *)
Theorem evaluation_user_prompt_blind original translation_a translation_b translation_c :
  ∀ category, category ∈ categories →
    occurs category
      (evaluation_user_prompt original translation_a translation_b translation_c) →
    occurs category original ∨ occurs category translation_a ∨
    occurs category translation_b ∨ occurs category translation_c.
Proof.
  intros category Hcat Ho. unfold evaluation_user_prompt in Ho.
  rewrite (assoc_L (++) (jlit _)), (assoc_L (++) (jlit _ ++ FD_FRAMEWORK)) in Ho.
  assert (∀ l : str, (∃ d, last l = Some d ∧ d ∉ category) ↔
            from_option (λ d, bool_decide (d ∉ category)) false (last l) = true) as Hlast.
  { intros l. destruct (last l) as [d|]; cbn.
    - rewrite bool_decide_eq_true. split; [by intros (? & [= <-] & ?) | by exists d].
    - split; [by intros (? & ? & _) | done]. }
  assert (∀ l : str, (∃ d, head l = Some d ∧ d ∉ category) ↔
            from_option (λ d, bool_decide (d ∉ category)) false (head l) = true) as Hhead.
  { intros l. destruct (head l) as [d|]; cbn.
    - rewrite bool_decide_eq_true. split; [by intros (? & [= <-] & ?) | by exists d].
    - split; [by intros (? & ? & _) | done]. }
  unfold categories in Hcat.
  repeat (apply elem_of_cons in Hcat as [->|Hcat]); [..|by apply elem_of_nil in Hcat].
  all: apply occurs_between_literals in Ho as [Ho|Ho];
    [by left
    | |apply Hlast; vm_compute; reflexivity
      |apply Hhead; vm_compute; reflexivity
      |vm_compute; reflexivity].
  all: apply occurs_between_literals in Ho as [Ho|Ho];
    [by right; left
    | |apply Hlast; vm_compute; reflexivity
      |apply Hhead; vm_compute; reflexivity
      |vm_compute; reflexivity].
  all: apply occurs_between_literals in Ho as [Ho|Ho];
    [by right; right; left
    | |apply Hlast; vm_compute; reflexivity
      |apply Hhead; vm_compute; reflexivity
      |vm_compute; reflexivity].
  all: apply occurs_between_literals in Ho as [Ho|Ho];
    [by right; right; right
    |by apply occurs_str_find in Ho
    |apply Hlast; vm_compute; reflexivity
    |apply Hhead; vm_compute; reflexivity
    |vm_compute; reflexivity].
Qed.

(** ** json.dumps then json.loads *)

(** *** Escapes *)

Lemma hex_digit_hex_char d : (d < 16)%N → hex_digit (hex_char d) = Some d.
Proof.
  intros Hd. unfold hex_digit, hex_char, is_digit.
  destruct (d <? 10)%N eqn:H10; [apply N.ltb_lt in H10 | apply N.ltb_ge in H10].
  - rewrite (proj2 (N.leb_le 48 (48 + d))), (proj2 (N.leb_le (48 + d) 57)) by lia.
    cbn [andb]. f_equal. lia.
  - rewrite (proj2 (N.leb_gt (87 + d) 57)) by lia. rewrite andb_false_r.
    rewrite (proj2 (N.leb_le 97 (87 + d))), (proj2 (N.leb_le (87 + d) 102)) by lia.
    cbn [andb]. f_equal. lia.
Qed.

Lemma decode_hex4 n :
  (n < 65536)%N →
  decode_uXXXX (hex_char ((n / 4096) `mod` 16)) (hex_char ((n / 256) `mod` 16))
               (hex_char ((n / 16) `mod` 16)) (hex_char (n `mod` 16)) = Ok n.
Proof.
  intros Hn. unfold decode_uXXXX.
  rewrite !hex_digit_hex_char by (apply N.mod_lt; lia). f_equal.
  pose proof (N.div_mod n 16). pose proof (N.div_mod (n / 16) 16).
  pose proof (N.div_mod (n / 256) 16).
  assert (n / 256 = n / 16 / 16)%N as E1 by (by rewrite N.Div0.div_div).
  assert (n / 4096 = n / 256 / 16)%N as E2 by (by rewrite N.Div0.div_div).
  assert (n / 4096 < 16)%N as Hhi by (apply N.Div0.div_lt_upper_bound; lia).
  rewrite (N.mod_small (n / 4096) 16) by done.
  rewrite E1, E2 in *. lia.
Qed.

Lemma lor_shiftl_10 k b : (b < 1024)%N → N.lor (N.shiftl k 10) b = (k * 1024 + b)%N.
Proof.
  intros Hb. rewrite <- N.lxor_lor, <- N.add_nocarry_lxor, N.shiftl_mul_pow2; [done|..].
  all: apply N.bits_inj; intros i; rewrite N.land_spec, N.bits_0;
    destruct (decide (i < 10)%N) as [Hi|Hi];
    [by rewrite N.shiftl_spec_low|];
    rewrite (N.bits_above_log2 b i), andb_false_r; [done|];
    destruct (decide (b = 0%N)) as [->|Hb0]; [simpl; lia|];
    apply N.log2_lt_pow2; [lia|];
    apply N.lt_le_trans with (2 ^ 10)%N; [done|]; apply N.pow_le_mono_r; lia.
Qed.

Lemma surrogate_pair c :
  (65536 ≤ c)%N → (c < 1114112)%N →
  let n := (c - 65536)%N in
  let s1 := N.lor 55296 (N.land (N.shiftr n 10) 1023) in
  let s2 := N.lor 56320 (N.land n 1023) in
  (55296 ≤ s1)%N ∧ (s1 ≤ 56319)%N ∧ (56320 ≤ s2)%N ∧ (s2 ≤ 57343)%N ∧
  (65536 + N.lor (N.shiftl (s1 - 55296) 10) (s2 - 56320))%N = c.
Proof.
  intros Hlo Hhi n s1 s2.
  assert (n < 1048576)%N as Hn by (subst n; lia).
  assert (N.land (N.shiftr n 10) 1023 = n / 1024)%N as E1.
  { change 1023%N with (N.ones 10). rewrite N.land_ones, N.shiftr_div_pow2.
    change (2 ^ 10)%N with 1024%N. apply N.mod_small.
    apply N.Div0.div_lt_upper_bound. lia. }
  assert (N.land n 1023 = n `mod` 1024)%N as E2.
  { change 1023%N with (N.ones 10). by rewrite N.land_ones. }
  assert (n / 1024 < 1024)%N as Hq by (apply N.Div0.div_lt_upper_bound; lia).
  assert (n `mod` 1024 < 1024)%N as Hr by (apply N.mod_lt; lia).
  assert (s1 = 55296 + n / 1024)%N as Hs1.
  { subst s1. rewrite E1. change 55296%N with (N.shiftl 54 10).
    rewrite lor_shiftl_10 by done. rewrite N.shiftl_mul_pow2. lia. }
  assert (s2 = 56320 + n `mod` 1024)%N as Hs2.
  { subst s2. rewrite E2. change 56320%N with (N.shiftl 55 10).
    rewrite lor_shiftl_10 by done. rewrite N.shiftl_mul_pow2. lia. }
  rewrite Hs1, Hs2. repeat split; try lia.
  replace (55296 + n / 1024 - 55296)%N with (n / 1024)%N by lia.
  replace (56320 + n `mod` 1024 - 56320)%N with (n `mod` 1024)%N by lia.
  rewrite lor_shiftl_10 by done. pose proof (N.div_mod n 1024). lia.
Qed.

Lemma escape_ascii_cases c :
  (c < 1114112)%N →
  (∃ e, escape_ascii c = [REVERSE_SOLIDUS; e] ∧ is_ch e "u" = false ∧
        BACKSLASH e = Some c) ∨
  (escape_ascii c = [c] ∧ (c =? QUOTE)%N = false ∧ (c =? REVERSE_SOLIDUS)%N = false ∧
   (c <? 32)%N = false) ∨
  (escape_ascii c = REVERSE_SOLIDUS :: ch "u" :: hex4 c ∧ (c < 65536)%N) ∨
  ((65536 ≤ c)%N ∧
   escape_ascii c =
     REVERSE_SOLIDUS :: ch "u" ::
       hex4 (N.lor 55296 (N.land (N.shiftr (c - 65536) 10) 1023)) ++
     REVERSE_SOLIDUS :: ch "u" :: hex4 (N.lor 56320 (N.land (c - 65536) 1023))).
Proof.
  intros Hc. unfold escape_ascii.
  destruct (c =? REVERSE_SOLIDUS)%N eqn:E1.
  { apply N.eqb_eq in E1 as ->. left. by exists REVERSE_SOLIDUS. }
  destruct (c =? QUOTE)%N eqn:E2.
  { apply N.eqb_eq in E2 as ->. left. by exists QUOTE. }
  destruct (c =? 8)%N eqn:E3.
  { apply N.eqb_eq in E3 as ->. left. by exists (ch "b"). }
  destruct (c =? 12)%N eqn:E4.
  { apply N.eqb_eq in E4 as ->. left. by exists (ch "f"). }
  destruct (c =? 10)%N eqn:E5.
  { apply N.eqb_eq in E5 as ->. left. by exists (ch "n"). }
  destruct (c =? 13)%N eqn:E6.
  { apply N.eqb_eq in E6 as ->. left. by exists (ch "r"). }
  destruct (c =? 9)%N eqn:E7.
  { apply N.eqb_eq in E7 as ->. left. by exists (ch "t"). }
  destruct ((32 <=? c)%N && (c <=? 126)%N) eqn:E8.
  { right. left. apply andb_true_iff in E8 as [Hlo%N.leb_le _].
    repeat split; try done. by apply N.ltb_ge. }
  destruct (c <? 65536)%N eqn:E9.
  { right. right. left. split; [done|]. by apply N.ltb_lt. }
  right. right. right. split; [by apply N.ltb_ge | done].
Qed.

Lemma scanstring_backslash e c R :
  is_ch e "u" = false → BACKSLASH e = Some c →
  scanstring (REVERSE_SOLIDUS :: e :: R) = prod_map (cons c) id <$> scanstring R.
Proof.
  intros Hu Hb.
  assert (scanstring (REVERSE_SOLIDUS :: e :: R) =
          if is_ch e "u" then
            match R with
            | h1 :: h2 :: h3 :: h4 :: s3 => scanstring (REVERSE_SOLIDUS :: e :: R)
            | _ => Raise JSONDecodeError
            end
          else match BACKSLASH e with
               | Some c' => prod_map (cons c') id <$> scanstring R
               | None => Raise JSONDecodeError
               end) as ->.
  { cbn [scanstring]. change (REVERSE_SOLIDUS =? QUOTE)%N with false.
    change (REVERSE_SOLIDUS =? REVERSE_SOLIDUS)%N with true. cbv iota.
    destruct (is_ch e "u"); [|done]. by destruct R as [|? [|? [|? [|? ?]]]]. }
  by rewrite Hu, Hb.
Qed.

Lemma scanstring_plain c R :
  (c =? QUOTE)%N = false → (c =? REVERSE_SOLIDUS)%N = false → (c <? 32)%N = false →
  scanstring (c :: R) = prod_map (cons c) id <$> scanstring R.
Proof. intros H1 H2 H3. cbn [scanstring]. by rewrite H1, H2, H3. Qed.

Lemma scanstring_u h1 h2 h3 h4 R :
  scanstring (REVERSE_SOLIDUS :: ch "u" :: h1 :: h2 :: h3 :: h4 :: R) =
    decode_uXXXX h1 h2 h3 h4 ≫= λ uni,
      let single := prod_map (cons uni) id <$> scanstring R in
      if is_high_surrogate uni then
        match R with
        | b :: u :: g1 :: g2 :: g3 :: g4 :: s4 =>
            if (b =? REVERSE_SOLIDUS)%N && is_ch u "u" then
              decode_uXXXX g1 g2 g3 g4 ≫= λ uni2,
                if is_low_surrogate uni2 then
                  prod_map (cons (65536 + N.lor (N.shiftl (uni - 55296) 10)
                                                (uni2 - 56320))%N) id
                    <$> scanstring s4
                else single
            else single
        | _ => single
        end
      else single.
Proof. reflexivity. Qed.

(** The escape of a character of the Basic Multilingual Plane, when the
    rest of the input does not start with the escape of a low
    surrogate. *)
Lemma scanstring_u_single c R :
  (c < 65536)%N →
  (is_high_surrogate c = true →
   ∀ g1 g2 g3 g4 R', R = REVERSE_SOLIDUS :: ch "u" :: g1 :: g2 :: g3 :: g4 :: R' →
     ∃ u2, decode_uXXXX g1 g2 g3 g4 = Ok u2 ∧ is_low_surrogate u2 = false) →
  scanstring (REVERSE_SOLIDUS :: ch "u" :: hex4 c ++ R) =
    prod_map (cons c) id <$> scanstring R.
Proof.
  intros Hc Hnext. unfold hex4. cbn [app]. rewrite scanstring_u, decode_hex4 by done.
  cbn [mbind result_bind]. cbv zeta.
  destruct (is_high_surrogate c) eqn:Hh; [|done].
  destruct R as [|b [|u [|g1 [|g2 [|g3 [|g4 R']]]]]]; try done.
  destruct ((b =? REVERSE_SOLIDUS)%N && is_ch u "u") eqn:Hbu; [|done].
  apply andb_true_iff in Hbu as [->%N.eqb_eq ->%N.eqb_eq].
  destruct (Hnext eq_refl g1 g2 g3 g4 R' eq_refl) as (u2 & -> & Hlow).
  cbn [mbind result_bind]. by rewrite Hlow.
Qed.

(** The two escapes of a character beyond the Basic Multilingual
    Plane. *)
Lemma scanstring_u_pair c R :
  (65536 ≤ c)%N → (c < 1114112)%N →
  scanstring
    ((REVERSE_SOLIDUS :: ch "u" ::
        hex4 (N.lor 55296 (N.land (N.shiftr (c - 65536) 10) 1023)) ++
      REVERSE_SOLIDUS :: ch "u" :: hex4 (N.lor 56320 (N.land (c - 65536) 1023))) ++ R) =
    prod_map (cons c) id <$> scanstring R.
Proof.
  intros Hlo Hhi. destruct (surrogate_pair c Hlo Hhi) as (H1 & H2 & H3 & H4 & Hc).
  set (s1 := N.lor 55296 _) in *. set (s2 := N.lor 56320 _) in *.
  unfold hex4. cbn [app]. rewrite scanstring_u, !decode_hex4 by lia.
  cbn [mbind result_bind]. cbv zeta.
  assert (is_high_surrogate s1 = true) as ->.
  { unfold is_high_surrogate. apply andb_true_iff. split; by apply N.leb_le. }
  change ((REVERSE_SOLIDUS =? REVERSE_SOLIDUS)%N && is_ch (ch "u") "u") with true.
  cbv iota.
  assert (is_low_surrogate s2 = true) as ->.
  { unfold is_low_surrogate. apply andb_true_iff. split; by apply N.leb_le. }
  by rewrite Hc.
Qed.

Lemma is_low_not_high c : is_high_surrogate c = true → is_low_surrogate c = false.
Proof.
  unfold is_high_surrogate, is_low_surrogate.
  intros [_ H%N.leb_le]%andb_true_iff. apply andb_false_iff. left. apply N.leb_gt. lia.
Qed.

(** What follows a high surrogate in the text of a storable str is not
    the escape of a low surrogate. *)
Lemma escape_ascii_not_low c R g1 g2 g3 g4 R' :
  (c < 1114112)%N → is_low_surrogate c = false →
  escape_ascii c ++ R = REVERSE_SOLIDUS :: ch "u" :: g1 :: g2 :: g3 :: g4 :: R' →
  ∃ u2, decode_uXXXX g1 g2 g3 g4 = Ok u2 ∧ is_low_surrogate u2 = false.
Proof.
  intros Hc Hlow.
  destruct (escape_ascii_cases c Hc)
    as [(e & -> & Hu & Hb)|[(-> & Hq & Hr & _)|[[-> Hbmp]|[Hsup ->]]]].
  - intros [= -> _]. done.
  - intros [= -> _]. done.
  - unfold hex4. intros [= <- <- <- <- _]. exists c. split; [by apply decode_hex4|done].
  - destruct (surrogate_pair c Hsup Hc) as (H1 & H2 & _).
    unfold hex4. intros [= <- <- <- <- _]. eexists. split; [apply decode_hex4; lia|].
    apply is_low_not_high. unfold is_high_surrogate. apply andb_true_iff.
    split; by apply N.leb_le.
Qed.

Lemma scanstring_escape_ascii c R :
  (c < 1114112)%N →
  (is_high_surrogate c = true →
   ∀ g1 g2 g3 g4 R', R = REVERSE_SOLIDUS :: ch "u" :: g1 :: g2 :: g3 :: g4 :: R' →
     ∃ u2, decode_uXXXX g1 g2 g3 g4 = Ok u2 ∧ is_low_surrogate u2 = false) →
  scanstring (escape_ascii c ++ R) = prod_map (cons c) id <$> scanstring R.
Proof.
  intros Hc Hnext.
  destruct (escape_ascii_cases c Hc)
    as [(e & -> & Hu & Hb)|[(-> & Hq & Hr & H32)|[[-> Hbmp]|[Hsup ->]]]].
  - by apply scanstring_backslash.
  - by apply scanstring_plain.
  - by apply scanstring_u_single.
  - by apply scanstring_u_pair.
Qed.

(** The body of a JSON string, as json.dumps writes it, is read back. *)
Lemma scanstring_encode s rest :
  str_storable s = true →
  scanstring (mjoin (escape_ascii <$> s) ++ QUOTE :: rest) = Ok (s, rest).
Proof.
  induction s as [|c s IH]; intros Hs; [done|].
  cbn [str_storable] in Hs.
  apply andb_true_iff in Hs as [[Hc%N.ltb_lt Hpair]%andb_true_iff Hs].
  rewrite fmap_cons.
  change (mjoin (escape_ascii c :: (escape_ascii <$> s)))
    with (escape_ascii c ++ mjoin (escape_ascii <$> s)).
  rewrite <- (assoc_L (++)).
  rewrite scanstring_escape_ascii, IH; [done|done|done|].
  - intros Hh g1 g2 g3 g4 R' HR. rewrite Hh in Hpair. cbn [andb] in Hpair.
    apply negb_true_iff in Hpair. destruct s as [|c' s']; [done|].
    cbn [head from_option] in Hpair. cbn [str_storable] in Hs.
    apply andb_true_iff in Hs as [[Hc'%N.ltb_lt _]%andb_true_iff _].
    rewrite fmap_cons in HR.
    change (mjoin (escape_ascii c' :: (escape_ascii <$> s')))
      with (escape_ascii c' ++ mjoin (escape_ascii <$> s')) in HR.
    rewrite <- (assoc_L (++)) in HR.
    by eapply escape_ascii_not_low.
Qed.

(** *** Numbers *)

(** The rest of the input cannot continue a number. *)
Lemma span_digits_app s ds r rest :
  span_digits s = (ds, r) →
  r ≠ [] ∨ (∀ c, head rest = Some c → is_digit c = false) →
  span_digits (s ++ rest) = (ds, r ++ rest).
Proof.
  revert ds r. induction s as [|c s IH]; intros ds r Hs Hend.
  - injection Hs as <- <-. destruct Hend as [?|Hend]; [done|].
    destruct rest as [|c rest]; [done|]. cbn [app span_digits].
    by rewrite (Hend c eq_refl).
  - cbn [app span_digits] in *. destruct (is_digit c).
    + destruct (span_digits s) as [ds' r'] eqn:Hs'. injection Hs as <- <-.
      by rewrite (IH ds' r' eq_refl Hend).
    + by injection Hs as <- <-.
Qed.

Lemma span_digits_eq s : s = (span_digits s).1 ++ (span_digits s).2.
Proof.
  induction s as [|c s IH]; [done|]. cbn [span_digits].
  destruct (is_digit c); [|done]. destruct (span_digits s). cbn in *. by f_equal.
Qed.

Lemma span_digits_digits s : Forall (λ c, is_digit c = true) (span_digits s).1.
Proof.
  induction s as [|c s IH]; [done|]. cbn [span_digits].
  destruct (is_digit c) eqn:Hc; [|done]. destruct (span_digits s). cbn in *.
  by constructor.
Qed.

Lemma span_digits_all ds rest :
  Forall (λ c, is_digit c = true) ds →
  (∀ c, head rest = Some c → is_digit c = false) →
  span_digits (ds ++ rest) = (ds, rest).
Proof.
  intros Hds Hend. induction Hds as [|c ds Hc _ IH].
  - destruct rest as [|c rest]; [done|]. cbn [app span_digits]. by rewrite (Hend c eq_refl).
  - cbn [app span_digits]. by rewrite Hc, IH.
Qed.

Lemma N_of_pretty_N_char d :
  (d < 10)%N → Ascii.N_of_ascii (pretty_N_char d) = (48 + d)%N.
Proof.
  intros Hd.
  assert (d = 0 ∨ d = 1 ∨ d = 2 ∨ d = 3 ∨ d = 4 ∨ d = 5 ∨ d = 6 ∨ d = 7 ∨ d = 8 ∨ d = 9)%N
    as Hcases by lia.
  by repeat destruct Hcases as [->|Hcases]; [..|subst d].
Qed.

Lemma lit_String a s : lit (String a s) = Ascii.N_of_ascii a :: lit s.
Proof. done. Qed.

(** The decimal digits stdpp's [pretty] writes for a number. *)
Lemma pretty_N_go_digits x s :
  ∃ ds,
    lit (pretty_N_go x s) = ds ++ lit s ∧
    Forall (λ c, is_digit c = true) ds ∧
    (∀ acc, foldl (λ acc c, acc * 10 + Z.of_N (c - 48))%Z acc ds =
              (acc * 10 ^ Z.of_nat (length ds) + Z.of_N x)%Z) ∧
    ((0 < x)%N → ∃ d ds', ds = d :: ds' ∧ is_ch d "0" = false).
Proof.
  revert s. induction (N.lt_wf_0 x) as [x _ IH]. intros s.
  destruct (decide (x = 0%N)) as [->|Hx].
  { exists []. rewrite pretty_N_go_0. split; [done|]. split; [done|].
    split; [intros acc; cbn; lia | lia]. }
  rewrite pretty_N_go_step by lia.
  pose proof (N.mod_lt x 10) as Hmod. pose proof (N.div_mod x 10) as Hdm.
  pose proof (N.div_lt x 10) as Hlt.
  set (m := (x `mod` 10)%N) in *. set (q := (x `div` 10)%N) in *.
  clearbody m q.
  destruct (IH q) with (s := String (pretty_N_char m) s)
    as (ds & Hlit & Hds & Hfold & Hlead); [lia|].
  exists (ds ++ [(48 + m)%N]). split; [|split; [|split]].
  - rewrite Hlit, lit_String, N_of_pretty_N_char by lia.
    by rewrite <- (assoc_L (++)).
  - apply Forall_app. split; [done|]. constructor; [|done].
    unfold is_digit. apply andb_true_iff. split; apply N.leb_le; lia.
  - intros acc. rewrite foldl_app, Hfold, length_app. cbn [foldl length].
    rewrite Nat2Z.inj_add, Z.pow_add_r by lia.
    replace (48 + m - 48)%N with m by lia.
    change (10 ^ Z.of_nat 1)%Z with 10%Z. lia.
  - intros _. destruct (decide (q = 0)%N) as [Hq|Hq].
    + rewrite Hq, pretty_N_go_0 in Hlit.
      assert (ds = []) as ->.
      { apply (f_equal length) in Hlit. rewrite length_app in Hlit.
        destruct ds; [done|]. cbn in Hlit. lia. }
      eexists _, []. split; [done|]. unfold is_ch. apply N.eqb_neq.
      change (ch "0") with 48%N. lia.
    + destruct Hlead as (d & ds' & -> & Hd); [lia|]. by exists d, (ds' ++ [(48 + m)%N]).
Qed.

Lemma pretty_N_digits (x : N) :
  ∃ d ds,
    lit (pretty x) = d :: ds ∧
    Forall (λ c, is_digit c = true) (d :: ds) ∧
    int_of_digits (d :: ds) = Z.of_N x ∧
    (is_ch d "0" = true → ds = []).
Proof.
  unfold pretty, pretty_N. destruct (decide (x = 0%N)) as [->|Hx].
  { exists 48%N, []. split; [done|]. split; [by repeat constructor|]. done. }
  destruct (pretty_N_go_digits x "") as (ds & Hlit & Hds & Hfold & Hlead).
  destruct Hlead as (d & ds' & -> & Hd); [lia|].
  exists d, ds'. rewrite Hlit. change (lit "") with (@nil N). rewrite app_nil_r.
  split; [done|]. split; [done|]. split; [|by rewrite Hd].
  unfold int_of_digits. rewrite Hfold. lia.
Qed.

Lemma ends_number_head rest c :
  ends_number rest = true → head rest = Some c →
  is_digit c = false ∧ is_ch c "." = false ∧ is_ch c "e" = false ∧
  is_ch c "E" = false ∧ is_ch c "+" = false ∧ is_ch c "-" = false.
Proof.
  destruct rest as [|c' rest]; [done|]. intros He [= ->]. cbn [ends_number] in He.
  apply negb_true_iff in He. repeat (apply orb_false_iff in He as [He ?]). done.
Qed.

Lemma ends_number_digit rest :
  ends_number rest = true → ∀ c, head rest = Some c → is_digit c = false.
Proof. intros He c Hc. by destruct (ends_number_head rest c He Hc). Qed.

Lemma match_integer_app s i r rest :
  match_integer s = Some (i, r) → ends_number rest = true →
  match_integer (s ++ rest) = Some (i, r ++ rest).
Proof.
  intros Hs He. unfold match_integer in *.
  assert (∀ s1 sign,
    match s1 with
    | d :: s2 =>
        if is_ch d "0" then Some (sign ++ [d], s2)
        else if is_digit d then
          let '(ds, s3) := span_digits s2 in Some (sign ++ d :: ds, s3)
        else None
    | [] => None
    end = Some (i, r) →
    match s1 ++ rest with
    | d :: s2 =>
        if is_ch d "0" then Some (sign ++ [d], s2)
        else if is_digit d then
          let '(ds, s3) := span_digits s2 in Some (sign ++ d :: ds, s3)
        else None
    | [] => None
    end = Some (i, r ++ rest)) as Hbody.
  { intros [|d s2] sign; [done|]. cbn [app].
    destruct (is_ch d "0"); [by intros [= <- <-]|].
    destruct (is_digit d); [|done].
    destruct (span_digits s2) as [ds s3] eqn:Hsp. intros [= <- <-].
    by rewrite (span_digits_app s2 ds s3 rest Hsp) by (right; by apply ends_number_digit). }
  destruct s as [|c s']; [done|]. cbn [app].
  destruct (is_ch c "-"); [by apply (Hbody s' [c]) | by apply (Hbody (c :: s') [])].
Qed.

Lemma match_frac_app s rest :
  ends_number rest = true →
  match_frac (s ++ rest) = ((match_frac s).1, (match_frac s).2 ++ rest).
Proof.
  intros He. destruct s as [|c s1].
  - cbn [app match_frac fst snd]. destruct rest as [|c rest]; [done|].
    destruct (ends_number_head (c :: rest) c He eq_refl) as (_ & Hdot & _).
    cbn [match_frac]. by rewrite Hdot.
  - cbn [app match_frac]. destruct (is_ch c "."); [|done].
    destruct (span_digits s1) as [ds s2] eqn:Hsp.
    rewrite (span_digits_app s1 ds s2 rest Hsp) by (right; by apply ends_number_digit).
    by destruct ds.
Qed.

Lemma match_exp_app s rest :
  ends_number rest = true →
  match_exp (s ++ rest) = ((match_exp s).1, (match_exp s).2 ++ rest).
Proof.
  intros He. destruct s as [|c s1].
  - cbn [app match_exp fst snd]. destruct rest as [|c rest]; [done|].
    destruct (ends_number_head (c :: rest) c He eq_refl) as (_ & _ & He1 & He2 & _).
    cbn [match_exp]. by rewrite He1, He2.
  - cbn [app match_exp]. destruct (is_ch c "e" || is_ch c "E"); [|done].
    destruct s1 as [|g s'].
    + cbn [app span_digits]. destruct rest as [|c' rest]; [done|].
      destruct (ends_number_head (c' :: rest) c' He eq_refl) as (Hd & _ & _ & _ & Hp & Hm).
      rewrite Hm, Hp. cbn [orb span_digits]. by rewrite Hd.
    + cbn [app]. destruct (is_ch g "-" || is_ch g "+").
      * destruct (span_digits s') as [ds s3] eqn:Hsp.
        rewrite (span_digits_app s' ds s3 rest Hsp) by (right; by apply ends_number_digit).
        by destruct ds.
      * destruct (span_digits (g :: s')) as [ds s3] eqn:Hsp.
        change (g :: s' ++ rest) with ((g :: s') ++ rest).
        rewrite (span_digits_app (g :: s') ds s3 rest Hsp)
          by (right; by apply ends_number_digit).
        by destruct ds.
Qed.

(** A number that is followed by the end of the input is read in the
    same way when a text that cannot continue it follows. *)
Lemma match_number_app s v r rest :
  match_number s = Some (v, r) → ends_number rest = true →
  match_number (s ++ rest) = Some (v, r ++ rest).
Proof.
  unfold match_number. intros Hs He.
  destruct (match_integer s) as [[i s1]|] eqn:Hi; [|done].
  rewrite (match_integer_app s i s1 rest Hi He), match_frac_app by done.
  destruct (match_frac s1) as [frac s2]. cbn [fst snd].
  rewrite match_exp_app by done. destruct (match_exp s2) as [exp s3]. cbn [fst snd].
  destruct frac, exp; by injection Hs as <- <-.
Qed.

Lemma match_integer_eq s i r : match_integer s = Some (i, r) → s = i ++ r.
Proof.
  unfold match_integer.
  assert (∀ s1 sign,
    match s1 with
    | d :: s2 =>
        if is_ch d "0" then Some (sign ++ [d], s2)
        else if is_digit d then
          let '(ds, s3) := span_digits s2 in Some (sign ++ d :: ds, s3)
        else None
    | [] => None
    end = Some (i, r) → sign ++ s1 = i ++ r) as Hbody.
  { intros [|d s2] sign; [done|].
    destruct (is_ch d "0"); [intros [= <- <-]; by rewrite <- (assoc_L (++))|].
    destruct (is_digit d); [|done].
    pose proof (span_digits_eq s2) as Heq.
    destruct (span_digits s2) as [ds s3]. intros [= <- <-]. cbn [fst snd] in Heq.
    rewrite <- (assoc_L (++)). cbn [app]. by rewrite <- Heq. }
  destruct s as [|c s']; [done|].
  destruct (is_ch c "-"); intros Hs;
    [by apply (Hbody s' [c]) in Hs | by apply (Hbody (c :: s') []) in Hs].
Qed.

Lemma match_frac_eq s : s = (match_frac s).1 ++ (match_frac s).2.
Proof.
  destruct s as [|c s1]; [done|]. cbn [match_frac]. destruct (is_ch c "."); [|done].
  pose proof (span_digits_eq s1) as Heq. destruct (span_digits s1) as [[|d ds] s2]; [done|].
  cbn [fst snd app] in *. by rewrite <- Heq.
Qed.

Lemma match_exp_eq s : s = (match_exp s).1 ++ (match_exp s).2.
Proof.
  destruct s as [|c s1]; [done|]. cbn [match_exp].
  destruct (is_ch c "e" || is_ch c "E"); [|done].
  destruct s1 as [|g s'].
  - done.
  - destruct (is_ch g "-" || is_ch g "+").
    + pose proof (span_digits_eq s') as Heq.
      destruct (span_digits s') as [[|d ds] s3]; [done|].
      cbn [fst snd app] in *. by rewrite <- Heq.
    + pose proof (span_digits_eq (g :: s')) as Heq.
      destruct (span_digits (g :: s')) as [[|d ds] s3]; [done|].
      cbn [fst snd app] in *. by rewrite <- Heq.
Qed.

Lemma match_number_float_eq s l r : match_number s = Some (PFloat l, r) → s = l ++ r.
Proof.
  unfold match_number. destruct (match_integer s) as [[i s1]|] eqn:Hi; [|done].
  apply match_integer_eq in Hi as ->.
  pose proof (match_frac_eq s1) as Hf. destruct (match_frac s1) as [frac s2].
  pose proof (match_exp_eq s2) as He. destruct (match_exp s2) as [exp s3].
  cbn [fst snd] in *. subst s1 s2.
  destruct frac, exp; intros Heq; try done; injection Heq as <- <-;
    by simplify_list_eq.
Qed.

(** The first character of a number. *)
Lemma match_number_head c s r :
  match_number (c :: s) = Some r → is_digit c = true ∨ is_ch c "-" = true.
Proof.
  unfold match_number, match_integer.
  destruct (is_ch c "-") eqn:Hm; [by right|].
  destruct (is_ch c "0") eqn:H0.
  { intros _. left. apply N.eqb_eq in H0 as ->. done. }
  destruct (is_digit c); [by left | done].
Qed.

Lemma is_digit_bounds c : is_digit c = true → (48 ≤ c ≤ 57)%N.
Proof. unfold is_digit. intros [?%N.leb_le ?%N.leb_le]%andb_true_iff. lia. Qed.

(** The branch of [scan_once] that a number takes. *)
Lemma scan_once_number depth c s r :
  match_number (c :: s) = Some r → scan_once (S depth) (c :: s) = Ok r.
Proof.
  intros Hn. pose proof (match_number_head c s r Hn) as Hc.
  assert (c = 45 ∨ 48 ≤ c ≤ 57)%N as Hc'.
  { destruct Hc as [Hc%is_digit_bounds|Hc%N.eqb_eq]; [by right | by left]. }
  assert ((c =? QUOTE)%N = false ∧ is_ch c "{" = false ∧ is_ch c "[" = false ∧
          (110 =? c)%N = false ∧ (116 =? c)%N = false ∧ (102 =? c)%N = false)
    as (H1 & H2 & H3 & H4 & H5 & H6).
  { unfold is_ch. change (ch "{") with 123%N. change (ch "[") with 91%N.
    unfold QUOTE. repeat split; apply N.eqb_neq; lia. }
  cbn [scan_once]. rewrite H1, H2, H3.
  assert (startswith (c :: s) (lit "null") = false) as ->.
  { cbn [lit fmap list_fmap String.list_ascii_of_string startswith].
    change (Ascii.N_of_ascii "n") with 110%N. by rewrite H4. }
  assert (startswith (c :: s) (lit "true") = false) as ->.
  { cbn [lit fmap list_fmap String.list_ascii_of_string startswith].
    change (Ascii.N_of_ascii "t") with 116%N. by rewrite H5. }
  assert (startswith (c :: s) (lit "false") = false) as ->.
  { cbn [lit fmap list_fmap String.list_ascii_of_string startswith].
    change (Ascii.N_of_ascii "f") with 102%N. by rewrite H6. }
  by rewrite Hn.
Qed.

Lemma scan_once_float_token depth t rest :
  float_token t = true → ends_number rest = true →
  scan_once (S depth) (t ++ rest) = Ok (PFloat t, rest).
Proof.
  unfold float_token. intros Ht He.
  destruct (match_number t) as [[v r]|] eqn:Hn.
  - destruct v; try done. destruct r; [|done].
    pose proof (match_number_float_eq _ _ _ Hn) as Heq. rewrite app_nil_r in Heq. subst literal.
    pose proof (match_number_app _ _ _ rest Hn He) as Hn'. rewrite app_nil_l in Hn'.
    destruct t as [|c t]; [done|]. by apply scan_once_number.
  - apply bool_decide_eq_true in Ht.
    repeat (apply elem_of_cons in Ht as [->|Ht]); [done..|by apply elem_of_nil in Ht].
Qed.

Lemma match_number_digits d ds :
  Forall (λ c, is_digit c = true) (d :: ds) → (is_ch d "0" = true → ds = []) →
  match_number (d :: ds) = Some (PInt (int_of_digits (d :: ds)), []) ∧
  match_number (ch "-" :: d :: ds) = Some (PInt (- int_of_digits (d :: ds)), []).
Proof.
  intros [Hd Hds]%Forall_cons Hzero.
  assert (is_ch d "-" = false) as Hm.
  { apply is_digit_bounds in Hd. apply N.eqb_neq. change (ch "-") with 45%N. lia. }
  assert (match_integer (d :: ds) = Some (d :: ds, []) ∧
          match_integer (ch "-" :: d :: ds) = Some (ch "-" :: d :: ds, [])) as [Hi1 Hi2].
  { unfold match_integer. rewrite Hm. change (is_ch (ch "-") "-") with true. cbv iota.
    destruct (is_ch d "0") eqn:H0; [by rewrite (Hzero eq_refl)|].
    rewrite Hd. pose proof (span_digits_all ds [] Hds) as Hsp.
    rewrite app_nil_r in Hsp. by rewrite Hsp. }
  unfold match_number. rewrite Hi1, Hi2. cbn [match_frac match_exp parse_int].
  rewrite Hm. by change (is_ch (ch "-") "-") with true.
Qed.

Lemma match_number_pretty (z : Z) : match_number (lit (pretty z)) = Some (PInt z, []).
Proof.
  assert (∀ x : N, match_number (lit (pretty x)) = Some (PInt (Z.of_N x), []) ∧
            match_number (ch "-" :: lit (pretty x)) = Some (PInt (- Z.of_N x), []))
    as Hnat.
  { intros x. destruct (pretty_N_digits x) as (d & ds & -> & Hds & <- & Hzero).
    by apply match_number_digits. }
  destruct z as [|p|p].
  - done.
  - apply (Hnat (Npos p)).
  - apply (Hnat (Npos p)).
Qed.

Lemma scan_once_int depth z rest :
  ends_number rest = true →
  scan_once (S depth) (lit (pretty z) ++ rest) = Ok (PInt z, rest).
Proof.
  intros He. pose proof (match_number_app _ _ _ rest (match_number_pretty z) He) as Hn.
  rewrite app_nil_l in Hn. destruct (lit (pretty z) ++ rest) as [|c s] eqn:Hs; [done|].
  by apply scan_once_number.
Qed.

(** *** Values *)

Lemma pyval_nested_ind (P : pyval → Prop) :
  P PNone → (∀ b, P (PBool b)) → (∀ z, P (PInt z)) → (∀ literal, P (PFloat literal)) →
  (∀ s, P (PStr s)) →
  (∀ l, Forall P l → P (PList l)) →
  (∀ d, Forall (λ kv, P kv.2) d → P (PDict d)) →
  ∀ v, P v.
Proof.
  intros HNone HBool HInt HFloat HStr HList HDict. fix IH 1. intros [| | | | |l|d].
  - exact HNone.
  - apply HBool.
  - apply HInt.
  - apply HFloat.
  - apply HStr.
  - apply HList. induction l as [|x l IHl]; constructor; [apply IH | exact IHl].
  - apply HDict. induction d as [|[k x] d IHd]; constructor; [apply IH | exact IHd].
Qed.

Lemma dict_of_pairs_app {V} (l : list (str * V)) k v :
  dict_of_pairs (l ++ [(k, v)]) = dict_set (dict_of_pairs l) k v.
Proof. unfold dict_of_pairs. by rewrite foldl_app. Qed.

Lemma dict_of_pairs_NoDup {V} (l : list (str * V)) : NoDup l.*1 → dict_of_pairs l = l.
Proof.
  induction l as [|[k v] l IH] using rev_ind; [done|].
  rewrite fmap_app, NoDup_app. intros (Hl & Hk & _).
  rewrite dict_of_pairs_app, IH by done. clear IH.
  assert (k ∉ l.*1) as Hnotin.
  { intros Hin. apply (Hk k Hin). by left. }
  clear Hk Hl. induction l as [|[k' v'] l IH]; [done|].
  cbn [dict_set app]. apply not_elem_of_cons in Hnotin as [Hne Hnotin].
  rewrite decide_False by done. f_equal. by apply IH.
Qed.

Section round_trip_facts.
Variable float_repr : str → str.

Lemma json_dumps_PList l :
  json_dumps float_repr (PList l) =
  lit "[" ++ str_join (lit ", ") (json_dumps float_repr <$> l) ++ lit "]".
Proof. reflexivity. Qed.

Lemma json_dumps_PDict d :
  json_dumps float_repr (PDict d) =
  lit "{" ++
  str_join (lit ", ")
    ((λ kv, encode_basestring_ascii kv.1 ++ lit ": " ++ json_dumps float_repr kv.2) <$> d)
  ++ lit "}".
Proof.
  cbn [json_dumps].
  apply (f_equal (λ x, lit "{" ++ str_join (lit ", ") x ++ lit "}")).
  induction d as [|[k x] d IH]; [done|]. rewrite fmap_cons. by f_equal.
Qed.

Lemma storable_PList l :
  storable float_repr (PList l) = true ↔ Forall (λ x, storable float_repr x = true) l.
Proof.
  cbn [storable]. induction l as [|x l IH]; [done|].
  rewrite Forall_cons, andb_true_iff. by rewrite IH.
Qed.

Lemma storable_PDict d :
  storable float_repr (PDict d) = true ↔
  NoDup d.*1 ∧
  Forall (λ kv, str_storable kv.1 = true ∧ storable float_repr kv.2 = true) d.
Proof.
  cbn [storable]. rewrite andb_true_iff, bool_decide_eq_true.
  apply and_iff_compat_l. induction d as [|[k x] d IH]; [done|].
  rewrite Forall_cons, !andb_true_iff. by rewrite IH.
Qed.

Lemma stored_PList l : stored float_repr (PList l) = PList (stored float_repr <$> l).
Proof. reflexivity. Qed.

Lemma stored_PDict d :
  stored float_repr (PDict d) = PDict (prod_map id (stored float_repr) <$> d).
Proof.
  cbn [stored]. apply (f_equal PDict).
  induction d as [|[k x] d IH]; [done|]. rewrite fmap_cons. by f_equal.
Qed.
End round_trip_facts.

Lemma skip_ws_id c s : is_json_ws c = false → skip_ws (c :: s) = c :: s.
Proof. intros Hc. cbn [skip_ws]. by rewrite Hc. Qed.

Lemma str_join_cons_cons sep x y l :
  str_join sep (x :: y :: l) = x ++ sep ++ str_join sep (y :: l).
Proof. done. Qed.

Lemma str_join_length_elem sep l x : x ∈ l → length x ≤ length (str_join sep l).
Proof.
  induction l as [|y [|z l] IH]; [by intros ?%elem_of_nil| |].
  - by intros ->%list_elem_of_singleton.
  - rewrite str_join_cons_cons, !length_app.
    intros [->|Hin]%elem_of_cons; [lia|]. specialize (IH Hin). lia.
Qed.

Lemma str_join_length sep l :
  Forall (λ x, 1 ≤ length x) l → length l ≤ length (str_join sep l).
Proof.
  induction l as [|y [|z l] IH]; [done| |].
  - intros [Hy _]%Forall_cons. exact Hy.
  - intros [Hy Hl]%Forall_cons. rewrite str_join_cons_cons, !length_app.
    specialize (IH Hl). cbn [length] in *. cbn beta in Hy. unfold str in *. lia.
Qed.

Section round_trip_scan.
Variable float_repr : str → str.

(** The text of a value starts with a character that is not
    whitespace and closes nothing. *)
Lemma json_dumps_head v :
  (storable float_repr) v = true →
  ∃ c s, (json_dumps float_repr) v = c :: s ∧ is_json_ws c = false ∧
         is_ch c "]" = false ∧ is_ch c "}" = false.
Proof.
  destruct v as [|[|]|z|literal|s|l|d]; intros Hv.
  - by eexists _, _.
  - by eexists _, _.
  - by eexists _, _.
  - cbn [json_dumps]. pose proof (match_number_pretty z) as Hn.
    destruct (lit (pretty z)) as [|c s]; [done|]. exists c, s. split; [done|].
    assert (c = 45 ∨ 48 ≤ c ≤ 57)%N as Hc.
    { destruct (match_number_head c s _ Hn) as [Hc%is_digit_bounds|Hc%N.eqb_eq];
        [by right | by left]. }
    unfold is_json_ws, is_ch. change (ch " ") with 32%N. change (ch "]") with 93%N.
    change (ch "}") with 125%N.
    repeat split; rewrite ?orb_false_iff; repeat split; apply N.eqb_neq; lia.
  - cbn [json_dumps storable] in *. unfold float_token in Hv.
    destruct (match_number (float_repr literal)) as [[v r]|] eqn:Hn.
    + destruct (float_repr literal) as [|c s]; [done|]. exists c, s. split; [done|].
      assert (c = 45 ∨ 48 ≤ c ≤ 57)%N as Hc.
      { destruct (match_number_head c s _ Hn) as [Hc%is_digit_bounds|Hc%N.eqb_eq];
          [by right | by left]. }
      unfold is_json_ws, is_ch. change (ch " ") with 32%N. change (ch "]") with 93%N.
      change (ch "}") with 125%N.
      repeat split; rewrite ?orb_false_iff; repeat split; apply N.eqb_neq; lia.
    + apply bool_decide_eq_true in Hv.
      repeat (apply elem_of_cons in Hv as [->|Hv]);
        [by eexists _, _..|by apply elem_of_nil in Hv].
  - by eexists _, _.
  - rewrite json_dumps_PList. by eexists _, _.
  - rewrite json_dumps_PDict. by eexists _, _.
Qed.

Lemma skip_ws_dumps v R : (storable float_repr) v = true → skip_ws ((json_dumps float_repr) v ++ R) = (json_dumps float_repr) v ++ R.
Proof.
  intros Hv. destruct (json_dumps_head v Hv) as (c & s & -> & Hws & _).
  by apply skip_ws_id.
Qed.

Lemma array_loop_dumps scan x l values fuel rest :
  (∀ y R, y ∈ x :: l → ends_number R = true →
     scan ((json_dumps float_repr) y ++ R) = Ok ((stored float_repr) y, R)) →
  Forall (λ y, (storable float_repr) y = true) (x :: l) →
  length (x :: l) ≤ fuel →
  array_loop scan fuel values
    (str_join (lit ", ") ((json_dumps float_repr) <$> x :: l) ++ lit "]" ++ rest) =
  Ok (PList (values ++ ((stored float_repr) <$> x :: l)), rest).
Proof.
  revert x values fuel. induction l as [|y l IH]; intros x values fuel Hscan Hall Hfuel.
  - destruct fuel as [|fuel]; [cbn in Hfuel; lia|].
    cbn [fmap list_fmap str_join array_loop].
    rewrite (Hscan x) by (done || by left). cbn [mbind result_bind].
    done.
  - destruct fuel as [|fuel]; [cbn in Hfuel; lia|].
    rewrite !fmap_cons, str_join_cons_cons, <- !(assoc_L (++)).
    cbn [array_loop]. rewrite (Hscan x) by (done || by left). cbn [mbind result_bind].
    change (lit ", " ++ ?t) with (ch "," :: ch " " :: t).
    rewrite (skip_ws_id (ch ",")) by done.
    change (is_ch (ch ",") "]") with false. change (is_ch (ch ",") ",") with true.
    cbv iota. cbn [skip_ws]. change (is_json_ws (ch " ")) with true. cbv iota.
    apply Forall_cons in Hall as [Hx Hall].
    assert (skip_ws (str_join (lit ", ") ((json_dumps float_repr) y :: ((json_dumps float_repr) <$> l)) ++ lit "]" ++ rest) =
            str_join (lit ", ") ((json_dumps float_repr) y :: ((json_dumps float_repr) <$> l)) ++ lit "]" ++ rest) as ->.
    { apply Forall_cons in Hall as [Hy _].
      destruct l as [|z l].
      - cbn [fmap list_fmap str_join]. by apply skip_ws_dumps.
      - rewrite fmap_cons, str_join_cons_cons, <- (assoc_L (++)). by apply skip_ws_dumps. }
    rewrite <- fmap_cons. rewrite IH.
    + by rewrite <- (assoc_L (++)).
    + intros z R Hz. apply Hscan. by right.
    + done.
    + cbn [length] in *. lia.
Qed.

Lemma object_loop_dumps scan k x d pairs fuel rest :
  (∀ y R, y ∈ (k, x) :: d → ends_number R = true →
     scan ((json_dumps float_repr) y.2 ++ R) = Ok ((stored float_repr) y.2, R)) →
  Forall (λ kv, str_storable kv.1 = true ∧ (storable float_repr) kv.2 = true) ((k, x) :: d) →
  length ((k, x) :: d) ≤ fuel →
  object_loop scan fuel pairs
    (mjoin (escape_ascii <$> k) ++ [QUOTE] ++ lit ": " ++ (json_dumps float_repr) x ++
     match d with
     | [] => []
     | _ :: _ =>
         lit ", " ++
         str_join (lit ", ")
           ((λ kv, encode_basestring_ascii kv.1 ++ lit ": " ++ (json_dumps float_repr) kv.2) <$> d)
     end ++ lit "}" ++ rest) =
  Ok (PDict (dict_of_pairs (pairs ++ (prod_map id (stored float_repr) <$> (k, x) :: d))), rest).
Proof.
  revert k x pairs fuel. induction d as [|[k' x'] d IH]; intros k x pairs fuel Hscan Hall Hfuel.
  - destruct fuel as [|fuel]; [cbn in Hfuel; lia|].
    apply Forall_cons in Hall as [[Hk Hx] _]. cbn [fst snd] in *.
    cbn [object_loop app]. rewrite scanstring_encode by done. cbn [mbind result_bind].
    change (lit ": " ++ ?t) with (ch ":" :: ch " " :: t).
    rewrite (skip_ws_id (ch ":")) by done. change (is_ch (ch ":") ":") with true. cbv iota.
    cbn [skip_ws]. change (is_json_ws (ch " ")) with true. cbv iota.
    rewrite skip_ws_dumps by done.
    rewrite (Hscan (k, x)) by (done || by left). cbn [mbind result_bind].
    done.
  - destruct fuel as [|fuel]; [cbn in Hfuel; lia|].
    apply Forall_cons in Hall as [[Hk Hx] Hall]. cbn [fst snd] in *.
    cbn [object_loop app]. rewrite scanstring_encode by done. cbn [mbind result_bind].
    change (lit ": " ++ ?t) with (ch ":" :: ch " " :: t).
    rewrite (skip_ws_id (ch ":")) by done. change (is_ch (ch ":") ":") with true. cbv iota.
    cbn [skip_ws]. change (is_json_ws (ch " ")) with true. cbv iota.
    rewrite skip_ws_dumps by done.
    rewrite (Hscan (k, x)) by (done || by left). cbn [mbind result_bind].
    rewrite <- !(assoc_L (++)).
    change (lit ", " ++ ?t) with (ch "," :: ch " " :: t).
    rewrite (skip_ws_id (ch ",")) by done.
    change (is_ch (ch ",") "}") with false. change (is_ch (ch ",") ",") with true.
    cbv iota. cbn [skip_ws]. change (is_json_ws (ch " ")) with true. cbv iota.
    assert (str_join (lit ", ")
              ((λ kv, encode_basestring_ascii kv.1 ++ lit ": " ++ (json_dumps float_repr) kv.2)
                 <$> (k', x') :: d) ++ lit "}" ++ rest =
            QUOTE :: (mjoin (escape_ascii <$> k') ++ [QUOTE] ++ lit ": " ++ (json_dumps float_repr) x' ++
              match d with
              | [] => []
              | _ :: _ =>
                  lit ", " ++
                  str_join (lit ", ")
                    ((λ kv, encode_basestring_ascii kv.1 ++ lit ": " ++ (json_dumps float_repr) kv.2) <$> d)
              end ++ lit "}" ++ rest)) as ->.
    { destruct d as [|[k2 x2] d].
      - cbn [fmap list_fmap str_join fst snd]. unfold encode_basestring_ascii.
        by simplify_list_eq.
      - rewrite !fmap_cons, str_join_cons_cons. cbn [fst snd].
        unfold encode_basestring_ascii at 1. by simplify_list_eq. }
    rewrite (skip_ws_id QUOTE) by done. rewrite N.eqb_refl.
    rewrite IH.
    + by rewrite fmap_cons, <- (assoc_L (++)).
    + intros z R Hz. apply Hscan. by right.
    + done.
    + cbn [length] in *. lia.
Qed.

(** The text json.dumps writes for a (storable float_repr) value is read back by
    the scanner, at any nesting bound that the length of the text allows,
    whatever follows the value (as long as it cannot continue a
    number). *)
Lemma scan_once_dumps v :
  (storable float_repr) v = true →
  ∀ depth rest, length ((json_dumps float_repr) v) ≤ depth → ends_number rest = true →
    scan_once depth ((json_dumps float_repr) v ++ rest) = Ok ((stored float_repr) v, rest).
Proof.
  induction v as [| [|] |z|literal|s|l IH|d IH] using pyval_nested_ind;
    intros Hv depth rest Hdepth He.
  - destruct depth as [|depth]; [cbn in Hdepth; lia | done].
  - destruct depth as [|depth]; [cbn in Hdepth; lia | done].
  - destruct depth as [|depth]; [cbn in Hdepth; lia | done].
  - destruct depth as [|depth].
    { destruct (json_dumps_head (PInt z) Hv) as (c & s & Heq & _).
      rewrite Heq in Hdepth. cbn in Hdepth. lia. }
    by apply scan_once_int.
  - destruct depth as [|depth].
    { destruct (json_dumps_head (PFloat literal) Hv) as (c & s & Heq & _).
      rewrite Heq in Hdepth. cbn in Hdepth. lia. }
    by apply scan_once_float_token.
  - destruct depth as [|depth]; [cbn in Hdepth; lia|].
    cbn [json_dumps encode_basestring_ascii app scan_once].
    rewrite N.eqb_refl, <- (assoc_L (++)). cbn [app].
    by rewrite scanstring_encode.
  - destruct depth as [|depth]; [cbn in Hdepth; lia|].
    apply storable_PList in Hv. rewrite json_dumps_PList in *. rewrite stored_PList.
    rewrite <- !(assoc_L (++)).
    change (lit "[" ++ ?t) with (ch "[" :: t). cbn [scan_once].
    change (ch "[" =? QUOTE)%N with false. change (is_ch (ch "[") "{") with false.
    change (is_ch (ch "[") "[") with true. cbv iota. unfold JSONArray.
    destruct l as [|x l].
    { cbn [fmap list_fmap str_join app]. change (lit "]" ++ rest) with (ch "]" :: rest).
      by rewrite (skip_ws_id (ch "]")). }
    assert (skip_ws (str_join (lit ", ") ((json_dumps float_repr) <$> x :: l) ++ lit "]" ++ rest) =
            str_join (lit ", ") ((json_dumps float_repr) <$> x :: l) ++ lit "]" ++ rest) as Hskip.
    { apply Forall_cons in Hv as [Hx _]. destruct l as [|z l].
      - cbn [fmap list_fmap str_join]. by apply skip_ws_dumps.
      - rewrite !fmap_cons, str_join_cons_cons, <- (assoc_L (++)). by apply skip_ws_dumps. }
    rewrite Hskip.
    assert (∃ c t, str_join (lit ", ") ((json_dumps float_repr) <$> x :: l) ++ lit "]" ++ rest = c :: t ∧
                   is_ch c "]" = false) as (c & t & Heq & Hc).
    { apply Forall_cons in Hv as [Hx _].
      destruct (json_dumps_head x Hx) as (c & s & Hd & _ & Hc & _).
      destruct l as [|z l].
      - cbn [fmap list_fmap str_join]. rewrite Hd. by eexists _, _.
      - rewrite !fmap_cons, str_join_cons_cons, Hd. by eexists _, _. }
    rewrite Heq, Hc, <- Heq.
    apply (array_loop_dumps (scan_once depth) x l []); [|done|].
    + intros y R Hy HR. rewrite Forall_forall in IH, Hv. apply IH; [done|by apply Hv| |done].
      rewrite !length_app in Hdepth. change (length (lit "[")) with 1 in Hdepth.
      pose proof (str_join_length_elem (lit ", ") ((json_dumps float_repr) <$> x :: l) ((json_dumps float_repr) y)) as Hle.
      unfold str in *. specialize (Hle (list_elem_of_fmap_2 _ _ _ Hy)). lia.
    + rewrite length_app.
      pose proof (str_join_length (lit ", ") ((json_dumps float_repr) <$> x :: l)) as Hle.
      rewrite length_fmap in Hle. unfold str in *. etrans; [apply Hle|lia].
      apply Forall_fmap, Forall_forall. intros y Hy. cbn.
      rewrite Forall_forall in Hv.
      destruct (json_dumps_head y (Hv y Hy)) as (c' & s' & -> & _). cbn. lia.
  - destruct depth as [|depth]; [cbn in Hdepth; lia|].
    apply storable_PDict in Hv as [Hnd Hv]. rewrite json_dumps_PDict in *.
    rewrite stored_PDict.
    rewrite <- !(assoc_L (++)).
    change (lit "{" ++ ?t) with (ch "{" :: t). cbn [scan_once].
    change (ch "{" =? QUOTE)%N with false. change (is_ch (ch "{") "{") with true.
    cbv iota. unfold JSONObject.
    destruct d as [|[k x] d].
    { cbn [fmap list_fmap str_join app]. change (lit "}" ++ rest) with (ch "}" :: rest).
      by rewrite (skip_ws_id (ch "}")). }
    assert (str_join (lit ", ")
              ((λ kv, encode_basestring_ascii kv.1 ++ lit ": " ++ (json_dumps float_repr) kv.2)
                 <$> (k, x) :: d) ++ lit "}" ++ rest =
            QUOTE :: (mjoin (escape_ascii <$> k) ++ [QUOTE] ++ lit ": " ++ (json_dumps float_repr) x ++
              match d with
              | [] => []
              | _ :: _ =>
                  lit ", " ++
                  str_join (lit ", ")
                    ((λ kv, encode_basestring_ascii kv.1 ++ lit ": " ++ (json_dumps float_repr) kv.2) <$> d)
              end ++ lit "}" ++ rest)) as Heq.
    { destruct d as [|[k2 x2] d].
      - cbn [fmap list_fmap str_join fst snd]. unfold encode_basestring_ascii.
        by simplify_list_eq.
      - rewrite !fmap_cons, str_join_cons_cons. cbn [fst snd].
        unfold encode_basestring_ascii at 1. by simplify_list_eq. }
    rewrite Heq, (skip_ws_id QUOTE) by done.
    change (is_ch QUOTE "}") with false. rewrite N.eqb_refl. cbv iota.
    rewrite (object_loop_dumps (scan_once depth) k x d []); [| |done|].
    + rewrite app_nil_l, dict_of_pairs_NoDup; [done|].
      rewrite <- list_fmap_compose.
      by replace (fst ∘ prod_map id (stored float_repr)) with (@fst str pyval) by done.
    + intros y R Hy HR. rewrite Forall_forall in IH, Hv.
      apply IH; [done|by apply Hv| |done].
      rewrite !length_app in Hdepth. change (length (lit "{")) with 1 in Hdepth.
      pose proof (str_join_length_elem (lit ", ")
        ((λ kv, encode_basestring_ascii kv.1 ++ lit ": " ++ (json_dumps float_repr) kv.2) <$> (k, x) :: d)
        (encode_basestring_ascii y.1 ++ lit ": " ++ (json_dumps float_repr) y.2)) as Hle.
      unfold str in *.
      specialize (Hle (list_elem_of_fmap_2
        (λ kv : list N * pyval, encode_basestring_ascii kv.1 ++ lit ": " ++ (json_dumps float_repr) kv.2)
        _ _ Hy)).
      rewrite !length_app in Hle. lia.
    + rewrite <- Heq, length_app.
      pose proof (str_join_length (lit ", ")
        ((λ kv, encode_basestring_ascii kv.1 ++ lit ": " ++ (json_dumps float_repr) kv.2) <$> (k, x) :: d))
        as Hle.
      rewrite length_fmap in Hle. unfold str in *. etrans; [apply Hle|lia].
      apply Forall_fmap, Forall_forall. intros y Hy. cbn. lia.
Qed.

(** json.loads reads back what json.dumps has written. *)
Lemma json_loads_dumps v :
  (storable float_repr) v = true → json_loads ((json_dumps float_repr) v) = Ok ((stored float_repr) v).
Proof.
  intros Hv. unfold json_loads.
  assert (skip_ws ((json_dumps float_repr) v) = (json_dumps float_repr) v) as ->.
  { rewrite <- (app_nil_r ((json_dumps float_repr) v)). by apply skip_ws_dumps. }
  pose proof (scan_once_dumps v Hv (S (length ((json_dumps float_repr) v))) [] ltac:(lia) eq_refl) as Hscan.
  rewrite app_nil_r in Hscan. by rewrite Hscan.
Qed.
End round_trip_scan.

(** X18: what is stored is read back. For every value whose strings
    and keys are storable (code points below 0x110000, no high surrogate
    directly followed by a low one), whose dict keys are distinct and whose
    floats are written as float texts, json.loads of the text json.dumps
    writes returns the value, each float being the float of its text; this
    is how parse_scores reads what run_pipeline has stored. *)
Theorem json_loads_dumps_round_trip (float_repr : str → str) v :
  storable float_repr v = true →
  json_loads (json_dumps float_repr v) = Ok (stored float_repr v).
Proof. apply json_loads_dumps. Qed.

Lemma json_loads_dumps_round_trip_witness :
  storable id (PList [PDict example_evaluation; PStr [233; 128512; 10]%N; PInt (-3)]) = true ∧
  json_loads (json_dumps id (PList [PDict example_evaluation; PStr [233; 128512; 10]%N; PInt (-3)]))
    = Ok (stored id (PList [PDict example_evaluation; PStr [233; 128512; 10]%N; PInt (-3)])).
Proof.
  split; [vm_compute; reflexivity|].
  apply (json_loads_dumps_round_trip id). vm_compute. reflexivity.
Defined.

(** ** What json.loads returns can be stored *)

Lemma is_scalar_value_spec c :
  is_scalar_value c = true →
  (c < 1114112)%N ∧ is_high_surrogate c = false ∧ is_low_surrogate c = false.
Proof.
  unfold is_scalar_value, is_high_surrogate, is_low_surrogate.
  intros [H%N.ltb_lt|[H1%N.ltb_lt H2%N.ltb_lt]%andb_true_iff]%orb_true_iff.
  - split; [lia|]. split; apply andb_false_iff; left; apply N.leb_gt; lia.
  - split; [lia|]. split; apply andb_false_iff; right; apply N.leb_gt; lia.
Qed.

Lemma unicode_text_Forall s :
  unicode_text s = true ↔ Forall (λ c, is_scalar_value c = true) s.
Proof.
  unfold unicode_text. induction s as [|c s IH]; [done|].
  cbn [forallb]. rewrite andb_true_iff, Forall_cons. by rewrite IH.
Qed.

Lemma unicode_text_sublist s s' :
  s' `sublist_of` s → unicode_text s = true → unicode_text s' = true.
Proof.
  rewrite !unicode_text_Forall. intros Hsub. rewrite !Forall_forall.
  intros Hs c Hc. apply Hs. by eapply elem_of_sublist.
Qed.

Lemma unicode_text_drop n s : unicode_text s = true → unicode_text (drop n s) = true.
Proof. apply unicode_text_sublist, sublist_drop. Qed.

Lemma unicode_text_skip_ws s : unicode_text s = true → unicode_text (skip_ws s) = true.
Proof.
  induction s as [|c s IH]; [done|]. intros Hs. cbn [skip_ws].
  destruct (is_json_ws c); [|done]. apply IH.
  cbn [unicode_text forallb] in Hs. by apply andb_true_iff in Hs as [_ Hs].
Qed.

Lemma unicode_text_storable s : unicode_text s = true → str_storable s = true.
Proof.
  induction s as [|c s IH]; [done|]. cbn [unicode_text forallb str_storable].
  intros [Hc Hs]%andb_true_iff.
  destruct (is_scalar_value_spec c Hc) as (Hlt & Hhigh & _).
  rewrite Hhigh, (proj2 (N.ltb_lt _ _) Hlt). cbn [andb negb]. by apply IH.
Qed.

Lemma hex_digit_lt c d : hex_digit c = Some d → (d < 16)%N.
Proof.
  unfold hex_digit, is_digit.
  destruct ((48 <=? c)%N && (c <=? 57)%N) eqn:H1.
  { apply andb_true_iff in H1 as [?%N.leb_le ?%N.leb_le]. intros [= <-]. lia. }
  destruct ((97 <=? c)%N && (c <=? 102)%N) eqn:H2.
  { apply andb_true_iff in H2 as [?%N.leb_le ?%N.leb_le]. intros [= <-]. lia. }
  destruct ((65 <=? c)%N && (c <=? 70)%N) eqn:H3; [|done].
  apply andb_true_iff in H3 as [?%N.leb_le ?%N.leb_le]. intros [= <-]. lia.
Qed.

Lemma decode_uXXXX_lt h1 h2 h3 h4 n :
  decode_uXXXX h1 h2 h3 h4 = Ok n → (n < 65536)%N.
Proof.
  unfold decode_uXXXX.
  destruct (hex_digit h1) as [a|] eqn:Ha; [|done].
  destruct (hex_digit h2) as [b|] eqn:Hb; [|done].
  destruct (hex_digit h3) as [c|] eqn:Hc; [|done].
  destruct (hex_digit h4) as [d|] eqn:Hd; [|done].
  apply hex_digit_lt in Ha, Hb, Hc, Hd. intros [= <-]. lia.
Qed.

Lemma BACKSLASH_lt esc c : BACKSLASH esc = Some c → (c < 128)%N.
Proof.
  unfold BACKSLASH. repeat case_match; intros [= <-]; by vm_compute.
Qed.

Lemma scanstring_backslash_None e R :
  is_ch e "u" = false → BACKSLASH e = None →
  scanstring (REVERSE_SOLIDUS :: e :: R) = Raise JSONDecodeError.
Proof.
  intros Hu Hb.
  assert (scanstring (REVERSE_SOLIDUS :: e :: R) =
          if is_ch e "u" then
            match R with
            | h1 :: h2 :: h3 :: h4 :: s3 => scanstring (REVERSE_SOLIDUS :: e :: R)
            | _ => Raise JSONDecodeError
            end
          else match BACKSLASH e with
               | Some c' => prod_map (cons c') id <$> scanstring R
               | None => Raise JSONDecodeError
               end) as ->.
  { cbn [scanstring]. change (REVERSE_SOLIDUS =? QUOTE)%N with false.
    change (REVERSE_SOLIDUS =? REVERSE_SOLIDUS)%N with true. cbv iota.
    destruct (is_ch e "u"); [|done]. by destruct R as [|? [|? [|? [|? ?]]]]. }
  by rewrite Hu, Hb.
Qed.

Lemma scanstring_u_short R :
  length R < 4 → scanstring (REVERSE_SOLIDUS :: ch "u" :: R) = Raise JSONDecodeError.
Proof.
  intros HR. destruct R as [|? [|? [|? [|? ?]]]]; try done. cbn in HR. lia.
Qed.

(** A code point that is below 0x110000 and not a high surrogate may
    stand before any storable str. *)
Lemma str_storable_cons c s :
  (c < 1114112)%N →
  (is_high_surrogate c = true → ∀ c', head s = Some c' → is_low_surrogate c' = false) →
  str_storable s = true → str_storable (c :: s) = true.
Proof.
  intros Hc Hpair Hs. cbn [str_storable]. rewrite (proj2 (N.ltb_lt _ _) Hc), Hs.
  cbn [andb]. rewrite andb_true_r. apply negb_true_iff.
  destruct (is_high_surrogate c); [|done]. cbn [andb].
  destruct s as [|c' s']; [done|]. by apply Hpair.
Qed.

(** The string that [scanstring] reads from a text of scalar values is
    storable: a low surrogate it starts with was written as an escape, and
    such an escape after the escape of a high surrogate is joined to it. *)
Lemma scanstring_storable n s out rest :
  length s ≤ n → unicode_text s = true → scanstring s = Ok (out, rest) →
  str_storable out = true ∧ unicode_text rest = true ∧
  (∀ c, head out = Some c → is_low_surrogate c = true →
     ∃ g1 g2 g3 g4 s',
       s = REVERSE_SOLIDUS :: ch "u" :: g1 :: g2 :: g3 :: g4 :: s' ∧
       decode_uXXXX g1 g2 g3 g4 = Ok c).
Proof.
  revert s out rest. induction n as [|n IH]; intros s out rest Hlen Hu Hs.
  { destruct s; [done | cbn in Hlen; lia]. }
  destruct s as [|c s1]; [done|]. cbn [length] in Hlen.
  pose proof Hu as Hu'. cbn [unicode_text forallb] in Hu.
  apply andb_true_iff in Hu as [Hc Hu1].
  destruct (is_scalar_value_spec c Hc) as (Hclt & Hchigh & Hclow).
  destruct (c =? QUOTE)%N eqn:Hq.
  { cbn [scanstring] in Hs. rewrite Hq in Hs. injection Hs as <- <-. done. }
  destruct (c =? REVERSE_SOLIDUS)%N eqn:Hr.
  2: { destruct (c <? 32)%N eqn:H32.
       { cbn [scanstring] in Hs. by rewrite Hq, Hr, H32 in Hs. }
       rewrite scanstring_plain in Hs by done.
       destruct (scanstring s1) as [[out1 rest1]|] eqn:Hs1; [|done].
       injection Hs as <- <-.
       destruct (IH s1 out1 rest1) as (Ho & Hrest & _); [lia|done|done|].
       split; [|split; [done|]].
       - apply str_storable_cons; [done| |done]. by rewrite Hchigh.
       - intros c' [= <-] Hlow. by rewrite Hclow in Hlow. }
  apply N.eqb_eq in Hr as ->. clear Hq Hc Hclt Hchigh Hclow.
  destruct s1 as [|esc s2]; [done|]. cbn [length] in Hlen.
  cbn [unicode_text forallb] in Hu1. apply andb_true_iff in Hu1 as [_ Hu2].
  fold (unicode_text s2) in Hu2.
  destruct (is_ch esc "u") eqn:Hesc.
  2: { destruct (BACKSLASH esc) as [c'|] eqn:Hb.
       2: { by rewrite scanstring_backslash_None in Hs. }
       rewrite (scanstring_backslash esc c') in Hs by done.
       destruct (scanstring s2) as [[out2 rest2]|] eqn:Hs2; [|done].
       injection Hs as <- <-. apply BACKSLASH_lt in Hb.
       destruct (IH s2 out2 rest2) as (Ho & Hrest & _); [lia|done|done|].
       split; [|split; [done|]].
       - apply str_storable_cons; [lia| |done].
         unfold is_high_surrogate. intros [?%N.leb_le _]%andb_true_iff. lia.
       - intros c [= <-]. unfold is_low_surrogate.
         intros [?%N.leb_le _]%andb_true_iff. lia. }
  apply N.eqb_eq in Hesc as ->.
  destruct (decide (length s2 < 4)) as [Hshort|Hlong].
  { by rewrite scanstring_u_short in Hs. }
  destruct s2 as [|h1 [|h2 [|h3 [|h4 s3]]]]; try (cbn in Hlong; lia).
  cbn [length] in Hlen.
  assert (unicode_text s3 = true) as Hu3.
  { by apply (unicode_text_drop 4) in Hu2. }
  rewrite scanstring_u in Hs.
  destruct (decode_uXXXX h1 h2 h3 h4) as [uni|] eqn:Hd; [|done].
  cbn [mbind result_bind] in Hs. cbv zeta in Hs.
  pose proof (decode_uXXXX_lt _ _ _ _ _ Hd) as Huni.
  assert (prod_map (cons uni) id <$> scanstring s3 = Ok (out, rest) →
          (is_high_surrogate uni = true → ∀ g1 g2 g3 g4 R' c,
             s3 = REVERSE_SOLIDUS :: ch "u" :: g1 :: g2 :: g3 :: g4 :: R' →
             decode_uXXXX g1 g2 g3 g4 = Ok c → is_low_surrogate c = false) →
          str_storable out = true ∧ unicode_text rest = true ∧
          (∀ c, head out = Some c → is_low_surrogate c = true →
             ∃ g1 g2 g3 g4 s',
               REVERSE_SOLIDUS :: ch "u" :: h1 :: h2 :: h3 :: h4 :: s3 =
                 REVERSE_SOLIDUS :: ch "u" :: g1 :: g2 :: g3 :: g4 :: s' ∧
               decode_uXXXX g1 g2 g3 g4 = Ok c)) as Hsingle.
  { intros Hs3 Hnext.
    destruct (scanstring s3) as [[out3 rest3]|] eqn:Hs3'; [|done].
    injection Hs3 as <- <-.
    destruct (IH s3 out3 rest3) as (Ho & Hrest & Hlow); [lia|done|done|].
    split; [|split; [done|]].
    - apply str_storable_cons; [lia| |done]. intros Hh c' Hc'.
      destruct (is_low_surrogate c') eqn:Hl; [|done].
      destruct (Hlow c' Hc' Hl) as (g1 & g2 & g3 & g4 & R' & -> & Hg).
      by rewrite (Hnext Hh g1 g2 g3 g4 R' c' eq_refl Hg) in Hl.
    - intros c [= <-] _. by exists h1, h2, h3, h4, s3. }
  destruct (is_high_surrogate uni) eqn:Hh; [|by apply Hsingle].
  destruct s3 as [|b [|u [|g1 [|g2 [|g3 [|g4 s4]]]]]];
    try (apply Hsingle; [done|]; intros _ ???????; done).
  destruct ((b =? REVERSE_SOLIDUS)%N && is_ch u "u") eqn:Hbu.
  2: { apply Hsingle; [done|]. intros _ ?????? [= -> -> _ _ _ _ _]. done. }
  destruct (decode_uXXXX g1 g2 g3 g4) as [uni2|] eqn:Hd2; [|done].
  cbn [mbind result_bind] in Hs.
  destruct (is_low_surrogate uni2) eqn:Hl2.
  2: { apply Hsingle; [done|]. intros _ ?????? [= _ _ <- <- <- <- _].
       rewrite Hd2. by intros [= <-]. }
  destruct (scanstring s4) as [[out4 rest4]|] eqn:Hs4; [|done].
  injection Hs as <- <-. cbn [length] in Hlen.
  assert (unicode_text s4 = true) as Hu4 by (by apply (unicode_text_drop 6) in Hu3).
  destruct (IH s4 out4 rest4) as (Ho & Hrest & _); [lia|done|done|].
  unfold is_high_surrogate in Hh. unfold is_low_surrogate in Hl2.
  apply andb_true_iff in Hh as [?%N.leb_le ?%N.leb_le].
  apply andb_true_iff in Hl2 as [?%N.leb_le ?%N.leb_le].
  rewrite lor_shiftl_10 by lia.
  split; [|split; [done|]].
  - apply str_storable_cons; [lia| |done].
    unfold is_high_surrogate. intros [_ ?%N.leb_le]%andb_true_iff. lia.
  - intros c [= <-]. unfold is_low_surrogate.
    intros [_ ?%N.leb_le]%andb_true_iff. lia.
Qed.

(** *** Floats *)

Lemma span_digits_self s : span_digits (span_digits s).1 = ((span_digits s).1, []).
Proof.
  rewrite <- (app_nil_r (span_digits s).1) at 1.
  apply span_digits_all; [apply span_digits_digits | done].
Qed.

Lemma span_digits_prefix s rest :
  (∀ c, head rest = Some c → is_digit c = false) →
  span_digits ((span_digits s).1 ++ rest) = ((span_digits s).1, rest).
Proof. intros Hrest. apply span_digits_all; [apply span_digits_digits | done]. Qed.

(** The integer part that was matched is matched again when a text that
    does not start with a digit follows it. *)
Lemma match_integer_prefix s i r rest :
  match_integer s = Some (i, r) →
  (∀ c, head rest = Some c → is_digit c = false) →
  match_integer (i ++ rest) = Some (i, rest).
Proof.
  intros Hs Hrest. unfold match_integer in Hs.
  assert (∀ s1 (sign : str),
    match s1 with
    | d :: s2 =>
        if is_ch d "0" then Some (sign ++ [d], s2)
        else if is_digit d then
          let '(ds, s3) := span_digits s2 in Some (sign ++ d :: ds, s3)
        else None
    | [] => None
    end = Some (i, r) →
    ∃ d ds, i = sign ++ d :: ds ∧
      match d :: ds ++ rest with
      | d :: s2 =>
          if is_ch d "0" then Some (sign ++ [d], s2)
          else if is_digit d then
            let '(ds, s3) := span_digits s2 in Some (sign ++ d :: ds, s3)
          else None
      | [] => None
      end = Some (i, rest)) as Hbody.
  { intros [|d s2] sign; [done|].
    destruct (is_ch d "0") eqn:H0.
    { intros [= <- <-]. exists d, []. by rewrite H0. }
    destruct (is_digit d) eqn:Hd; [|done].
    pose proof (span_digits_prefix s2 rest Hrest) as Hsp.
    destruct (span_digits s2) as [ds s3]. intros [= <- <-]. cbn [fst] in Hsp.
    exists d, ds. by rewrite H0, Hd, Hsp. }
  destruct s as [|c s'].
  { by destruct (Hbody [] [] Hs) as (d & ds & _ & _). }
  destruct (is_ch c "-") eqn:Hm.
  - destruct (Hbody s' [c] Hs) as (d & ds & -> & Hi).
    unfold match_integer. cbn [app]. by rewrite Hm.
  - destruct (Hbody (c :: s') [] Hs) as (d & ds & -> & Hi).
    unfold match_integer. cbn [app] in *.
    assert (is_ch d "-" = false) as ->; [|done].
    destruct (is_ch d "-") eqn:Hdm; [|done]. apply N.eqb_eq in Hdm as ->.
    by destruct ds.
Qed.

Lemma is_ch_not_digit c a :
  is_ch c a = true → is_digit (ch a) = false → is_digit c = false.
Proof. by intros ->%N.eqb_eq. Qed.

(** The fraction that was matched is matched again before a text that
    starts with neither a digit nor a dot. *)
Lemma match_frac_prefix s rest :
  (∀ c, head rest = Some c → is_digit c = false ∧ is_ch c "." = false) →
  match_frac ((match_frac s).1 ++ rest) = ((match_frac s).1, rest) ∧
  (∀ c, head ((match_frac s).1 ++ rest) = Some c → is_digit c = false).
Proof.
  intros Hrest.
  assert (match_frac rest = ([], rest) ∧
          ∀ c, head rest = Some c → is_digit c = false) as Hnil.
  { split; [|by intros c [??]%Hrest]. destruct rest as [|c rest]; [done|].
    cbn [match_frac]. by destruct (Hrest c eq_refl) as [_ ->]. }
  destruct s as [|c s1]; [done|]. cbn [match_frac].
  destruct (is_ch c ".") eqn:Hdot; [|done].
  pose proof (span_digits_prefix s1 rest (λ c Hc, proj1 (Hrest c Hc))) as Hsp.
  destruct (span_digits s1) as [[|d ds] s2]; [done|]. cbn [fst app match_frac] in *.
  rewrite Hdot, Hsp. split; [done|]. intros ? [= <-].
  by apply (is_ch_not_digit c ".").
Qed.

(** The exponent that was matched is matched again at the end of the
    text. *)
Lemma match_exp_prefix s :
  match_exp (match_exp s).1 = ((match_exp s).1, []) ∧
  (∀ c, head (match_exp s).1 = Some c → is_digit c = false ∧ is_ch c "." = false).
Proof.
  destruct s as [|c s1]; [done|]. cbn [match_exp].
  destruct (is_ch c "e" || is_ch c "E") eqn:He; [|done].
  assert (is_digit c = false ∧ is_ch c "." = false) as Hc.
  { by apply orb_true_iff in He as [->%N.eqb_eq| ->%N.eqb_eq]. }
  destruct s1 as [|g s'].
  { cbn [span_digits fst]. done. }
  destruct (is_ch g "-" || is_ch g "+") eqn:Hg.
  - pose proof (span_digits_self s') as Hsp.
    destruct (span_digits s') as [[|d ds] s3]; [done|]. cbn [fst app match_exp] in *.
    rewrite He, Hg, Hsp. split; [done|]. by intros ? [= <-].
  - pose proof (span_digits_self (g :: s')) as Hsp.
    pose proof (span_digits_digits (g :: s')) as Hds.
    destruct (span_digits (g :: s')) as [[|d ds] s3]; [done|]. cbn [fst app match_exp] in *.
    rewrite He. apply Forall_cons in Hds as [Hd _].
    assert (is_ch d "-" || is_ch d "+" = false) as ->.
    { apply orb_false_iff. split; apply N.eqb_neq; intros ->; done. }
    rewrite Hsp. split; [done|]. by intros ? [= <-].
Qed.

(** The literal of a float that the decoder reads is a float text. *)
Lemma match_number_float_token s l r :
  match_number s = Some (PFloat l, r) → float_token l = true.
Proof.
  unfold match_number. destruct (match_integer s) as [[i s1]|] eqn:Hi; [|done].
  destruct (match_exp_prefix (match_frac s1).2) as [He Heh].
  destruct (match_frac_prefix s1 (match_exp (match_frac s1).2).1 Heh) as [Hf Hfh].
  pose proof (match_integer_prefix s i s1 _ Hi Hfh) as Hi'.
  destruct (match_frac s1) as [frac s2]. cbn [fst snd] in *.
  destruct (match_exp s2) as [exp s3]. cbn [fst snd] in *.
  assert (match_number (i ++ frac ++ exp) = Some (PFloat (i ++ frac ++ exp), []) ∨
          (frac = [] ∧ exp = [])) as [Hn|[-> ->]].
  { unfold match_number. rewrite Hi', Hf, He. destruct frac, exp; auto. }
  - destruct frac, exp; intros [= <- <-]; try done; unfold float_token;
      cbn [app] in *; by rewrite Hn.
  - done.
Qed.

(** *** Arrays, objects and values *)

Lemma unicode_text_tail c s : unicode_text (c :: s) = true → unicode_text s = true.
Proof. cbn [unicode_text forallb]. by intros [_ ?]%andb_true_iff. Qed.

Lemma dict_set_Forall {V} (P : str * V → Prop) (d : list (str * V)) k v :
  Forall P d → P (k, v) → Forall P (dict_set d k v).
Proof.
  intros Hd Hkv. induction Hd as [|[k' v'] d Hx Hd IH]; cbn [dict_set].
  - by constructor.
  - destruct (decide (k' = k)); by constructor.
Qed.

Lemma dict_of_pairs_Forall {V} (P : str * V → Prop) (l : list (str * V)) :
  Forall P l → Forall P (dict_of_pairs l).
Proof.
  induction l as [|[k v] l IH] using rev_ind; [done|].
  rewrite Forall_app, Forall_singleton. intros [Hl Hkv].
  rewrite dict_of_pairs_app. apply dict_set_Forall; [by apply IH | done].
Qed.

Lemma dict_of_pairs_keys_NoDup {V} (l : list (str * V)) : NoDup (dict_of_pairs l).*1.
Proof.
  induction l as [|[k v] l IH] using rev_ind; [constructor|].
  rewrite dict_of_pairs_app. by apply dict_set_NoDup.
Qed.

Lemma match_number_kind s v r :
  match_number s = Some (v, r) → (∃ z, v = PInt z) ∨ (∃ l, v = PFloat l).
Proof.
  unfold match_number. destruct (match_integer s) as [[i t1]|]; [|done].
  destruct (match_frac t1) as [frac t2], (match_exp t2) as [exp t3].
  destruct frac, exp; intros [= <- <-]; eauto.
Qed.

Section decoded_storable.
Variable float_repr : str → str.
Hypothesis float_repr_token :
  ∀ l, float_token l = true → float_token (float_repr l) = true.

Lemma array_loop_storable scan fuel values s v r :
  reads_storable float_repr scan →
  Forall (λ x, storable float_repr x = true) values →
  unicode_text s = true →
  array_loop scan fuel values s = Ok (v, r) →
  storable float_repr v = true ∧ unicode_text r = true.
Proof.
  intros Hscan. revert values s.
  induction fuel as [|fuel IH]; intros values s Hvalues Hs Hloop; [done|].
  cbn [array_loop] in Hloop.
  destruct (scan s) as [[value s1]|] eqn:Hv; [|done]. cbn [mbind result_bind] in Hloop.
  destruct (Hscan s value s1 Hs Hv) as [Hvalue Hs1].
  apply unicode_text_skip_ws in Hs1.
  destruct (skip_ws s1) as [|c s2]; [done|]. apply unicode_text_tail in Hs1.
  destruct (is_ch c "]").
  { injection Hloop as <- <-. split; [|done]. apply storable_PList.
    apply Forall_app. split; [done|]. by apply Forall_singleton. }
  destruct (is_ch c ","); [|done].
  apply (IH (values ++ [value]) (skip_ws s2)); [|by apply unicode_text_skip_ws|done].
  apply Forall_app. split; [done|]. by apply Forall_singleton.
Qed.

Lemma JSONArray_storable scan :
  reads_storable float_repr scan → reads_storable float_repr (JSONArray scan).
Proof.
  intros Hscan s v r Hs. unfold JSONArray.
  pose proof (unicode_text_skip_ws s Hs) as Hs'.
  destruct (skip_ws s) as [|c s1] eqn:Hsk; [done|].
  destruct (is_ch c "]").
  { intros [= <- <-]. split; [done|]. by apply unicode_text_tail in Hs'. }
  by apply array_loop_storable.
Qed.

Lemma object_loop_storable scan fuel pairs s v r :
  reads_storable float_repr scan →
  Forall (λ kv, str_storable kv.1 = true ∧ storable float_repr kv.2 = true) pairs →
  unicode_text s = true →
  object_loop scan fuel pairs s = Ok (v, r) →
  storable float_repr v = true ∧ unicode_text r = true.
Proof.
  intros Hscan. revert pairs s.
  induction fuel as [|fuel IH]; intros pairs s Hpairs Hs Hloop; [done|].
  cbn [object_loop] in Hloop.
  destruct (scanstring s) as [[key s1]|] eqn:Hk; [|done]. cbn [mbind result_bind] in Hloop.
  destruct (scanstring_storable (length s) s key s1) as (Hkey & Hs1 & _); [done..|].
  apply unicode_text_skip_ws in Hs1.
  destruct (skip_ws s1) as [|c s2]; [done|]. apply unicode_text_tail in Hs1.
  destruct (is_ch c ":"); [|done].
  destruct (scan (skip_ws s2)) as [[value s3]|] eqn:Hv; [|done].
  cbn [mbind result_bind] in Hloop.
  destruct (Hscan _ value s3 (unicode_text_skip_ws _ Hs1) Hv) as [Hvalue Hs3].
  apply unicode_text_skip_ws in Hs3.
  destruct (skip_ws s3) as [|c' s4]; [done|]. apply unicode_text_tail in Hs3.
  assert (Forall (λ kv, str_storable kv.1 = true ∧ storable float_repr kv.2 = true)
            (pairs ++ [(key, value)])) as Hpairs'.
  { apply Forall_app. split; [done|]. by apply Forall_singleton. }
  destruct (is_ch c' "}").
  { injection Hloop as <- <-. split; [|done]. apply storable_PDict.
    split; [apply dict_of_pairs_keys_NoDup | by apply dict_of_pairs_Forall]. }
  destruct (is_ch c' ","); [|done].
  apply unicode_text_skip_ws in Hs3.
  destruct (skip_ws s4) as [|q s5]; [done|]. apply unicode_text_tail in Hs3.
  destruct (q =? QUOTE)%N; [|done]. by apply (IH (pairs ++ [(key, value)]) s5).
Qed.

Lemma JSONObject_storable scan :
  reads_storable float_repr scan → reads_storable float_repr (JSONObject scan).
Proof.
  intros Hscan s v r Hs. unfold JSONObject.
  pose proof (unicode_text_skip_ws s Hs) as Hs'.
  destruct (skip_ws s) as [|c s1] eqn:Hsk; [done|]. apply unicode_text_tail in Hs'.
  destruct (is_ch c "}"); [by intros [= <- <-]|].
  destruct (c =? QUOTE)%N; [|done]. by apply object_loop_storable.
Qed.

Lemma scan_once_storable depth : reads_storable float_repr (scan_once depth).
Proof.
  induction depth as [|depth IH]; intros s v r Hs Hscan; [done|].
  destruct s as [|c s1]; [done|]. cbn [scan_once] in Hscan.
  pose proof (unicode_text_tail _ _ Hs) as Hs1.
  destruct (c =? QUOTE)%N.
  { destruct (scanstring s1) as [[out rest]|] eqn:Hstr; [|done].
    injection Hscan as <- <-.
    by destruct (scanstring_storable (length s1) s1 out rest) as (? & ? & _). }
  destruct (is_ch c "{"); [by apply (JSONObject_storable _ IH s1)|].
  destruct (is_ch c "["); [by apply (JSONArray_storable _ IH s1)|].
  destruct (startswith (c :: s1) (lit "null")).
  { injection Hscan as <- <-. split; [done|]. by apply unicode_text_drop. }
  destruct (startswith (c :: s1) (lit "true")).
  { injection Hscan as <- <-. split; [done|]. by apply unicode_text_drop. }
  destruct (startswith (c :: s1) (lit "false")).
  { injection Hscan as <- <-. split; [done|]. by apply unicode_text_drop. }
  destruct (match_number (c :: s1)) as [[n rest]|] eqn:Hn.
  { injection Hscan as <- <-.
    assert (unicode_text rest = true) as Hrest.
    { unfold match_number in Hn.
      destruct (match_integer (c :: s1)) as [[i t1]|] eqn:Hi; [|done].
      apply match_integer_eq in Hi.
      pose proof (match_frac_eq t1) as Hf. destruct (match_frac t1) as [frac t2].
      pose proof (match_exp_eq t2) as He. destruct (match_exp t2) as [exp t3].
      cbn [fst snd] in *.
      assert (rest = t3) as -> by (by destruct frac, exp; injection Hn as <- <-).
      apply (unicode_text_sublist (c :: s1)); [|done].
      rewrite Hi, Hf, He. do 3 apply sublist_inserts_l. done. }
    split; [|done].
    destruct (match_number_kind _ _ _ Hn) as [[z ->]|[l ->]]; [done|].
    cbn [storable]. by apply float_repr_token, (match_number_float_token (c :: s1) _ rest). }
  destruct (startswith (c :: s1) (lit "NaN")).
  { injection Hscan as <- <-. split; [by apply float_repr_token|]. by apply unicode_text_drop. }
  destruct (startswith (c :: s1) (lit "Infinity")).
  { injection Hscan as <- <-. split; [by apply float_repr_token|]. by apply unicode_text_drop. }
  destruct (startswith (c :: s1) (lit "-Infinity")); [|done].
  injection Hscan as <- <-. split; [by apply float_repr_token|]. by apply unicode_text_drop.
Qed.

(** What json.loads returns for a text of scalar values is storable. *)
Lemma json_loads_storable s v :
  unicode_text s = true → json_loads s = Ok v → storable float_repr v = true.
Proof.
  intros Hs. unfold json_loads.
  destruct (scan_once (S (length s)) (skip_ws s)) as [[obj rest]|] eqn:Hscan; [|done].
  cbn [mbind result_bind]. destruct (skip_ws rest); [|done]. intros [= <-].
  by destruct (scan_once_storable _ _ _ _ (unicode_text_skip_ws s Hs) Hscan).
Qed.
End decoded_storable.

(** ** From the reply of the evaluator to the scores of the tables *)

Section stored_scores.
Context {W : Type} `{Environment W} {G : Type} `{RandomSource G}.
Hypothesis float_repr_token :
  ∀ l, float_token l = true → float_token (float_repr l) = true.

(** What parse_json_response returns for a reply of scalar values can be
    stored. *)
Lemma parse_json_response_storable text v :
  unicode_text text = true → parse_json_response text = Ok v →
  storable float_repr v = true.
Proof.
  intros Htext. unfold parse_json_response.
  pose proof (unicode_text_sublist _ _ (clean_response_sublist text) Htext) as Hc.
  destruct (json_loads (clean_response text)) as [v'|e] eqn:Hl.
  { intros [= <-]. by apply (json_loads_storable float_repr float_repr_token _ _ Hc). }
  destruct e; try done.
  destruct (negb _ && negb _).
  - apply json_loads_storable; [done|]. unfold str_slice.
    eapply unicode_text_sublist; [|done].
    etrans; [apply sublist_take | apply sublist_drop].
  - intros [= <-]. apply storable_PDict. split; [by apply (bool_decide_unpack _)|].
    repeat constructor. cbn. by apply unicode_text_storable.
Qed.

(** A provenance map between the labels and the categories is read back
    as it was stored. *)
Lemma json_loads_dumps_mapping (mapping : dict str) :
  is_bijection mapping →
  json_loads (json_dumps float_repr (py_of_mapping mapping)) = Ok (py_of_mapping mapping).
Proof.
  intros [Hkeys Hvalues].
  rewrite json_loads_dumps.
  - f_equal. unfold py_of_mapping. rewrite stored_PDict. f_equal.
    rewrite <- list_fmap_compose. apply list_fmap_ext. by intros ? [??].
  - apply storable_PDict. split.
    + rewrite <- list_fmap_compose.
      assert (NoDup (dict_keys mapping)) as Hnd by (rewrite Hkeys; apply blind_labels_NoDup).
      unfold dict_keys in Hnd. erewrite list_fmap_ext; [exact Hnd|]. by intros ? [??].
    + apply Forall_fmap, Forall_forall. intros [label category] Hin. cbn.
      assert (label ∈ blind_labels) as Hl.
      { rewrite <- Hkeys. unfold dict_keys. by apply (list_elem_of_fmap_2 fst) in Hin. }
      assert (category ∈ categories) as Hc.
      { rewrite <- Hvalues. unfold dict_values. by apply (list_elem_of_fmap_2 snd) in Hin. }
      split.
      * repeat (apply elem_of_cons in Hl as [->|Hl]); [done..|by apply elem_of_nil in Hl].
      * repeat (apply elem_of_cons in Hc as [->|Hc]); [done..|by apply elem_of_nil in Hc].
Qed.

(** The Evaluation row that the processing of a sentence appends, read
    by json.loads and by parse_scores. *)
Lemma process_sentence_read_back
    provider model translation_system evaluation_system run_id lang row
    w conn (rng : G) w' conn' rng' :
  (∀ system_prompt user_prompt w1 response w2,
     _call_model provider model system_prompt user_prompt w1 = Ok (response, w2) →
     unicode_text response = true) →
  process_sentence provider model translation_system evaluation_system
    run_id lang row (w, conn, rng) = Ok (w', conn', rng') →
  ∃ translation_gpt w1 labels mapping a b c evaluation e,
    get_translation provider model translation_system
      (translation_user_prompt lang (original_text row)) w = Ok (translation_gpt, w1) ∧
    prepare_blind_labels rng translation_gpt (translation_google row)
      (translation_human row) = Ok (labels, mapping, rng') ∧
    dict_getitem labels label_A = Ok a ∧
    dict_getitem labels label_B = Ok b ∧
    dict_getitem labels label_C = Ok c ∧
    blind_evaluate provider model evaluation_system (original_text row) a b c w1
      = Ok (evaluation, w') ∧
    rows (evaluations conn') = rows (evaluations conn) ++ [e] ∧
    evaluation_run_id e = run_id ∧
    evaluation_sentence_id e = sentence_rowid row ∧
    is_bijection mapping ∧
    json_loads (evaluation_json e) = Ok (stored float_repr evaluation) ∧
    json_loads (mapping_json e) = Ok (py_of_mapping mapping) ∧
    match stored float_repr evaluation with
    | PDict eval_data =>
        ∃ scores,
          parse_scores (evaluation_json e) (mapping_json e) = Ok scores ∧
          dict_keys scores = categories ∧
          ∀ label category, dict_get mapping label = Some category →
            dict_get scores category =
              Some (default PNone (dict_get eval_data (score_key label)))
    | _ => parse_scores (evaluation_json e) (mapping_json e) = Raise AttributeError
    end.
Proof.
  intros Hreply Hp. unfold process_sentence in Hp.
  inv_bind Hp. destruct a as [translation_gpt w1].
  inv_bind Hp. destruct a as [[labels mapping] rng1].
  do 3 inv_bind Hp. inv_bind Hp. destruct a2 as [evaluation w2].
  injection Hp as <- <- <-.
  pose proof Ha0 as Hprep.
  apply prepare_blind_labels_mapping in Ha0 as [Hshuffle Hkeys].
  assert (is_bijection mapping) as Hbij.
  { split; [by rewrite Hkeys|].
    destruct (shuffle_Permutation rng categories) as (perm & rng2 & Hs & Hperm).
    rewrite Hs in Hshuffle. by injection Hshuffle as <- <-. }
  exists translation_gpt, w1, labels, mapping, a, a0, a1, evaluation,
    (Evaluation (autoincrement evaluation_rowid (evaluations conn)) run_id
       (sentence_rowid row) (json_dumps float_repr evaluation)
       (json_dumps float_repr (py_of_mapping mapping))).
  split; [exact Ha|]. split; [exact Hprep|]. do 3 (split; [done|]).
  split; [done|]. split; [reflexivity|]. do 2 (split; [reflexivity|]).
  split; [done|].
  unfold evaluation_json, mapping_json.
  assert (storable float_repr evaluation = true) as Hst.
  { unfold blind_evaluate in Ha4. inv_bind Ha4. destruct a2 as [response w3].
    inv_bind Ha4. injection Ha4 as <- <-.
    apply (parse_json_response_storable response); [|done]. by eapply Hreply. }
  pose proof (json_loads_dumps float_repr evaluation Hst) as Hej.
  pose proof (json_loads_dumps_mapping mapping Hbij) as Hmj.
  split; [done|]. split; [done|].
  unfold parse_scores. rewrite Hej, Hmj.
  cbn [mbind result_bind].
  destruct (stored float_repr evaluation) as [| | | | | |eval_data]; try done.
  cbn [py_get mbind result_bind py_of_mapping py_items].
  set (score_map := dict_of_pairs _).
  set (scores0 := dict_of_pairs [(GPT, PNone); (Google, PNone); (Human, PNone)]).
  destruct Hbij as [Hk Hv].
  destruct (parse_scores_loop score_map mapping scores0)
    as (scores & -> & Hks & Hset & _).
  { intros c' Hc'. rewrite Hv in Hc'. exact Hc'. }
  { rewrite Hv. apply categories_NoDup. }
  exists scores. split; [done|]. split; [by rewrite Hks|].
  intros label category Hget.
  assert ((label, category) ∈ mapping) as Hin.
  { clear -Hget. induction mapping as [|[k v] m IH]; [done|]. cbn [dict_get] in Hget.
    destruct (decide (k = label)) as [->|Hne].
    - injection Hget as ->. by left.
    - right. by apply IH. }
  rewrite (Hset _ _ Hin). f_equal.
  assert (label ∈ blind_labels) as Hl.
  { rewrite <- Hk. unfold dict_keys. by apply (list_elem_of_fmap_2 fst) in Hin. }
  repeat (apply elem_of_cons in Hl as [->|Hl]); [done..|by apply elem_of_nil in Hl].
Qed.

(** X19: from the reply of the evaluator to the scores of the tables.
    Let the model service reply with Unicode texts, and let the text
    written for a float be a float text. When the processing of a sentence
    returns, it has made the translation call, drawn the labels and the
    provenance map with prepare_blind_labels from the generator of the
    run, called blind_evaluate with the texts under A, B, C, and appended
    one Evaluation row for the run and the sentence. Its mapping_json
    decodes to the provenance map drawn, its evaluation_json to the record
    blind_evaluate returned, and parse_scores of the two texts gives the
    scores of this record by this map: when the record is an object, the
    three categories, the category that the map assigns to a label
    holding the score the object holds for that label (None when it holds
    none, as for the json_parse_failed record); when it is another JSON
    value, AttributeError. *)
Theorem process_sentence_scores_read_back
    provider model translation_system evaluation_system run_id lang row
    w conn (rng : G) w' conn' rng' :
  (∀ system_prompt user_prompt w1 response w2,
     _call_model provider model system_prompt user_prompt w1 = Ok (response, w2) →
     unicode_text response = true) →
  process_sentence provider model translation_system evaluation_system
    run_id lang row (w, conn, rng) = Ok (w', conn', rng') →
  ∃ translation_gpt w1 labels mapping a b c evaluation e,
    get_translation provider model translation_system
      (translation_user_prompt lang (original_text row)) w = Ok (translation_gpt, w1) ∧
    prepare_blind_labels rng translation_gpt (translation_google row)
      (translation_human row) = Ok (labels, mapping, rng') ∧
    dict_getitem labels label_A = Ok a ∧
    dict_getitem labels label_B = Ok b ∧
    dict_getitem labels label_C = Ok c ∧
    blind_evaluate provider model evaluation_system (original_text row) a b c w1
      = Ok (evaluation, w') ∧
    rows (evaluations conn') = rows (evaluations conn) ++ [e] ∧
    evaluation_run_id e = run_id ∧
    evaluation_sentence_id e = sentence_rowid row ∧
    is_bijection mapping ∧
    json_loads (evaluation_json e) = Ok (stored float_repr evaluation) ∧
    json_loads (mapping_json e) = Ok (py_of_mapping mapping) ∧
    match stored float_repr evaluation with
    | PDict eval_data =>
        ∃ scores,
          parse_scores (evaluation_json e) (mapping_json e) = Ok scores ∧
          dict_keys scores = categories ∧
          ∀ label category, dict_get mapping label = Some category →
            dict_get scores category =
              Some (default PNone (dict_get eval_data (score_key label)))
    | _ => parse_scores (evaluation_json e) (mapping_json e) = Raise AttributeError
    end.
Proof. apply process_sentence_read_back. Qed.

(** A loop whose body appends Evaluation rows with a property appends
    rows with the property. *)
Lemma for_each_evaluations {A S} (conn_of : S → connection) (P : evaluation → Prop)
    (body : A → S → result S) l s s' :
  (∀ a s s', body a s = Ok s' →
     ∃ es, rows (evaluations (conn_of s')) = rows (evaluations (conn_of s)) ++ es ∧
           Forall P es) →
  for_each l body s = Ok s' →
  ∃ es, rows (evaluations (conn_of s')) = rows (evaluations (conn_of s)) ++ es ∧
        Forall P es.
Proof.
  intros Hbody. revert s. induction l as [|a l IH]; intros s Hloop.
  { injection Hloop as <-. exists []. by rewrite app_nil_r. }
  rewrite for_each_cons in Hloop. apply bind_Ok in Hloop as (s1 & Ha & Hloop).
  apply Hbody in Ha as (es1 & Hes1 & Hall1). apply IH in Hloop as (es2 & Hes2 & Hall2).
  exists (es1 ++ es2). split; [by rewrite Hes2, Hes1, (assoc_L (++))|].
  by apply Forall_app.
Qed.

(** An Evaluation row that the table script can read. *)
Lemma run_pipeline_read_back config database w w' conn' :
  (∀ provider model system_prompt user_prompt w1 response w2,
     _call_model provider model system_prompt user_prompt w1 = Ok (response, w2) →
     unicode_text response = true) →
  run_pipeline (G:=G) config database w = Ok (w', conn') →
  ∃ es,
    rows (evaluations conn') = rows (evaluations (init_db database)) ++ es ∧
    Forall (λ e, ∃ evaluation mapping,
              json_loads (evaluation_json e) = Ok evaluation ∧
              json_loads (mapping_json e) = Ok (py_of_mapping mapping) ∧
              is_bijection mapping ∧
              match evaluation with
              | PDict eval_data =>
                  ∃ scores,
                    parse_scores (evaluation_json e) (mapping_json e) = Ok scores ∧
                    dict_keys scores = categories ∧
                    ∀ label category, dict_get mapping label = Some category →
                      dict_get scores category =
                        Some (default PNone (dict_get eval_data (score_key label)))
              | _ => parse_scores (evaluation_json e) (mapping_json e)
                       = Raise AttributeError
              end) es.
Proof.
  intros Hreply Hrun. unfold run_pipeline in Hrun.
  apply bind_Ok in Hrun as (conn1 & Hload & Hrun).
  pose proof (load_seed_data_stores_seed_rows_aux _ _ _ _ Hload)
    as (_ & _ & _ & _ & Hev1).
  rewrite <- Hev1.
  refine (for_each_evaluations snd _ _ _ (w, conn1) (w', conn') _ Hrun).
  clear -Hreply float_repr_token. intros model_cfg [w conn] [w' conn'] Hm.
  cbn [snd]. unfold process_model in Hm.
  destruct (utcnow_isoformat w) as [created_at w1].
  destruct (insert_run _ _ _ _ _ _) as [run_id conn1] eqn:Hins.
  apply bind_Ok in Hm as ([[w2 conn2] rng2] & Hlangs & Hm). injection Hm as <- <-.
  assert (evaluations conn1 = evaluations conn) as <-.
  { unfold insert_run in Hins. by injection Hins as _ <-. }
  refine (for_each_evaluations (λ st, st.1.2) _ _ _ (w1, conn1, _) (w2, conn2, rng2)
            _ Hlangs).
  clear -Hreply float_repr_token. intros lang st st' Hl. unfold process_language in Hl.
  refine (for_each_evaluations (λ st, st.1.2) _ _ _ st st' _ Hl).
  clear -Hreply float_repr_token. intros row [[w conn] rng] [[w' conn'] rng'] Hp.
  cbn [fst snd].
  destruct (process_sentence_read_back _ _ _ _ _ _ _ _ _ _ _ _ _
              (Hreply _ _) Hp)
    as (translation_gpt & w1 & labels & mapping & a & b & c & evaluation & e &
        _ & _ & _ & _ & _ & _ & He & _ & _ & Hbij & Hej & Hmj & Hscores).
  exists [e]. split; [done|]. apply Forall_singleton.
  by exists (stored float_repr evaluation), mapping.
Qed.

(** X20: the table script can read every row that the pipeline has
    stored. Let the model service reply with Unicode texts, and let the
    text written for a float be a float text. When run_pipeline returns,
    each Evaluation row it has added holds two JSON texts: json.loads
    reads both (no JSONDecodeError), the mapping is a bijection between
    the labels and the categories, and parse_scores either returns the
    three categories, each with the score that the evaluation object
    holds for the label mapped to it (None when it holds none), or, when
    the evaluation is not an object, raises AttributeError. *)
Theorem run_pipeline_stores_readable_scores config database w w' conn' :
  (∀ provider model system_prompt user_prompt w1 response w2,
     _call_model provider model system_prompt user_prompt w1 = Ok (response, w2) →
     unicode_text response = true) →
  run_pipeline (G:=G) config database w = Ok (w', conn') →
  ∃ es,
    rows (evaluations conn') = rows (evaluations (init_db database)) ++ es ∧
    Forall (λ e, ∃ evaluation mapping,
              json_loads (evaluation_json e) = Ok evaluation ∧
              json_loads (mapping_json e) = Ok (py_of_mapping mapping) ∧
              is_bijection mapping ∧
              match evaluation with
              | PDict eval_data =>
                  ∃ scores,
                    parse_scores (evaluation_json e) (mapping_json e) = Ok scores ∧
                    dict_keys scores = categories ∧
                    ∀ label category, dict_get mapping label = Some category →
                      dict_get scores category =
                        Some (default PNone (dict_get eval_data (score_key label)))
              | _ => parse_scores (evaluation_json e) (mapping_json e)
                       = Raise AttributeError
              end) es.
Proof. apply run_pipeline_read_back. Qed.
End stored_scores.

Lemma stub_replies_unicode provider model system_prompt user_prompt
    (w1 : nat) response w2 :
  _call_model provider model system_prompt user_prompt w1 = Ok (response, w2) →
  unicode_text response = true.
Proof.
  unfold _call_model. cbn [openai_chat gemini_chat stub_environment]. unfold stub_chat.
  repeat case_decide; [| |done]; intros [= <- _]; by destruct (Nat.even w1).
Qed.

Lemma process_sentence_scores_read_back_witness :
  ∃ w' conn' rng',
    process_sentence (G:=N) (lit "openai") (lit "gpt-4o")
      (lit "You are a translator.") (lit "You are an evaluator.")
      1 (lit "finnish") example_sentence (0, example_connection, Random 42)
      = Ok (w', conn', rng') ∧
    ∃ translation_gpt w1 labels mapping a b c evaluation e,
      get_translation (lit "openai") (lit "gpt-4o") (lit "You are a translator.")
        (translation_user_prompt (lit "finnish") (original_text example_sentence)) 0
        = Ok (translation_gpt, w1) ∧
      prepare_blind_labels (Random 42) translation_gpt
        (translation_google example_sentence) (translation_human example_sentence)
        = Ok (labels, mapping, rng') ∧
      dict_getitem labels label_A = Ok a ∧
      dict_getitem labels label_B = Ok b ∧
      dict_getitem labels label_C = Ok c ∧
      blind_evaluate (lit "openai") (lit "gpt-4o") (lit "You are an evaluator.")
        (original_text example_sentence) a b c w1 = Ok (evaluation, w') ∧
      rows (evaluations conn') = rows (evaluations example_connection) ++ [e] ∧
      evaluation_run_id e = 1%Z ∧
      evaluation_sentence_id e = sentence_rowid example_sentence ∧
      is_bijection mapping ∧
      json_loads (evaluation_json e) = Ok (stored float_repr evaluation) ∧
      json_loads (mapping_json e) = Ok (py_of_mapping mapping) ∧
      match stored float_repr evaluation with
      | PDict eval_data =>
          ∃ scores,
            parse_scores (evaluation_json e) (mapping_json e) = Ok scores ∧
            dict_keys scores = categories ∧
            ∀ label category, dict_get mapping label = Some category →
              dict_get scores category =
                Some (default PNone (dict_get eval_data (score_key label)))
      | _ => parse_scores (evaluation_json e) (mapping_json e) = Raise AttributeError
      end.
Proof.
  destruct (process_sentence (G:=N) (lit "openai") (lit "gpt-4o")
      (lit "You are a translator.") (lit "You are an evaluator.")
      1 (lit "finnish") example_sentence (0, example_connection, Random 42))
    as [[[w' conn'] rng']|e] eqn:Hp; [|vm_compute in Hp; discriminate Hp].
  exists w', conn', rng'. split; [reflexivity|].
  apply (process_sentence_scores_read_back (H:=stub_environment) (G:=N) (λ l Hl, Hl)
           (lit "openai") (lit "gpt-4o")
           (lit "You are a translator.") (lit "You are an evaluator.")
           1 (lit "finnish") example_sentence 0 example_connection
           (Random 42) w' conn' rng' (stub_replies_unicode _ _) Hp).
Defined.

Lemma run_pipeline_stores_readable_scores_witness :
  ∃ w' conn',
    run_pipeline (G:=N) (stub_config [lit "finnish"]) None 0 = Ok (w', conn') ∧
    ∃ es,
      rows (evaluations conn') = rows (evaluations (init_db None)) ++ es ∧
      Forall (λ e, ∃ evaluation mapping,
                json_loads (evaluation_json e) = Ok evaluation ∧
                json_loads (mapping_json e) = Ok (py_of_mapping mapping) ∧
                is_bijection mapping ∧
                match evaluation with
                | PDict eval_data =>
                    ∃ scores,
                      parse_scores (evaluation_json e) (mapping_json e) = Ok scores ∧
                      dict_keys scores = categories ∧
                      ∀ label category, dict_get mapping label = Some category →
                        dict_get scores category =
                          Some (default PNone (dict_get eval_data (score_key label)))
                | _ => parse_scores (evaluation_json e) (mapping_json e)
                         = Raise AttributeError
                end) es.
Proof.
  destruct (run_pipeline (G:=N) (stub_config [lit "finnish"]) None 0)
    as [[w' conn']|e] eqn:Hrun; [|vm_compute in Hrun; discriminate Hrun].
  exists w', conn'. split; [reflexivity|].
  apply (run_pipeline_stores_readable_scores (H:=stub_environment) (G:=N) (λ l Hl, Hl)
           (stub_config [lit "finnish"]) None 0 w' conn' stub_replies_unicode Hrun).
Defined.

(** ** methodology.prepare_blind_labels: the draws and the orders *)

Lemma categories_orders (perm : list str) :
  perm ≡ₚ categories →
  perm ∈ [[GPT; Google; Human]; [GPT; Human; Google]; [Google; GPT; Human];
          [Google; Human; GPT]; [Human; GPT; Google]; [Human; Google; GPT]].
Proof.
  intros Hperm. pose proof (Permutation_length Hperm) as Hlen.
  assert (NoDup perm) as Hnd by (rewrite Hperm; apply categories_NoDup).
  destruct perm as [|a [|b [|c [|]]]]; try done.
  assert (a ∈ categories) as Ha by (rewrite <- Hperm; by left).
  assert (b ∈ categories) as Hb by (rewrite <- Hperm; right; by left).
  assert (c ∈ categories) as Hc by (rewrite <- Hperm; do 2 right; by left).
  apply NoDup_cons in Hnd as [Hab Hnd]. apply NoDup_cons in Hnd as [Hbc _].
  apply not_elem_of_cons in Hab as [Hab Hac]. apply not_elem_of_cons in Hac as [Hac _].
  apply not_elem_of_cons in Hbc as [Hbc _].
  unfold categories in *.
  repeat (apply elem_of_cons in Ha as [->|Ha]); [| | |by apply elem_of_nil in Ha];
  (repeat (apply elem_of_cons in Hb as [->|Hb]); [| | |by apply elem_of_nil in Hb]);
  (repeat (apply elem_of_cons in Hc as [->|Hc]); [| | |by apply elem_of_nil in Hc]);
  try done; repeat ((by left) || right).
Qed.

(** The shuffle of three elements as a function of its two draws. *)
Lemma shuffle_three {G} `{RandomSource G} {A} (rng : G) (x0 x1 x2 : A) :
  ∃ j2 j1 rng1 rng2,
    randbelow rng 3 = (j2, rng1) ∧ randbelow rng1 2 = (j1, rng2) ∧
    j2 < 3 ∧ j1 < 2 ∧
    shuffle rng [x0; x1; x2] =
      Ok (match j2, j1 with
          | 0, 0 => [x1; x2; x0]
          | 0, _ => [x2; x1; x0]
          | 1, 0 => [x2; x0; x1]
          | 1, _ => [x0; x2; x1]
          | _, 0 => [x1; x0; x2]
          | _, _ => [x0; x1; x2]
          end, rng2).
Proof.
  pose proof (randbelow_lt rng 3 ltac:(lia)) as H2.
  destruct (randbelow rng 3) as [j2 rng1] eqn:Hj2.
  pose proof (randbelow_lt rng1 2 ltac:(lia)) as H1.
  destruct (randbelow rng1 2) as [j1 rng2] eqn:Hj1. cbn [fst] in *.
  exists j2, j1, rng1, rng2. do 4 (split; [done|]).
  unfold shuffle. cbn [length Nat.sub shuffle_loop Nat.add]. rewrite Hj2.
  destruct j2 as [|[|[|?]]]; [| | |lia]; cbn; rewrite Hj1;
    (destruct j1 as [|[|?]]; [| |lia]); reflexivity.
Qed.

(** Which of the six cases of the two draws gives an order. *)
Ltac decide_draws Hdraws :=
  intros; edestruct Hdraws as (? & ? & ->); [done|];
  destruct (randbelow _ 3).1 as [|[|[|?]]]; [| | |lia];
  (destruct (randbelow _ 2).1 as [|[|?]]; [| |lia]);
  (split; [intros Heq; try done; vm_compute in Heq; discriminate Heq
          |intros [??]; try done; lia]).

(** X21: the two draws of the shuffle decide the provenance map, one
    to one. Each of the six orders of GPT, Google, Human has one pair of
    draws (the first below 3, the second below 2), and
    prepare_blind_labels hands the categories to A, B, C in this order
    exactly when the generator returns these two draws: no order is left
    out and none is reached by two pairs, so draws that are uniform give
    each order with the same chance. *)
Theorem prepare_blind_labels_order_of_draws (perm : list str) :
  perm ≡ₚ categories →
  ∃ j2 j1, j2 < 3 ∧ j1 < 2 ∧
    ∀ (G : Type) (source : RandomSource G) (rng : G) gpt google human
      labels mapping rng',
      prepare_blind_labels rng gpt google human = Ok (labels, mapping, rng') →
      (dict_values mapping = perm ↔
       (randbelow rng 3).1 = j2 ∧ (randbelow (randbelow rng 3).2 2).1 = j1).
Proof.
  intros Hperm%categories_orders.
  assert (∀ (G : Type) (source : RandomSource G) (rng : G) gpt google human
            labels mapping rng',
            prepare_blind_labels rng gpt google human = Ok (labels, mapping, rng') →
            (randbelow rng 3).1 < 3 ∧ (randbelow (randbelow rng 3).2 2).1 < 2 ∧
            dict_values mapping =
              match (randbelow rng 3).1, (randbelow (randbelow rng 3).2 2).1 with
              | 0, 0 => [Google; Human; GPT]
              | 0, _ => [Human; Google; GPT]
              | 1, 0 => [Human; GPT; Google]
              | 1, _ => [GPT; Human; Google]
              | _, 0 => [Google; GPT; Human]
              | _, _ => [GPT; Google; Human]
              end) as Hdraws.
  { intros G source rng gpt google human labels mapping rng' Hprep.
    apply prepare_blind_labels_mapping in Hprep as [Hs _].
    destruct (shuffle_three rng GPT Google Human)
      as (j2 & j1 & rng1 & rng2 & Hj2 & Hj1 & H2 & H1 & Hs').
    unfold categories in Hs. rewrite Hs' in Hs. injection Hs as <- _.
    rewrite Hj2. cbn [fst snd]. by rewrite Hj1. }
  repeat (apply elem_of_cons in Hperm as [->|Hperm]); [..|by apply elem_of_nil in Hperm];
    [exists 2, 1|exists 1, 1|exists 2, 0|exists 0, 0|exists 1, 0|exists 0, 1];
    (do 2 (split; [lia|])); decide_draws Hdraws.
Qed.

Lemma prepare_blind_labels_order_of_draws_witness :
  categories ≡ₚ categories ∧
  ∃ j2 j1, j2 < 3 ∧ j1 < 2 ∧
    ∀ (G : Type) (source : RandomSource G) (rng : G) gpt google human
      labels mapping rng',
      prepare_blind_labels rng gpt google human = Ok (labels, mapping, rng') →
      (dict_values mapping = categories ↔
       (randbelow rng 3).1 = j2 ∧ (randbelow (randbelow rng 3).2 2).1 = j1).
Proof.
  split; [reflexivity|]. apply (prepare_blind_labels_order_of_draws categories).
  reflexivity.
Defined.

(** ** Instances of the statements with hypotheses *)

Lemma primary_keys_example : primary_keys example_connection.
Proof. split; apply (bool_decide_unpack _); vm_compute; reflexivity. Qed.

Lemma insertions_keep_constraints_witness :
  primary_keys example_connection ∧ sentences_unique example_connection ∧
  (∀ language_ original human google id conn',
     insert_sentence example_connection language_ original human google = Ok (id, conn') →
     primary_keys conn' ∧ sentences_unique conn') ∧
  (∀ provider model seed config_hash created_at,
     let conn' :=
       (insert_run example_connection provider model seed config_hash created_at).2 in
     primary_keys conn' ∧ sentences_unique conn') ∧
  (∀ run_id sentence_id text,
     let conn' := insert_translation example_connection run_id sentence_id text in
     primary_keys conn' ∧ sentences_unique conn') ∧
  (∀ run_id sentence_id evaluation_text mapping_text,
     let conn' :=
       insert_evaluation example_connection run_id sentence_id evaluation_text mapping_text in
     primary_keys conn' ∧ sentences_unique conn').
Proof.
  assert (sentences_unique example_connection) as Hu.
  { apply (bool_decide_unpack _). vm_compute. reflexivity. }
  split; [apply primary_keys_example|]. split; [exact Hu|].
  apply (insertions_keep_constraints example_connection);
    [apply primary_keys_example | exact Hu].
Defined.

Lemma load_seed_data_stores_seed_rows_witness :
  ∃ conn',
    load_seed_data (W:=nat) empty_connection (lit "data/seed") [lit "finnish"] = Ok conn' ∧
    (∃ new,
       rows (sentences conn') = rows (sentences empty_connection) ++ new ∧
       ∀ s, s ∈ new →
         ∃ row, row ∈ seed_rows (W:=nat) (lit "data/seed") [lit "finnish"] ∧
                s = sentence_of_seed (sentence_rowid s) row) ∧
    (∀ row, row ∈ seed_rows (W:=nat) (lit "data/seed") [lit "finnish"] →
       seed_key row ∈ sentence_key <$> rows (sentences conn')) ∧
    runs conn' = runs empty_connection ∧
    translations conn' = translations empty_connection ∧
    evaluations conn' = evaluations empty_connection.
Proof.
  destruct (load_seed_data (W:=nat) empty_connection (lit "data/seed") [lit "finnish"])
    as [conn'|e] eqn:Hload; [|vm_compute in Hload; discriminate Hload].
  exists conn'. split; [reflexivity|].
  apply (load_seed_data_stores_seed_rows empty_connection (lit "data/seed")
           [lit "finnish"] conn'). exact Hload.
Defined.

Lemma load_seed_data_twice_witness :
  ∃ conn1,
    load_seed_data (W:=nat) empty_connection (lit "data/seed") [lit "finnish"] = Ok conn1 ∧
    ∃ conn2,
      load_seed_data (W:=nat) conn1 (lit "data/seed") [lit "finnish"] = Ok conn2 ∧
      rows (sentences conn2) = rows (sentences conn1) ∧
      runs conn2 = runs conn1 ∧ translations conn2 = translations conn1 ∧
      evaluations conn2 = evaluations conn1.
Proof.
  destruct (load_seed_data (W:=nat) empty_connection (lit "data/seed") [lit "finnish"])
    as [conn1|e] eqn:Hload; [|vm_compute in Hload; discriminate Hload].
  exists conn1. split; [reflexivity|].
  apply (load_seed_data_twice empty_connection (lit "data/seed") [lit "finnish"] conn1).
  exact Hload.
Defined.

Lemma process_model_unknown_provider_witness :
  cfg_provider unknown_model ≠ lit "openai" ∧
  cfg_provider unknown_model ≠ lit "gemini" ∧
  let config := stub_config [lit "finnish"] in
  let conn := example_connection in
  let created := utcnow_isoformat 0 in
  let inserted :=
    insert_run conn (cfg_provider unknown_model) (cfg_name unknown_model) 42
      (lit "hash") created.1 in
  ((∀ lang, lang ∈ cfg_languages config →
      select_sentences conn (str_capitalize lang) = []) →
   process_model (G:=N) config 42 (lit "hash") unknown_model (0, conn) =
     Ok (created.2, inserted.2)) ∧
  ((∃ lang, lang ∈ cfg_languages config ∧
      select_sentences conn (str_capitalize lang) ≠ []) →
   process_model (G:=N) config 42 (lit "hash") unknown_model (0, conn)
     = Raise ValueError).
Proof.
  assert (cfg_provider unknown_model ≠ lit "openai") as Ho by (by vm_compute).
  assert (cfg_provider unknown_model ≠ lit "gemini") as Hg by (by vm_compute).
  split; [exact Ho|]. split; [exact Hg|].
  apply (process_model_unknown_provider (G:=N) (stub_config [lit "finnish"]) 42
           (lit "hash") unknown_model 0 example_connection);
    [exact Ho | exact Hg].
Defined.

(** The two cases of the unknown provider, run: with the example
    sentence stored, and on an empty store. *)
Example process_model_unknown_provider_example :
  process_model (G:=N) (stub_config [lit "finnish"]) 42 (lit "hash") unknown_model
    (0, example_connection) = Raise ValueError ∧
  (λ st, rows (runs st.2)) <$>
    process_model (G:=N) (stub_config [lit "finnish"]) 42 (lit "hash") unknown_model
      (0, empty_connection) =
  Ok [Run 1 (lit "2025-01-01T00:00:00") (lit "mistral") (lit "mistral-large") 42 (lit "hash")].
Proof. vm_compute. done. Qed.

Lemma run_pipeline_runs_witness :
  ∃ w' conn',
    run_pipeline (G:=N) (stub_config [lit "finnish"]) None 0 = Ok (w', conn') ∧
    ∃ new_runs,
      rows (runs conn') = rows (runs (init_db None)) ++ new_runs ∧
      run_rowid <$> new_runs =
        seqZ (autoincrement run_rowid (runs (init_db None)))
             (Z.of_nat (length (cfg_models (stub_config [lit "finnish"])))) ∧
      Forall2 (λ r m, run_provider r = cfg_provider m ∧ run_model r = cfg_name m ∧
                      run_seed r = default 42%Z (cfg_seed (stub_config [lit "finnish"])) ∧
                      run_config_hash r =
                        sha256_hexdigest (cfg_json (stub_config [lit "finnish"])))
        new_runs (cfg_models (stub_config [lit "finnish"])).
Proof.
  destruct (run_pipeline (G:=N) (stub_config [lit "finnish"]) None 0)
    as [[w' conn']|e] eqn:Hrun; [|vm_compute in Hrun; discriminate Hrun].
  exists w', conn'. split; [reflexivity|].
  apply (run_pipeline_runs (stub_config [lit "finnish"]) None 0 w' conn'). exact Hrun.
Defined.

Lemma run_pipeline_rows_witness :
  ∃ w' conn',
    run_pipeline (G:=N) (stub_config [lit "finnish"]) None 0 = Ok (w', conn') ∧
    ∃ new_runs ts es,
      rows (runs conn') = rows (runs (init_db None)) ++ new_runs ∧
      rows (translations conn') = rows (translations (init_db None)) ++ ts ∧
      rows (evaluations conn') = rows (evaluations (init_db None)) ++ es ∧
      translation_key <$> ts =
        (new_runs ≫= λ r,
           run_keys conn' (cfg_languages (stub_config [lit "finnish"])) (run_rowid r)) ∧
      evaluation_key <$> es = translation_key <$> ts ∧
      ∀ run_id sentence_id,
        (run_id, sentence_id) ∈ translation_key <$> ts ↔
        run_id ∈ run_rowid <$> new_runs ∧
        ∃ lang s, lang ∈ cfg_languages (stub_config [lit "finnish"]) ∧
                  s ∈ rows (sentences conn') ∧
                  language s = str_capitalize lang ∧ sentence_rowid s = sentence_id.
Proof.
  destruct (run_pipeline (G:=N) (stub_config [lit "finnish"]) None 0)
    as [[w' conn']|e] eqn:Hrun; [|vm_compute in Hrun; discriminate Hrun].
  exists w', conn'. split; [reflexivity|].
  apply (run_pipeline_rows (stub_config [lit "finnish"]) None 0 w' conn'). exact Hrun.
Defined.

Lemma foreign_keys_empty : foreign_keys empty_connection.
Proof. split; by intros ? ?%elem_of_nil. Qed.

Lemma run_pipeline_foreign_keys_witness :
  foreign_keys (init_db None) ∧
  ∃ w' conn',
    run_pipeline (G:=N) (stub_config [lit "finnish"]) None 0 = Ok (w', conn') ∧
    foreign_keys conn'.
Proof.
  split; [apply foreign_keys_empty|].
  destruct (run_pipeline (G:=N) (stub_config [lit "finnish"]) None 0)
    as [[w' conn']|e] eqn:Hrun; [|vm_compute in Hrun; discriminate Hrun].
  exists w', conn'. split; [reflexivity|].
  apply (run_pipeline_foreign_keys (stub_config [lit "finnish"]) None 0 w' conn');
    [apply foreign_keys_empty | exact Hrun].
Defined.

Lemma run_pipeline_stores_bijections_witness :
  ∃ w' conn',
    run_pipeline (G:=N) (stub_config [lit "finnish"]) None 0 = Ok (w', conn') ∧
    ∃ es,
      rows (evaluations conn') = rows (evaluations (init_db None)) ++ es ∧
      Forall (λ e, ∃ mapping,
                json_loads (mapping_json e) = Ok (py_of_mapping mapping) ∧
                is_bijection mapping) es.
Proof.
  destruct (run_pipeline (G:=N) (stub_config [lit "finnish"]) None 0)
    as [[w' conn']|e] eqn:Hrun; [|vm_compute in Hrun; discriminate Hrun].
  exists w', conn'. split; [reflexivity|].
  apply (run_pipeline_stores_bijections (stub_config [lit "finnish"]) None 0 w' conn').
  exact Hrun.
Defined.

Lemma table3_skips_evaluation_without_scores_witness :
  json_loads (fetched_evaluation_json failed_fetched) =
    Ok (json_parse_failed (lit "no scores")) ∧
  (∀ label, label ∈ blind_labels →
     default PNone
       (dict_get [(lit "error", PStr (lit "json_parse_failed"));
                  (lit "raw", PStr (lit "no scores"))] (score_key label)) = PNone) ∧
  json_loads (fetched_mapping_json failed_fetched) =
    Ok (PDict [(label_A, PStr Human); (label_B, PStr Google); (label_C, PStr GPT)]) ∧
  Forall (λ item : str * pyval, hashable item.2)
    [(label_A, PStr Human); (label_B, PStr Google); (label_C, PStr GPT)] ∧
  table3 (F:=Q) (take 2 example_fetched ++ failed_fetched :: drop 3 example_fetched) =
  table3 (take 2 example_fetched ++ drop 3 example_fetched).
Proof.
  assert (∀ label, label ∈ blind_labels →
            default PNone
              (dict_get [(lit "error", PStr (lit "json_parse_failed"));
                         (lit "raw", PStr (lit "no scores"))] (score_key label)) = PNone)
    as Hnone.
  { intros label Hl. unfold blind_labels in Hl.
    repeat (apply elem_of_cons in Hl as [->|Hl]); [done..|by apply elem_of_nil in Hl]. }
  assert (Forall (λ item : str * pyval, hashable item.2)
            [(label_A, PStr Human); (label_B, PStr Google); (label_C, PStr GPT)]) as Hall.
  { by repeat constructor. }
  split; [vm_compute; reflexivity|]. split; [exact Hnone|].
  split; [vm_compute; reflexivity|]. split; [exact Hall|].
  apply (table3_skips_evaluation_without_scores (F:=Q)
           (take 2 example_fetched) (drop 3 example_fetched) failed_fetched
           [(lit "error", PStr (lit "json_parse_failed")); (lit "raw", PStr (lit "no scores"))]
           [(label_A, PStr Human); (label_B, PStr Google); (label_C, PStr GPT)]);
    [vm_compute; reflexivity | exact Hnone | vm_compute; reflexivity | exact Hall].
Defined.

Lemma evaluation_user_prompt_blind_witness :
  GPT ∈ categories ∧
  occurs GPT
    (evaluation_user_prompt (lit "GPT wrote this.") (lit "a") (lit "b") (lit "c")) ∧
  (occurs GPT (lit "GPT wrote this.") ∨ occurs GPT (lit "a") ∨
   occurs GPT (lit "b") ∨ occurs GPT (lit "c")).
Proof.
  assert (GPT ∈ categories) as Hcat by (unfold categories; by left).
  assert (occurs GPT
            (evaluation_user_prompt (lit "GPT wrote this.") (lit "a") (lit "b") (lit "c")))
    as Ho.
  { set (prompt := evaluation_user_prompt _ _ _ _).
    exists (take (Z.to_nat (str_find prompt GPT)) prompt),
           (drop (Z.to_nat (str_find prompt GPT) + 3) prompt).
    vm_compute. reflexivity. }
  split; [exact Hcat|]. split; [exact Ho|].
  apply (evaluation_user_prompt_blind (lit "GPT wrote this.") (lit "a") (lit "b") (lit "c")
           GPT Hcat Ho).
Defined.
